(** * chprintf: a shallow embedding of ChibiOS' mini printf

    Source: [os/hal/lib/streams/chprintf.c].

    Data model.  The engine is embedded for the 32-bit targets the HAL is
    written for (ILP32): [int], [long], [unsigned long] and [size_t] are 32
    bits wide, two's complement, and signed arithmetic wraps (the negation
    of [LONG_MIN] apart, see below); plain [char]
    is an unsigned byte.  Characters are integers in [0, 256).  A C string
    is the list of its bytes, the terminating NUL being implicit right
    after the last element.  [double] is IEEE binary64 (primitive floats).

    Behaviour the C standard leaves undefined and that the properties
    below depend on is made explicit as a [fault]: a store outside [tmpbuf], a read of
    the [pow10] table outside its nine entries, a read of the format string
    past its terminating NUL, a [va_arg] that does not match the next
    argument, the negation of [LONG_MIN]. *)

From Stdlib Require Import String Ascii ZArith List Bool Lia Floats Uint63.
Import ListNotations.
Open Scope Z_scope.

(** ** Faults and the error monad *)

Inductive fault : Set :=
| TmpbufOutOfBounds (index : Z)
| TmpbufUninitialised (index : Z)
| Pow10OutOfBounds (index : Z)
| FmtOverrun
| VaArgMismatch
| DestOutOfBounds (index : Z)
| SignedOverflow
| NormaliseFuel
| OutOfFuel.

Inductive res (A : Type) : Type :=
| Ok (a : A)
| Fault (f : fault).

Arguments Ok {A} a.
Arguments Fault {A} f.

Definition bind {A B : Type} (m : res A) (k : A -> res B) : res B :=
  match m with
  | Ok a => k a
  | Fault f => Fault f
  end.

Notation "x <- m ;; k" := (bind m (fun x => k))
  (at level 61, m at next level, right associativity).
Notation "' pat <- m ;; k" := (bind m (fun x => match x with pat => k end))
  (at level 61, pat pattern, m at next level, right associativity).

(** ** Machine integers and characters *)

Definition wrap_u32 (z : Z) : Z := z mod 2 ^ 32.
Definition wrap_s32 (z : Z) : Z := (z + 2 ^ 31) mod 2 ^ 32 - 2 ^ 31.
Definition to_char (z : Z) : Z := z mod 256.

Definition ch (a : ascii) : Z := Z.of_N (N_of_ascii a).
Definition bytes (s : string) : list Z := map ch (list_ascii_of_string s).

Definition MAX_FILLER : nat := 11.
Definition FLOAT_PRECISION : Z := 9.

(** ** The working buffer [tmpbuf]

    A cell is [None] until the first store into it. *)

Definition buffer : Type := list (option Z).

Definition load (buf : buffer) (i : nat) : res Z :=
  match nth_error buf i with
  | Some (Some v) => Ok v
  | Some None => Fault (TmpbufUninitialised (Z.of_nat i))
  | None => Fault (TmpbufOutOfBounds (Z.of_nat i))
  end.

Fixpoint upd (buf : buffer) (i : nat) (v : Z) : buffer :=
  match buf, i with
  | [], _ => []
  | _ :: t, O => Some v :: t
  | x :: t, S j => x :: upd t j v
  end.

Definition store (buf : buffer) (i : nat) (v : Z) : res buffer :=
  if (i <? length buf)%nat then Ok (upd buf i (to_char v))
  else Fault (TmpbufOutOfBounds (Z.of_nat i)).

Fixpoint load_range (buf : buffer) (from : nat) (count : nat) : res (list Z) :=
  match count with
  | O => Ok []
  | S k =>
      v <- load buf from ;;
      rest <- load_range buf (S from) k ;;
      Ok (v :: rest)
  end.

(** ** Integer renderer *)

(** The digit loop of [long_to_string_with_divisor]:
    [do { i = l % radix; ...; *--q = i; l /= radix; } while ((ll /= radix) != 0);]
    [l] and [ll] are [long], [radix] is [unsigned]: with 32-bit [long] both
    operands are converted to [unsigned long], so the remainder and the
    quotient are the unsigned ones.  The recursion is on [q] itself: a
    store below the start of [tmpbuf] is a fault. *)
Fixpoint digit_loop (q : nat) (buf : buffer) (l ll radix : Z) : res (buffer * nat) :=
  match q with
  | O => Fault (TmpbufOutOfBounds (-1))
  | S q' =>
      let i := wrap_u32 l mod radix in
      let i := i + ch "0" in
      let i := if ch "9" <? i then i + (ch "A" - ch "0" - 10) else i in
      buf <- store buf q' i ;;
      let l := wrap_s32 (wrap_u32 l / radix) in
      let ll := wrap_s32 (wrap_u32 ll / radix) in
      if ll =? 0 then Ok (buf, q') else digit_loop q' buf l ll radix
  end.

(** [do *p++ = *q++; while (--i);] entered with [i = S k]. *)
Fixpoint copy_loop (k : nat) (buf : buffer) (p q : nat) : res (buffer * nat) :=
  v <- load buf q ;;
  buf <- store buf p v ;;
  match k with
  | O => Ok (buf, S p)
  | S k' => copy_loop k' buf (S p) (S q)
  end.

Definition long_to_string_with_divisor
    (buf : buffer) (p : nat) (num : Z) (radix : Z) (divisor : Z) : res (buffer * nat) :=
  let l := num in
  let ll := if divisor =? 0 then num else divisor in
  '(buf, q) <- digit_loop (p + MAX_FILLER) buf l ll radix ;;
  let i := (p + MAX_FILLER - q)%nat in
  copy_loop (i - 1) buf p q.

Definition ch_ltoa (buf : buffer) (p : nat) (num : Z) (radix : Z) : res (buffer * nat) :=
  long_to_string_with_divisor buf p num radix 0.

(** ** Float renderer (built when [CHPRINTF_USE_FLOAT] is set) *)

Definition pow10 : list Z :=
  [10; 100; 1000; 10000; 100000; 1000000; 10000000; 100000000; 1000000000].

(** [pow10[i]] with [i] an [unsigned long]: only indices 0..8 exist. *)
Definition pow10_at (i : Z) : res Z :=
  if (0 <=? i) && (i <? FLOAT_PRECISION) then
    match nth_error pow10 (Z.to_nat i) with
    | Some v => Ok v
    | None => Fault (Pow10OutOfBounds i)
    end
  else Fault (Pow10OutOfBounds i).

(** [(int)x] and [(long)x]: the value of [x] truncated toward zero. *)
Definition trunc (x : float) : Z :=
  match Prim2SF x with
  | S754_finite s m e =>
      let v := if 0 <=? e then Z.pos m * 2 ^ e else Z.pos m / 2 ^ (- e) in
      if s then - v else v
  | _ => 0
  end.

(** [(double)z] for an integer below 2^53 in magnitude. *)
Definition to_double (z : Z) : float :=
  if z <? 0 then PrimFloat.opp (PrimFloat.of_uint63 (Uint63.of_Z (- z)))
  else PrimFloat.of_uint63 (Uint63.of_Z z).

(** A finite double is below 1.8e308 and, when not zero, at least 4.9e-324:
    each normalisation loop runs fewer than 330 times. *)
Definition normalise_fuel : nat := 400.

(** [while (num >= 10.0) { num /= 10.0; E++; }] *)
Fixpoint scale_down (fuel : nat) (num : float) (E : Z) : res (float * Z) :=
  if PrimFloat.leb 10 num then
    match fuel with
    | O => Fault NormaliseFuel
    | S k => scale_down k (PrimFloat.div num 10) (wrap_s32 (E + 1))
    end
  else Ok (num, E).

(** [while (num < 1.0) { num *= 10.0; E--; }] *)
Fixpoint scale_up (fuel : nat) (num : float) (E : Z) : res (float * Z) :=
  if PrimFloat.ltb num 1 then
    match fuel with
    | O => Fault NormaliseFuel
    | S k => scale_up k (PrimFloat.mul num 10) (wrap_s32 (E - 1))
    end
  else Ok (num, E).

Definition normalise (num : float) : res (float * Z) :=
  if negb (PrimFloat.eqb num 0) then
    '(num, E) <- scale_down normalise_fuel num 0 ;;
    scale_up normalise_fuel num E
  else Ok (num, 0).

(** The plain-notation loop
    [for (; precision > 0; E--, precision--) { ... }]. *)
Fixpoint ftoa_plain (precision : nat) (buf : buffer) (p : nat) (num : float) (E : Z)
  : res (buffer * nat) :=
  match precision with
  | O => Ok (buf, p)
  | S k =>
      buf <- store buf p (ch "0" + trunc num) ;;
      let p := S p in
      '(buf, p) <- (if (E =? 0) && (1 <? Z.of_nat precision)
                    then buf <- store buf p (ch ".") ;; Ok (buf, S p)
                    else Ok (buf, p)) ;;
      let num := PrimFloat.sub num (to_double (trunc num)) in
      let num := PrimFloat.mul num 10 in
      ftoa_plain k buf p num (wrap_s32 (E - 1))
  end.

(** The scientific-notation branch (the [else] of [ftoa]). *)
Definition ftoa_exp (buf : buffer) (p : nat) (num : float) (E : Z) (precision : Z)
  : res (buffer * nat) :=
  let l := wrap_s32 (trunc num) in
  '(buf, p) <- long_to_string_with_divisor buf p l 10 0 ;;
  '(buf, p) <-
    (if 1 <=? precision then
       precision <- pow10_at (wrap_u32 (precision - 2)) ;;
       buf <- store buf p (ch ".") ;;
       let p := S p in
       let l := wrap_s32 (trunc (PrimFloat.mul (PrimFloat.sub num (to_double l))
                                               (to_double precision))) in
       long_to_string_with_divisor buf p l 10 (wrap_s32 (precision / 10))
     else Ok (buf, p)) ;;
  buf <- store buf p (ch "E") ;;
  let p := S p in
  if 0 <=? E then
    buf <- store buf p (ch "+") ;;
    long_to_string_with_divisor buf (S p) E 10 0
  else
    buf <- store buf p (ch "-") ;;
    let E := wrap_s32 (- E) in
    long_to_string_with_divisor buf (S p) E 10 0.

Definition ftoa (buf : buffer) (p : nat) (num : float) (precision : Z) : res (buffer * nat) :=
  if PrimFloat.is_nan num then
    buf <- store buf p (ch "N") ;;
    buf <- store buf (p + 1) (ch "A") ;;
    buf <- store buf (p + 2) (ch "N") ;;
    Ok (buf, (p + 3)%nat)
  else if PrimFloat.is_infinity num then
    '(buf, p) <- (if PrimFloat.ltb num 0
                  then buf <- store buf p (ch "-") ;; Ok (buf, S p)
                  else Ok (buf, p)) ;;
    buf <- store buf p (ch "I") ;;
    buf <- store buf (p + 1) (ch "N") ;;
    buf <- store buf (p + 2) (ch "F") ;;
    Ok (buf, (p + 3)%nat)
  else
    '(num, E) <- normalise num ;;
    let precision :=
      if (precision =? 0) || (FLOAT_PRECISION <? precision)
      then FLOAT_PRECISION else precision in
    if (E <? precision) && (0 <=? E) then
      ftoa_plain (Z.to_nat precision) buf p num E
    else
      ftoa_exp buf p num E precision.

(** ** Argument list

    The arguments as the caller passed them, each with the type it was
    passed at.  [va_arg(ap, T)] on an argument of another kind ([long]
    where an [int] was passed, and the like), or on an exhausted list, is
    undefined behaviour. *)

Inductive va_value : Type :=
| VInt (v : Z)                  (* an [int] or [unsigned int] argument *)
| VLong (v : Z)                 (* a [long] or [unsigned long] argument *)
| VDouble (d : float)
| VStr (s : option (list Z)).   (* a [char *]; [None] is the null pointer *)

Definition va_list : Type := list va_value.

Definition va_arg_int (ap : va_list) : res (Z * va_list) :=
  match ap with VInt v :: ap' => Ok (wrap_s32 v, ap') | _ => Fault VaArgMismatch end.

Definition va_arg_unsigned_int (ap : va_list) : res (Z * va_list) :=
  match ap with VInt v :: ap' => Ok (wrap_u32 v, ap') | _ => Fault VaArgMismatch end.

Definition va_arg_long (ap : va_list) : res (Z * va_list) :=
  match ap with VLong v :: ap' => Ok (wrap_s32 v, ap') | _ => Fault VaArgMismatch end.

Definition va_arg_unsigned_long (ap : va_list) : res (Z * va_list) :=
  match ap with VLong v :: ap' => Ok (wrap_u32 v, ap') | _ => Fault VaArgMismatch end.

Definition va_arg_double (ap : va_list) : res (float * va_list) :=
  match ap with VDouble d :: ap' => Ok (d, ap') | _ => Fault VaArgMismatch end.

Definition va_arg_char_ptr (ap : va_list) : res (option (list Z) * va_list) :=
  match ap with VStr s :: ap' => Ok (s, ap') | _ => Fault VaArgMismatch end.

(** ** Format cursor

    [At rest]: the cursor points at the first byte of [rest], or at the
    terminating NUL when [rest] is empty.  [Past]: the cursor has moved
    beyond the terminating NUL; dereferencing it is a fault. *)

Inductive cursor : Type :=
| At (rest : list Z)
| Past.

(** [*fmt] *)
Definition peek (fmt : cursor) : res Z :=
  match fmt with
  | At (c :: _) => Ok c
  | At [] => Ok 0
  | Past => Fault FmtOverrun
  end.

(** [fmt++] *)
Definition advance (fmt : cursor) : cursor :=
  match fmt with
  | At (_ :: rest) => At rest
  | At [] => Past
  | Past => Past
  end.

(** [*fmt++] *)
Definition next (fmt : cursor) : res (Z * cursor) :=
  c <- peek fmt ;; Ok (c, advance fmt).

(** ** Specifier parser *)

(** The width loop and the precision loop:
    [while (TRUE) { c = *fmt++; if digit c -= '0'; else if (c == '*')
    c = va_arg(ap, int); else break; width = width * 10 + c; }].
    Returns the character that ended the loop. *)
Fixpoint number_loop (rest : list Z) (ap : va_list) (acc : Z)
  : res (Z * cursor * va_list * Z) :=
  match rest with
  | [] => Ok (0, Past, ap, acc)
  | c :: rest' =>
      if (ch "0" <=? c) && (c <=? ch "9") then
        number_loop rest' ap (wrap_s32 (acc * 10 + (c - ch "0")))
      else if c =? ch "*" then
        '(v, ap) <- va_arg_int ap ;;
        number_loop rest' ap (wrap_s32 (acc * 10 + to_char v))
      else Ok (c, At rest', ap, acc)
  end.

Definition parse_number (fmt : cursor) (ap : va_list) : res (Z * cursor * va_list * Z) :=
  match fmt with
  | At rest => number_loop rest ap 0
  | Past => Fault FmtOverrun
  end.

Definition parse_flags (fmt : cursor) : res (bool * Z * cursor) :=
  c <- peek fmt ;;
  let '(left_align, fmt) := if c =? ch "-" then (true, advance fmt) else (false, fmt) in
  c <- peek fmt ;;
  let '(filler, fmt) := if c =? ch "0" then (ch "0", advance fmt) else (ch " ", fmt) in
  Ok (left_align, filler, fmt).

(** [if (c == 'l' || c == 'L') { is_long = TRUE; if ( *fmt) c = *fmt++; }
     else is_long = (c >= 'A') && (c <= 'Z');] *)
Definition long_modifier (c : Z) (fmt : cursor) : res (bool * Z * cursor) :=
  if (c =? ch "l") || (c =? ch "L") then
    nxt <- peek fmt ;;
    if negb (nxt =? 0) then
      '(c, fmt) <- next fmt ;; Ok (true, c, fmt)
    else Ok (true, c, fmt)
  else Ok ((ch "A" <=? c) && (c <=? ch "Z"), c, fmt).

Record directive : Type := {
  left_align : bool;
  filler : Z;
  width : Z;
  precision : Z;
  is_long : bool;
  conv : Z
}.

(** Lines 256-306: everything between the ['%'] and the conversion switch. *)
Definition parse_directive (fmt : cursor) (ap : va_list)
  : res (directive * cursor * va_list) :=
  '(left_align, filler, fmt) <- parse_flags fmt ;;
  '(c, fmt, ap, width) <- parse_number fmt ap ;;
  '(c, fmt, ap, precision) <-
    (if c =? ch "." then parse_number fmt ap else Ok (c, fmt, ap, 0)) ;;
  '(is_long, c, fmt) <- long_modifier c fmt ;;
  Ok ({| left_align := left_align; filler := filler; width := width;
         precision := precision; is_long := is_long; conv := c |}, fmt, ap).

(** ** Conversions (the [switch (c)]) *)

(** [for (p = s; *p && (--precision >= 0); p++);] returns [p - s]. *)
Fixpoint str_count (s : list Z) (precision : Z) : Z :=
  match s with
  | [] => 0
  | c :: rest =>
      if c =? 0 then 0
      else
        let precision := wrap_s32 (precision - 1) in
        if 0 <=? precision then 1 + str_count rest precision else 0
  end.

(** What a conversion leaves behind: the filler, the bytes readable at [s]
    (for [tmpbuf] the cells up to [p]), [p - s], the argument list, the
    working buffer and the function-static [f]. *)
Record converted : Type := {
  c_filler : Z;
  c_s : list Z;
  c_len : Z;
  c_ap : va_list;
  c_tmpbuf : buffer;
  c_f : float
}.

(** [s] still points to the start of [tmpbuf], [p] behind the rendered text. *)
Definition in_tmpbuf (filler : Z) (ap : va_list) (f : float) (r : res (buffer * nat))
  : res converted :=
  '(buf, p) <- r ;;
  s <- load_range buf 0 p ;;
  Ok {| c_filler := filler; c_s := s; c_len := Z.of_nat p;
        c_ap := ap; c_tmpbuf := buf; c_f := f |}.

(** [l = -l;] behind the stored ['-'] (line 335): the negation of
    [LONG_MIN] overflows. *)
Definition negate (buf : buffer) (l : Z) : res (buffer * nat * Z) :=
  if l =? - 2 ^ 31 then Fault SignedOverflow else Ok (buf, 1%nat, - l).

Definition unsigned_common (d : directive) (radix : Z) (ap : va_list) (tmpbuf : buffer)
    (f : float) : res converted :=
  '(l, ap) <- (if is_long d then va_arg_unsigned_long ap else va_arg_unsigned_int ap) ;;
  let l := wrap_s32 l in
  in_tmpbuf (filler d) ap f (ch_ltoa tmpbuf 0 l radix).

Definition convert (use_float : bool) (d : directive) (ap : va_list) (tmpbuf : buffer)
    (f : float) : res converted :=
  let c := conv d in
  if c =? ch "c" then
    '(v, ap) <- va_arg_int ap ;;
    in_tmpbuf (ch " ") ap f (buf <- store tmpbuf 0 v ;; Ok (buf, 1%nat))
  else if c =? ch "s" then
    '(s, ap) <- va_arg_char_ptr ap ;;
    let s := match s with Some s => s | None => bytes "(null)" end in
    let precision := if precision d =? 0 then 32767 else precision d in
    Ok {| c_filler := ch " "; c_s := s; c_len := str_count s precision;
          c_ap := ap; c_tmpbuf := tmpbuf; c_f := f |}
  else if (c =? ch "D") || (c =? ch "d") || (c =? ch "I") || (c =? ch "i") then
    '(l, ap) <- (if is_long d then va_arg_long ap else va_arg_int ap) ;;
    in_tmpbuf (filler d) ap f
      ('(buf, p, l) <- (if l <? 0
                        then buf <- store tmpbuf 0 (ch "-") ;; negate buf l
                        else Ok (tmpbuf, 0%nat, l)) ;;
       ch_ltoa buf p l 10)
  else if use_float && (c =? ch "f") then
    '(f, ap) <- va_arg_double ap ;;
    '(buf, p, f) <- (if PrimFloat.ltb f 0
                     then buf <- store tmpbuf 0 (ch "-") ;; Ok (buf, 1%nat, PrimFloat.opp f)
                     else Ok (tmpbuf, 0%nat, f)) ;;
    in_tmpbuf (filler d) ap f (ftoa buf p f (wrap_u32 (precision d)))
  else if (c =? ch "X") || (c =? ch "x") then unsigned_common d 16 ap tmpbuf f
  else if (c =? ch "U") || (c =? ch "u") then unsigned_common d 10 ap tmpbuf f
  else if (c =? ch "O") || (c =? ch "o") then unsigned_common d 8 ap tmpbuf f
  else
    in_tmpbuf (filler d) ap f (buf <- store tmpbuf 0 c ;; Ok (buf, 1%nat)).

(** ** Padding and emission (lines 373-403)

    The bytes handed to [streamPut], in order. *)
Definition field_bytes (s : list Z) (i : Z) (width : Z) (left_align : bool) (filler : Z)
  : list Z :=
  let width := wrap_s32 (width - i) in
  let width := if width <? 0 then 0 else width in
  let width := if negb left_align then - width else width in
  let '(lead, s, i, width) :=
    if width <? 0 then
      let '(sign, s, i) :=
        if (hd 0 s =? ch "-") && (filler =? ch "0")
        then ([hd 0 s], tl s, i - 1)
        else ([], s, i) in
      (sign ++ repeat filler (Z.to_nat (- width)), s, i, 0)
    else ([], s, i, width) in
  lead ++ firstn (Z.to_nat i) s ++ repeat filler (Z.to_nat width).

(** One ['%'] directive, from the byte after the ['%'] to the last
    [streamPut] of the field. *)
Definition run_directive (use_float : bool) (fmt : cursor) (ap : va_list)
    (tmpbuf : buffer) (f : float) : res (list Z * cursor * va_list * buffer * float) :=
  '(d, fmt, ap) <- parse_directive fmt ap ;;
  r <- convert use_float d ap tmpbuf f ;;
  Ok (field_bytes (c_s r) (c_len r) (width d) (left_align d) (c_filler r),
      fmt, c_ap r, c_tmpbuf r, c_f r).

(** ** Sinks *)

Class BaseSequentialStream (S : Type) : Type := {
  streamPut : S -> Z -> res S
}.

Fixpoint put_all {S : Type} `{BaseSequentialStream S} (chp : S) (bs : list Z) : res S :=
  match bs with
  | [] => Ok chp
  | b :: rest => chp <- streamPut chp b ;; put_all chp rest
  end.

(** [streamPut(chp, (uint8_t)b); n++;] for each byte, [n] being kept by the
    caller. *)
Definition stream_write {S : Type} `{BaseSequentialStream S} (chp : S) (bs : list Z) : res S :=
  put_all chp (map to_char bs).

(** An unbounded sink that records every byte it is given. *)
#[global] Instance log_stream : BaseSequentialStream (list Z) := {
  streamPut log b := Ok (log ++ [b])
}.

(** ** Format engine *)

Definition tmpbuf_size (use_float : bool) : nat :=
  if use_float then (2 * MAX_FILLER + 1)%nat else (MAX_FILLER + 1)%nat.

(** The [while (true)] of [chvprintf].  Every round that does not return
    consumes at least one byte of the format, so [length fmt] further rounds
    are enough (see [chvprintf_loop_fuel]). *)
Fixpoint chvprintf_loop {S : Type} `{BaseSequentialStream S} (use_float : bool)
    (fuel : nat) (chp : S) (fmt : cursor) (ap : va_list) (n : Z)
    (tmpbuf : buffer) (f : float) : res (S * Z * float) :=
  '(c, fmt) <- next fmt ;;
  if c =? 0 then Ok (chp, n, f)
  else
    match fuel with
    | O => Fault OutOfFuel
    | Datatypes.S fuel =>
        if negb (c =? ch "%") then
          chp <- stream_write chp [c] ;;
          chvprintf_loop use_float fuel chp fmt ap (wrap_s32 (n + 1)) tmpbuf f
        else
          '(out, fmt, ap, tmpbuf, f) <- run_directive use_float fmt ap tmpbuf f ;;
          chp <- stream_write chp out ;;
          chvprintf_loop use_float fuel chp fmt ap
            (wrap_s32 (n + Z.of_nat (length out))) tmpbuf f
    end.

Definition fresh (size : nat) : buffer := repeat None size.

(** [chvprintf(chp, fmt, ap)]; [f] is the function-static [double f] of the
    float build as the call finds it, the third component of the result is
    that variable as the call leaves it. *)
Definition chvprintf {S : Type} `{BaseSequentialStream S} (use_float : bool)
    (chp : S) (fmt : list Z) (ap : va_list) (f : float) : res (S * Z * float) :=
  chvprintf_loop use_float (length fmt) chp (At fmt) ap 0
    (fresh (tmpbuf_size use_float)) f.

(** [chprintf(chp, fmt, ...)]: the variadic wrapper; [ap] are the variable
    arguments of the call. *)
Definition chprintf {S : Type} `{BaseSequentialStream S} (use_float : bool)
    (chp : S) (fmt : list Z) (ap : va_list) (f : float) : res (S * Z * float) :=
  chvprintf use_float chp fmt ap f.

(** ** Bounded form *)

(** Modelled from the spec: the memory stream ([MemoryStream],
    [msObjectInit] and its [put]), which [chprintf.c] takes from
    [memstreams.h].  The bounded sink tracks the bytes written ([eos])
    against its capacity ([size]) and refuses a write past the capacity. *)
Record MemoryStream : Type := {
  ms_buffer : list Z;
  ms_size : Z;
  ms_eos : Z;
  ms_offset : Z
}.

(** Modelled from the spec: [msObjectInit] of [memstreams.c], the bounded
    sink over [buffer] with capacity [size] and [eos] bytes written. *)
Definition msObjectInit (buffer : list Z) (size eos : Z) : MemoryStream :=
  {| ms_buffer := buffer; ms_size := size; ms_eos := eos; ms_offset := 0 |}.

(** [str[i] = v] on the destination memory [str]. *)
Definition dest_store (str : list Z) (i : Z) (v : Z) : res (list Z) :=
  if (0 <=? i) && (i <? Z.of_nat (length str))
  then Ok (firstn (Z.to_nat i) str ++ v :: skipn (Datatypes.S (Z.to_nat i)) str)
  else Fault (DestOutOfBounds i).

(** Modelled from the spec: the [put] of the memory stream of
    [memstreams.c]; a byte is accepted while fewer than [size] bytes were
    written and refused afterwards. *)
#[global] Instance memory_stream : BaseSequentialStream MemoryStream := {
  streamPut ms b :=
    if ms_size ms - ms_eos ms <=? 0 then Ok ms
    else
      buf <- dest_store (ms_buffer ms) (ms_eos ms) b ;;
      Ok {| ms_buffer := buf; ms_size := ms_size ms;
            ms_eos := ms_eos ms + 1; ms_offset := ms_offset ms |}
}.

(** [chvsnprintf(str, size, fmt, ap)]: the destination memory as the call
    leaves it, the return value and the function-static [f].  The format
    and the string arguments are values here: they are taken not to overlap
    the destination. *)
Definition chvsnprintf (use_float : bool) (str : list Z) (size : Z) (fmt : list Z)
    (ap : va_list) (f : float) : res (list Z * Z * float) :=
  let size_wo_nul := if 0 <? size then size - 1 else 0 in
  let ms := msObjectInit str size_wo_nul 0 in
  '(ms, retval, f) <- chvprintf use_float ms fmt ap f ;;
  str <- (if ms_eos ms <? size
          then dest_store (ms_buffer ms) (ms_eos ms) 0
          else Ok (ms_buffer ms)) ;;
  Ok (str, retval, f).

(** [chsnprintf(str, size, fmt, ...)]: the variadic wrapper. *)
Definition chsnprintf (use_float : bool) (str : list Z) (size : Z) (fmt : list Z)
    (ap : va_list) (f : float) : res (list Z * Z * float) :=
  chvsnprintf use_float str size fmt ap f.

(** The text a renderer left in the working buffer, from its start to the
    returned [p]. *)
Definition rendered (r : res (buffer * nat)) : res (list Z) :=
  '(buf, p) <- r ;; load_range buf 0 p.

(** ** Notions used by the properties *)

(** What is left of the format behind the cursor. *)
Definition room (fmt : cursor) : nat :=
  match fmt with
  | At rest => length rest
  | Past => O
  end.

(** A conversion without the function-static [f]. *)
Definition forget_f (r : res converted) : res (Z * list Z * Z * va_list * buffer) :=
  x <- r ;; Ok (c_filler x, c_s x, c_len x, c_ap x, c_tmpbuf x).

(** What a caller observes of a call: the sink and the return value. *)
Definition observable {S : Type} (r : res (S * Z * float)) : res (S * Z) :=
  '(chp, n, _) <- r ;; Ok (chp, n).

(** The conversions that take an integer operand. *)
Definition is_integer_conv (c : Z) : bool :=
  existsb (Z.eqb c) (bytes "DdIiXxUuOo").

(** No store (and no load) outside the working buffer. *)
Definition inside_tmpbuf {A : Type} (r : res A) : Prop :=
  forall i, r <> Fault (TmpbufOutOfBounds i).








(** The character of the digit [d]: ['0'..'9'], then ['A'..'Z']. *)
Definition digit_char (d : Z) : Z :=
  if 9 <? d then d - 10 + ch "A" else d + ch "0".

(** The value a digit character stands for. *)
Definition digit_value (c : Z) : Z :=
  if c <=? ch "9" then c - ch "0" else c - ch "A" + 10.

(** The [k] low digits of [n] in [radix], most significant first. *)
Fixpoint digits_msb (radix : Z) (k : nat) (n : Z) : list Z :=
  match k with
  | O => []
  | S k' => digits_msb radix k' (n / radix) ++ [digit_char (n mod radix)]
  end.

(** Reading a digit string in [radix]. *)
Definition parse_digits (radix : Z) (text : list Z) : Z :=
  fold_left (fun acc c => acc * radix + digit_value c) text 0.


(** The conversions that render a signed decimal. *)
Definition is_signed_conv (c : Z) : bool :=
  (c =? ch "D") || (c =? ch "d") || (c =? ch "I") || (c =? ch "i").

(** The radix of an unsigned conversion. *)
Definition unsigned_radix (c : Z) : option Z :=
  if (c =? ch "X") || (c =? ch "x") then Some 16
  else if (c =? ch "U") || (c =? ch "u") then Some 10
  else if (c =? ch "O") || (c =? ch "o") then Some 8
  else None.

(** An integer operand, passed as the type the directive fetches. *)
Definition int_arg (long : bool) (v : Z) : va_value :=
  if long then VLong v else VInt v.

(** The bytes that have a meaning behind a ['%']: flags, width and
    precision, length modifiers and the known conversions. *)
Definition directive_chars (use_float : bool) : list Z :=
  bytes "-0123456789*.lLcsDdIiXxUuOo" ++ (if use_float then bytes "f" else []).

(** The length of a C string: the bytes before its first NUL. *)
Fixpoint strlen (s : list Z) : nat :=
  match s with
  | [] => O
  | c :: rest => if c =? 0 then O else S (strlen rest)
  end.

(** The two faults a caller can provoke: a format that ends inside a
    directive, and an argument that is missing or of another type. *)
Definition caller_fault (e : fault) : Prop := e = FmtOverrun \/ e = VaArgMismatch.

(** The plain notation of [k] digits shows a decimal point when the
    exponent is not negative and digits remain behind the point. *)
Definition has_point (E : Z) (k : nat) : bool := (0 <=? E) && (E <? Z.of_nat k - 1).

(** The fraction the scientific notation prints behind the point:
    [(long)((num - l) * pow10[precision - 2])], [l] being [(long)num]. *)
Definition frac_part (num : float) (precision : Z) : Z :=
  wrap_s32 (trunc (PrimFloat.mul (PrimFloat.sub num (to_double (trunc num)))
                                 (to_double (10 ^ (precision - 1))))).

(** Spec side: the text of the scientific notation with the digit [lead]
    before the point, [digits] fraction digits and [k] exponent digits. *)
Definition exp_text (lead frac : Z) (digits : nat) (E : Z) (k : nat) : list Z :=
  [ch "0" + lead; ch "."] ++ digits_msb 10 digits (wrap_u32 frac)
  ++ [ch "E"; if 0 <=? E then ch "+" else ch "-"] ++ digits_msb 10 k (Z.abs E).

(** An argument that holds [LONG_MIN]. *)
Definition is_long_min (a : va_value) : Prop :=
  match a with
  | VInt v | VLong v => wrap_s32 v = - 2 ^ 31
  | _ => False
  end.

(** What a directive may hold between the ['%'] and the character the
    length-modifier test looks at: a ['-'], digits (a leading ['0'] is the
    zero flag, ['*'] left aside) and a ['.'] followed by digits. *)
Definition directive_prefix (left : bool) (ws : list Z) (ps : option (list Z)) : list Z :=
  (if left then [ch "-"] else []) ++ ws ++
  match ps with Some ds => ch "." :: ds | None => [] end.






(** * Properties *)

(** ** The engine on the scenarios of the specification *)

Example scenario_width_5 :
  chvprintf false ([] : list Z) (bytes "Value: %5d") [VInt 42] 0
  = Ok (bytes "Value:    42", 12, 0%float).
Proof. vm_compute. reflexivity. Qed.

Example scenario_precision_3_string :
  chvprintf false ([] : list Z) (bytes "%.3s") [VStr (Some (bytes "hello"))] 0
  = Ok (bytes "hel", 3, 0%float).
Proof. vm_compute. reflexivity. Qed.

Example scenario_null_string :
  chvprintf false ([] : list Z) (bytes "%s") [VStr None] 0
  = Ok (bytes "(null)", 6, 0%float).
Proof. vm_compute. reflexivity. Qed.

Example scenario_star_before_value :
  chvprintf false ([] : list Z) (bytes "%*d|%-*d|") [VInt 4; VInt 7; VInt 3; VInt 8] 0
  = Ok (bytes "   7|8  |", 9, 0%float).
Proof. vm_compute. reflexivity. Qed.

Example scenario_unknown_conversion :
  chvprintf false ([] : list Z) (bytes "%y%%") [] 0 = Ok (bytes "y%", 2, 0%float).
Proof. vm_compute. reflexivity. Qed.

Example scenario_zero_in_every_radix :
  chvprintf false ([] : list Z) (bytes "%d %x %o %u") [VInt 0; VInt 0; VInt 0; VInt 0] 0
  = Ok (bytes "0 0 0 0", 7, 0%float).
Proof. vm_compute. reflexivity. Qed.

Example scenario_widest_values :
  chvprintf false ([] : list Z) (bytes "%d %lo %X")
    [VInt (- 2147483647); VLong (- 1); VLong 4294967295] 0
  = Ok (bytes "-2147483647 37777777777 FFFFFFFF", 32, 0%float).
Proof. vm_compute. reflexivity. Qed.

(** [LONG_MIN] has no negation: the signed conversions overflow on it. *)
Example scenario_long_min :
  chvprintf false ([] : list Z) (bytes "%d") [VInt (- 2147483648)] 0
  = Fault SignedOverflow.
Proof. vm_compute. reflexivity. Qed.

Example scenario_float_plain_and_exponent :
  chvprintf true ([] : list Z) (bytes "%.3f %.3f %f")
    [VDouble 2.5; VDouble 1234.5; VDouble 0] 0
  = Ok (bytes "2.50 1.23E+3 0.00000000", 23, 0%float).
Proof. vm_compute. reflexivity. Qed.

(** The largest finite double and the smallest positive one: the
    normalisation loops end well within [normalise_fuel]. *)
Example scenario_float_extremes :
  rendered (ftoa (fresh 23) 0 0x1.fffffffffffffp+1023 0) = Ok (bytes "1.79769313E+308")
  /\ rendered (ftoa (fresh 23) 0 0x1p-1074 0) = Ok (bytes "4.94065645E-324")
  /\ rendered (ftoa (fresh 23) 0 infinity 0) = Ok (bytes "INF")
  /\ rendered (ftoa (fresh 23) 0 nan 0) = Ok (bytes "NAN")
  /\ chvprintf true ([] : list Z) (bytes "%f") [VDouble neg_infinity] 0
     = Ok (bytes "-INF", 4, infinity).
Proof. repeat split; vm_compute; reflexivity. Qed.

Example scenario_bounded :
  chsnprintf false [255; 255; 255; 255] 4 (bytes "%d") [VInt 12345] 0
  = Ok (bytes "123" ++ [0], 5, 0%float).
Proof. vm_compute. reflexivity. Qed.

(** ** The error monad *)

Lemma bind_Ok {A B : Type} (m : res A) (k : A -> res B) (b : B) :
  bind m k = Ok b -> exists a, m = Ok a /\ k a = Ok b.
Proof. destruct m as [a|e]; simpl; intros E; [eauto | discriminate]. Qed.

Ltac bind_inv H :=
  let a := fresh "a" in
  let Ha := fresh "Ha" in
  apply bind_Ok in H; destruct H as (a & Ha & H).

(** ** Wrap-around *)

Lemma wrap_s32_idem_l (a b : Z) : wrap_s32 (wrap_s32 a + b) = wrap_s32 (a + b).
Proof.
  unfold wrap_s32. f_equal.
  replace ((a + 2 ^ 31) mod 2 ^ 32 - 2 ^ 31 + b + 2 ^ 31)
    with ((a + 2 ^ 31) mod 2 ^ 32 + b) by ring.
  rewrite Zplus_mod_idemp_l. f_equal. ring.
Qed.

Lemma wrap_s32_le (x : Z) : 0 <= x -> wrap_s32 x <= x.
Proof.
  intros Hx. unfold wrap_s32.
  assert (H : (x + 2 ^ 31) mod 2 ^ 32 <= x + 2 ^ 31) by (apply Z.mod_le; lia).
  lia.
Qed.

Lemma wrap_s32_small (x : Z) : - 2 ^ 31 <= x < 2 ^ 31 -> wrap_s32 x = x.
Proof. intros Hx. unfold wrap_s32. rewrite Z.mod_small; lia. Qed.

Lemma wrap_s32_range (x : Z) : - 2 ^ 31 <= wrap_s32 x < 2 ^ 31.
Proof.
  unfold wrap_s32.
  assert (H : 0 <= (x + 2 ^ 31) mod 2 ^ 32 < 2 ^ 32) by (apply Z.mod_pos_bound; lia).
  lia.
Qed.

Lemma to_char_idem (z : Z) : to_char (to_char z) = to_char z.
Proof. unfold to_char. apply Z.mod_mod. lia. Qed.

(** ** Stores into the working buffer *)

Lemma length_upd (buf : buffer) (i : nat) (v : Z) : length (upd buf i v) = length buf.
Proof.
  revert i. induction buf as [|x buf IH]; intros [|i]; simpl; auto.
Qed.

Lemma nth_error_upd_same (buf : buffer) (i : nat) (v : Z) :
  (i < length buf)%nat -> nth_error (upd buf i v) i = Some (Some v).
Proof.
  revert i. induction buf as [|x buf IH]; intros [|i] Hi; simpl in *; try lia; auto.
  apply IH. lia.
Qed.

Lemma nth_error_upd_other (buf : buffer) (i j : nat) (v : Z) :
  i <> j -> nth_error (upd buf i v) j = nth_error buf j.
Proof.
  revert i j. induction buf as [|x buf IH]; intros [|i] [|j] Hij; simpl; auto; try lia.
Qed.

Lemma store_Ok (buf buf' : buffer) (i : nat) (v : Z) :
  store buf i v = Ok buf' ->
  (i < length buf)%nat /\ buf' = upd buf i (to_char v).
Proof.
  unfold store. destruct (i <? length buf)%nat eqn:E; [|discriminate].
  apply Nat.ltb_lt in E. intros H. inversion H. auto.
Qed.

Lemma store_in_bounds (buf : buffer) (i : nat) (v : Z) :
  (i < length buf)%nat -> store buf i v = Ok (upd buf i (to_char v)).
Proof. intros Hi. unfold store. apply Nat.ltb_lt in Hi. now rewrite Hi. Qed.

Lemma load_store_same (buf buf' : buffer) (i : nat) (v : Z) :
  store buf i v = Ok buf' -> load buf' i = Ok (to_char v).
Proof.
  intros E. apply store_Ok in E. destruct E as [Hi ->].
  unfold load. now rewrite nth_error_upd_same.
Qed.

Lemma load_store_other (buf buf' : buffer) (i j : nat) (v : Z) :
  store buf i v = Ok buf' -> i <> j -> load buf' j = load buf j.
Proof.
  intros E Hij. apply store_Ok in E. destruct E as [Hi ->].
  unfold load. now rewrite nth_error_upd_other.
Qed.

(** ** Sinks: the engine hands the same bytes to every sink *)

Section Sinks.

Context {S : Type} `{BaseSequentialStream S}.

Lemma put_all_app (chp : S) (a b : list Z) :
  put_all chp (a ++ b) = (chp' <- put_all chp a ;; put_all chp' b).
Proof.
  revert chp. induction a as [|x a IH]; intros chp; simpl; [reflexivity|].
  destruct (streamPut chp x) as [chp'|e]; simpl; [apply IH | reflexivity].
Qed.

End Sinks.

Lemma put_all_log (log bs : list Z) : put_all log bs = Ok (log ++ bs).
Proof.
  revert log. induction bs as [|b bs IH]; intros log; simpl.
  - now rewrite app_nil_r.
  - rewrite IH, <- app_assoc. reflexivity.
Qed.

(** The unfolding of one round of the loop. *)
Lemma chvprintf_loop_eq {S : Type} `{BaseSequentialStream S} uf fuel (chp : S) fmt ap n tb f :
  chvprintf_loop uf fuel chp fmt ap n tb f =
  ('(c, fmt) <- next fmt ;;
   if c =? 0 then Ok (chp, n, f)
   else
     match fuel with
     | O => Fault OutOfFuel
     | Datatypes.S fuel =>
         if negb (c =? ch "%") then
           chp <- stream_write chp [c] ;;
           chvprintf_loop uf fuel chp fmt ap (wrap_s32 (n + 1)) tb f
         else
           '(out, fmt, ap, tb, f) <- run_directive uf fmt ap tb f ;;
           chp <- stream_write chp out ;;
           chvprintf_loop uf fuel chp fmt ap
             (wrap_s32 (n + Z.of_nat (length out))) tb f
     end).
Proof. destruct fuel; reflexivity. Qed.

(** A run on the recording sink determines the run on any other sink: the
    other sink is handed the recorded bytes, in order, and the return value
    is the number of recorded bytes (modulo 2^32). *)
Lemma chvprintf_loop_log uf fuel :
  forall (log : list Z) fmt ap n tb f out L f',
    - 2 ^ 31 <= n < 2 ^ 31 ->
    chvprintf_loop uf fuel log fmt ap n tb f = Ok (out, L, f') ->
    exists out',
      out = log ++ out' /\
      L = wrap_s32 (n + Z.of_nat (length out')) /\
      forall (S : Type) (H : BaseSequentialStream S) (chp : S),
        chvprintf_loop uf fuel chp fmt ap n tb f =
        (chp' <- put_all chp out' ;; Ok (chp', L, f')).
Proof.
  induction fuel as [|fuel IH]; intros log fmt ap n tb f out L f' Hn E;
    rewrite chvprintf_loop_eq in E;
    destruct (next fmt) as [[c fmt1]|e] eqn:En; simpl in E; try discriminate;
    destruct (c =? 0) eqn:Ec; try discriminate.
  1, 2: inversion E; subst; exists []; rewrite app_nil_r, Z.add_0_r;
    split; [reflexivity|]; split; [now rewrite wrap_s32_small|];
    intros; rewrite chvprintf_loop_eq, En; simpl; rewrite Ec; reflexivity.
  destruct (negb (c =? ch "%")) eqn:Ep.
  - apply IH in E; [|apply wrap_s32_range].
    destruct E as (out' & -> & -> & Hs).
    exists (to_char c :: out'). rewrite <- app_assoc. split; [reflexivity|]. split.
    + rewrite wrap_s32_idem_l. f_equal. simpl length. lia.
    + intros S H chp. rewrite chvprintf_loop_eq, En. simpl. rewrite Ec, Ep.
      unfold stream_write. simpl.
      destruct (streamPut chp (to_char c)) as [chp'|e]; simpl; [apply Hs | reflexivity].
  - destruct (run_directive uf fmt1 ap tb f) as [[[[[bs fmt2] ap2] tb2] f2]|e] eqn:Ed;
      simpl in E; [|discriminate].
    unfold stream_write in E. rewrite put_all_log in E. simpl in E.
    apply IH in E; [|apply wrap_s32_range].
    destruct E as (out' & -> & -> & Hs).
    exists (map to_char bs ++ out'). rewrite <- app_assoc. split; [reflexivity|]. split.
    + rewrite wrap_s32_idem_l. f_equal. rewrite length_app, length_map. lia.
    + intros S H chp. rewrite chvprintf_loop_eq, En. simpl. rewrite Ec, Ep, Ed. simpl.
      unfold stream_write. rewrite put_all_app.
      destruct (put_all chp (map to_char bs)) as [chp'|e]; simpl; [apply Hs | reflexivity].
Qed.

Lemma chvprintf_log uf fmt ap f out L f' :
  chvprintf uf ([] : list Z) fmt ap f = Ok (out, L, f') ->
  L = wrap_s32 (Z.of_nat (length out)) /\
  forall (S : Type) (H : BaseSequentialStream S) (chp : S),
    chvprintf uf chp fmt ap f = (chp' <- put_all chp out ;; Ok (chp', L, f')).
Proof.
  unfold chvprintf. intros E.
  apply chvprintf_loop_log in E; [|lia].
  destruct E as (out' & -> & -> & Hs). simpl. split; [reflexivity | exact Hs].
Qed.

(** ** The bounded sink *)

Lemma dest_store_app (pre post : list Z) (x v : Z) :
  dest_store (pre ++ x :: post) (Z.of_nat (length pre)) v = Ok (pre ++ v :: post).
Proof.
  unfold dest_store.
  replace ((0 <=? Z.of_nat (length pre)) &&
           (Z.of_nat (length pre) <? Z.of_nat (length (pre ++ x :: post))))
    with true
    by (symmetry; apply andb_true_iff; split;
        [apply Z.leb_le | apply Z.ltb_lt; rewrite length_app; simpl length]; lia).
  rewrite Nat2Z.id. f_equal.
  rewrite firstn_app, firstn_all, Nat.sub_diag. cbn [firstn]. rewrite app_nil_r.
  f_equal. f_equal.
  rewrite skipn_app, skipn_all2 by lia.
  replace (Datatypes.S (length pre) - length pre)%nat with 1%nat by lia.
  reflexivity.
Qed.

Lemma skipn_cons_tl {A : Type} (k : nat) (l : list A) :
  (k < length l)%nat -> exists x, skipn k l = x :: skipn (Datatypes.S k) l.
Proof.
  revert l. induction k as [|k IH]; intros [|a l] Hk; simpl in Hk; try lia.
  - exists a. reflexivity.
  - destruct (IH l ltac:(lia)) as [x Hx]. exists x. exact Hx.
Qed.

(** Writing [bs] to a memory stream whose first [length pre] bytes are
    taken: the bytes that fit are stored behind [pre], the others are
    refused, and nothing else of the destination changes. *)
Lemma put_all_memory (bs : list Z) :
  forall (pre post : list Z) (cap off : Z),
    Z.of_nat (length pre) <= cap <= Z.of_nat (length (pre ++ post)) ->
    let k := Nat.min (length bs) (Z.to_nat (cap - Z.of_nat (length pre))) in
    put_all {| ms_buffer := pre ++ post; ms_size := cap;
               ms_eos := Z.of_nat (length pre); ms_offset := off |} bs
    = Ok {| ms_buffer := pre ++ firstn k bs ++ skipn k post; ms_size := cap;
            ms_eos := Z.of_nat (length pre) + Z.of_nat k; ms_offset := off |}.
Proof.
  induction bs as [|b bs IH]; intros pre post cap off Hcap k.
  - subst k. simpl. now rewrite Z.add_0_r.
  - cbn [put_all streamPut memory_stream ms_size ms_eos ms_buffer ms_offset].
    destruct (cap - Z.of_nat (length pre) <=? 0) eqn:Efull.
    + apply Z.leb_le in Efull. cbn [bind].
      rewrite (IH pre post cap off Hcap).
      subst k. replace (Z.to_nat (cap - Z.of_nat (length pre))) with O by lia.
      now rewrite !Nat.min_0_r.
    + apply Z.leb_gt in Efull.
      rewrite length_app in Hcap.
      destruct post as [|x post]; [simpl in Hcap; lia|].
      rewrite dest_store_app. cbn [bind].
      replace (pre ++ b :: post) with ((pre ++ [b]) ++ post)
        by (rewrite <- app_assoc; reflexivity).
      replace (Z.of_nat (length pre) + 1) with (Z.of_nat (length (pre ++ [b])))
        by (rewrite length_app; simpl length; lia).
      rewrite IH by (rewrite !length_app in *; simpl length in *; lia).
      subst k. rewrite length_app. simpl length.
      replace (Z.to_nat (cap - Z.of_nat (length pre)))
        with (Datatypes.S (Z.to_nat (cap - Z.of_nat (length pre + 1)))) by lia.
      cbn [Nat.min firstn skipn].
      rewrite <- app_assoc. cbn [app]. f_equal. f_equal. lia.
Qed.

(** [C1] The bounded form on a destination of capacity [N >= 1], when the
    logical length [L] of the output is at least [N]: the destination
    receives exactly the first [N - 1] bytes of the output and a NUL right
    behind them, nothing else of it changes, and the call returns [L]. *)
Theorem chvsnprintf_truncates uf (str : list Z) (N : Z) fmt ap f out L f' :
  chvprintf uf ([] : list Z) fmt ap f = Ok (out, L, f') ->
  1 <= N -> N <= Z.of_nat (length str) -> N <= L ->
  chvsnprintf uf str N fmt ap f
    = Ok (firstn (Z.to_nat (N - 1)) out ++ 0 :: skipn (Z.to_nat N) str, L, f')
  /\ length (firstn (Z.to_nat (N - 1)) out) = Z.to_nat (N - 1).
Proof.
  intros E HN Hstr HL.
  destruct (chvprintf_log _ _ _ _ _ _ _ E) as [HLen Hs].
  assert (Hout : N <= Z.of_nat (length out)).
  { pose proof (wrap_s32_le (Z.of_nat (length out)) ltac:(lia)). lia. }
  assert (Hf : length (firstn (Z.to_nat (N - 1)) out) = Z.to_nat (N - 1))
    by (apply firstn_length_le; lia).
  split; [|exact Hf].
  unfold chvsnprintf. rewrite Hs.
  replace (0 <? N) with true by (symmetry; apply Z.ltb_lt; lia).
  unfold msObjectInit.
  pose proof (put_all_memory out [] str (N - 1) 0) as Hm.
  cbn [app length] in Hm. change (Z.of_nat 0) with 0 in Hm.
  rewrite Hm by lia. clear Hm.
  rewrite Z.sub_0_r, Z.add_0_l.
  replace (Nat.min (length out) (Z.to_nat (N - 1))) with (Z.to_nat (N - 1)) by lia.
  cbn [bind ms_eos ms_buffer].
  replace (Z.of_nat (Z.to_nat (N - 1)) <? N) with true by (symmetry; apply Z.ltb_lt; lia).
  destruct (skipn_cons_tl (Z.to_nat (N - 1)) str ltac:(lia)) as [x Hx].
  rewrite Hx.
  replace (Z.of_nat (Z.to_nat (N - 1)))
    with (Z.of_nat (length (firstn (Z.to_nat (N - 1)) out)))
    by (rewrite Hf; reflexivity).
  rewrite dest_store_app. cbn [bind].
  replace (Datatypes.S (Z.to_nat (N - 1))) with (Z.to_nat N) by lia.
  reflexivity.
Qed.

(** The scenario of the specification: [%d] of 12345 into four bytes. *)
Lemma chvsnprintf_truncates_witness :
  chvsnprintf false [255; 255; 255; 255] 4 (bytes "%d") [VInt 12345] 0
    = Ok (bytes "123" ++ [0], 5, 0%float)
  /\ length (bytes "123") = 3%nat.
Proof.
  apply (chvsnprintf_truncates false [255; 255; 255; 255] 4 (bytes "%d") [VInt 12345]
           0%float (bytes "12345") 5 0%float).
  - vm_compute. reflexivity.
  - lia.
  - simpl. lia.
  - lia.
Defined.

(** The other half of the contract: an output shorter than the capacity
    is stored whole, with its terminator. *)
Lemma chvsnprintf_fits uf (str : list Z) (N : Z) fmt ap f out L f' :
  chvprintf uf ([] : list Z) fmt ap f = Ok (out, L, f') ->
  Z.of_nat (length out) < N -> N <= Z.of_nat (length str) ->
  chvsnprintf uf str N fmt ap f
    = Ok (out ++ 0 :: skipn (Datatypes.S (length out)) str, L, f').
Proof.
  intros E Hout Hstr.
  destruct (chvprintf_log _ _ _ _ _ _ _ E) as [_ Hs].
  unfold chvsnprintf. rewrite Hs.
  replace (0 <? N) with true by (symmetry; apply Z.ltb_lt; lia).
  unfold msObjectInit.
  pose proof (put_all_memory out [] str (N - 1) 0) as Hm.
  cbn [app length] in Hm. change (Z.of_nat 0) with 0 in Hm.
  rewrite Hm by lia. clear Hm.
  rewrite Z.sub_0_r, Z.add_0_l.
  replace (Nat.min (length out) (Z.to_nat (N - 1))) with (length out) by lia.
  rewrite firstn_all. cbn [bind ms_eos ms_buffer].
  replace (Z.of_nat (length out) <? N) with true by (symmetry; apply Z.ltb_lt; lia).
  destruct (skipn_cons_tl (length out) str ltac:(lia)) as [x Hx].
  rewrite Hx, dest_store_app. reflexivity.
Qed.

(** [C6] The bounded form with capacity 0: the destination is left as it is,
    whatever it is (no byte and no terminator is stored, not even into an
    empty destination), and the call returns the logical length. *)
Theorem chvsnprintf_capacity_0 uf (str : list Z) fmt ap f out L f' :
  chvprintf uf ([] : list Z) fmt ap f = Ok (out, L, f') ->
  chvsnprintf uf str 0 fmt ap f = Ok (str, L, f').
Proof.
  intros E.
  destruct (chvprintf_log _ _ _ _ _ _ _ E) as [_ Hs].
  unfold chvsnprintf. rewrite Hs. cbn [Z.ltb Z.compare]. unfold msObjectInit.
  pose proof (put_all_memory out [] str 0 0) as Hm.
  cbn [app length] in Hm. change (Z.of_nat 0) with 0 in Hm.
  rewrite Hm by lia. clear Hm.
  cbn [Z.sub Z.opp Z.add Z.of_nat Z.to_nat]. rewrite Nat.min_0_r.
  reflexivity.
Qed.

Lemma chvsnprintf_capacity_0_witness :
  chvsnprintf false [] 0 (bytes "%d") [VInt 12345] 0 = Ok ([], 5, 0%float).
Proof.
  apply (chvsnprintf_capacity_0 false [] (bytes "%d") [VInt 12345] 0%float
           (bytes "12345") 5 0%float).
  vm_compute. reflexivity.
Defined.

(** ** The loop needs no more fuel than the format is long *)

Lemma room_advance (fmt : cursor) : (room (advance fmt) <= room fmt)%nat.
Proof. destruct fmt as [[|c r]|]; simpl; lia. Qed.

Lemma room_next (fmt fmt' : cursor) (c : Z) :
  next fmt = Ok (c, fmt') -> (room fmt' <= room fmt)%nat.
Proof.
  unfold next. intros E. bind_inv E. inversion E; subst. apply room_advance.
Qed.

Lemma room_next_nonzero (fmt fmt' : cursor) (c : Z) :
  next fmt = Ok (c, fmt') -> (c =? 0) = false -> room fmt = Datatypes.S (room fmt').
Proof.
  destruct fmt as [[|x r]|]; cbn; intros E Hc; inversion E; subst;
    [discriminate | reflexivity].
Qed.

Lemma room_number_loop (rest : list Z) :
  forall ap acc c fmt' ap' w,
    number_loop rest ap acc = Ok (c, fmt', ap', w) -> (room fmt' <= length rest)%nat.
Proof.
  induction rest as [|x rest IH]; intros ap acc c fmt' ap' w E; cbn [number_loop] in E.
  - inversion E; subst. simpl. lia.
  - destruct ((ch "0" <=? x) && (x <=? ch "9")).
    + apply IH in E. simpl. lia.
    + destruct (x =? ch "*").
      * bind_inv E. destruct a as [v ap1]. apply IH in E. simpl. lia.
      * inversion E; subst. simpl. lia.
Qed.

Lemma room_parse_number fmt ap c fmt' ap' w :
  parse_number fmt ap = Ok (c, fmt', ap', w) -> (room fmt' <= room fmt)%nat.
Proof.
  destruct fmt as [rest|]; cbn [parse_number]; [apply room_number_loop | discriminate].
Qed.

Lemma room_parse_directive fmt ap d fmt' ap' :
  parse_directive fmt ap = Ok (d, fmt', ap') -> (room fmt' <= room fmt)%nat.
Proof.
  unfold parse_directive. intros E.
  bind_inv E. destruct a as [[la fi] fmt1].
  bind_inv E. destruct a as [[[c fmt2] ap2] w].
  bind_inv E. destruct a as [[[c3 fmt3] ap3] pr].
  bind_inv E. destruct a as [[il c4] fmt4]. inversion E; subst; clear E.
  assert (H1 : (room fmt1 <= room fmt)%nat).
  { unfold parse_flags in Ha. bind_inv Ha.
    destruct (a =? ch "-"); bind_inv Ha; destruct (a0 =? ch "0");
      inversion Ha; subst;
      repeat (etransitivity; [apply room_advance|]); lia. }
  apply room_parse_number in Ha0.
  assert (H3 : (room fmt3 <= room fmt2)%nat).
  { destruct (c =? ch "."); [now apply room_parse_number in Ha1|].
    inversion Ha1; subst; lia. }
  assert (H4 : (room fmt' <= room fmt3)%nat).
  { unfold long_modifier in Ha2.
    destruct ((c3 =? ch "l") || (c3 =? ch "L")); [|inversion Ha2; subst; lia].
    bind_inv Ha2. destruct (negb (a =? 0)); [|inversion Ha2; subst; lia].
    bind_inv Ha2. destruct a0 as [c5 fmt5]. inversion Ha2; subst.
    match goal with Hn : next _ = Ok _ |- _ => now apply room_next in Hn end. }
  lia.
Qed.

Lemma room_run_directive uf fmt ap tb f out fmt' ap' tb' f' :
  run_directive uf fmt ap tb f = Ok (out, fmt', ap', tb', f') ->
  (room fmt' <= room fmt)%nat.
Proof.
  unfold run_directive. intros E.
  bind_inv E. destruct a as [[d fmt1] ap1]. bind_inv E. inversion E; subst.
  now apply room_parse_directive in Ha.
Qed.

(** Any fuel that covers the rest of the format gives the same result: the
    [OutOfFuel] branch of the loop is never taken from [chvprintf]. *)
Lemma chvprintf_loop_fuel {S : Type} `{BaseSequentialStream S} uf (fuel1 : nat) :
  forall (fuel2 : nat) (chp : S) fmt ap n tb f,
    (room fmt <= fuel1)%nat -> (room fmt <= fuel2)%nat ->
    chvprintf_loop uf fuel1 chp fmt ap n tb f = chvprintf_loop uf fuel2 chp fmt ap n tb f.
Proof.
  induction fuel1 as [|fuel1 IH]; intros fuel2 chp fmt ap n tb f H1 H2;
    rewrite (chvprintf_loop_eq uf fuel2), chvprintf_loop_eq;
    destruct (next fmt) as [[c fmt1]|e] eqn:En; cbn [bind]; try reflexivity;
    destruct (c =? 0) eqn:Ec; try reflexivity;
    pose proof (room_next_nonzero _ _ _ En Ec) as Hr; [lia|].
  destruct fuel2 as [|fuel2]; [lia|].
  destruct (negb (c =? ch "%")).
  - destruct (stream_write chp [c]) as [chp'|e]; cbn [bind]; [|reflexivity].
    apply IH; lia.
  - destruct (run_directive uf fmt1 ap tb f) as [[[[[out fmt2] ap2] tb2] f2]|e] eqn:Ed;
      cbn [bind]; [|reflexivity].
    apply room_run_directive in Ed.
    destruct (stream_write chp out) as [chp'|e]; cbn [bind]; [|reflexivity].
    apply IH; lia.
Qed.

Lemma chvprintf_fuel {S : Type} `{BaseSequentialStream S} uf (fuel : nat)
    (chp : S) fmt ap f :
  (length fmt <= fuel)%nat ->
  chvprintf uf chp fmt ap f
  = chvprintf_loop uf fuel chp (At fmt) ap 0 (fresh (tmpbuf_size uf)) f.
Proof. intros Hf. unfold chvprintf. apply chvprintf_loop_fuel; simpl; lia. Qed.

(** ** The function-static [f] *)

Lemma in_tmpbuf_forget_f filler ap f1 f2 r :
  forget_f (in_tmpbuf filler ap f1 r) = forget_f (in_tmpbuf filler ap f2 r).
Proof.
  unfold in_tmpbuf. destruct r as [[buf p]|e]; cbn [bind]; [|reflexivity].
  destruct (load_range buf 0 p); reflexivity.
Qed.

(** No conversion reads the static [f] before storing into it. *)
Lemma convert_forget_f uf d ap tb f1 f2 :
  forget_f (convert uf d ap tb f1) = forget_f (convert uf d ap tb f2).
Proof.
  unfold convert, unsigned_common.
  repeat match goal with
  | |- context [if ?b then _ else _] => destruct b
  | |- forget_f (bind ?m _) = _ => destruct m as [[? ?]|?]; cbn [bind]
  | |- forget_f (in_tmpbuf _ _ _ _) = _ => apply in_tmpbuf_forget_f
  | |- _ => reflexivity
  end.
Qed.

Lemma run_directive_static uf fmt ap tb f1 f2 :
  match run_directive uf fmt ap tb f1, run_directive uf fmt ap tb f2 with
  | Ok (out1, fmt1, ap1, tb1, _), Ok (out2, fmt2, ap2, tb2, _) =>
      out1 = out2 /\ fmt1 = fmt2 /\ ap1 = ap2 /\ tb1 = tb2
  | Fault e1, Fault e2 => e1 = e2
  | _, _ => False
  end.
Proof.
  unfold run_directive.
  destruct (parse_directive fmt ap) as [[[d fmt1] ap1]|e]; cbn [bind]; [|reflexivity].
  pose proof (convert_forget_f uf d ap1 tb f1 f2) as Hc.
  destruct (convert uf d ap1 tb f1) as [r1|e1], (convert uf d ap1 tb f2) as [r2|e2];
    cbn in Hc |- *; try discriminate; inversion Hc; subst; auto.
Qed.

Lemma chvprintf_loop_static {S : Type} `{BaseSequentialStream S} uf (fuel : nat) :
  forall (chp : S) fmt ap n tb f1 f2,
    observable (chvprintf_loop uf fuel chp fmt ap n tb f1)
    = observable (chvprintf_loop uf fuel chp fmt ap n tb f2).
Proof.
  induction fuel as [|fuel IH]; intros chp fmt ap n tb f1 f2;
    rewrite !chvprintf_loop_eq;
    destruct (next fmt) as [[c fmt1]|e]; cbn [bind]; try reflexivity;
    destruct (c =? 0); try reflexivity.
  destruct (negb (c =? ch "%")).
  - destruct (stream_write chp [c]); cbn [bind]; [apply IH | reflexivity].
  - pose proof (run_directive_static uf fmt1 ap tb f1 f2) as Hd.
    destruct (run_directive uf fmt1 ap tb f1) as [[[[[o1 m1] a1] t1] g1]|e1],
             (run_directive uf fmt1 ap tb f2) as [[[[[o2 m2] a2] t2] g2]|e2];
      cbn [bind]; try contradiction.
    + destruct Hd as (-> & -> & -> & ->).
      destruct (stream_write chp o2); cbn [bind]; [apply IH | reflexivity].
    + now subst.
Qed.

(** [C9] (as amended) Apart from the function-static [f] of the float
    build, a call works on its own working buffer and cursor only, and [f]
    is stored into before it is read: the bytes handed to the sink and the
    return value (or the fault) of a call do not depend on the value earlier
    calls left in [f]. *)
Theorem chvprintf_static_irrelevant {S : Type} `{BaseSequentialStream S}
    uf (chp : S) fmt ap f1 f2 :
  observable (chvprintf uf chp fmt ap f1) = observable (chvprintf uf chp fmt ap f2).
Proof. unfold chvprintf. apply chvprintf_loop_static. Qed.

(** [C9] as stated fails in the float build: a call with a [%f] directive
    leaves the static [f] changed for the calls that follow. *)
Lemma chvprintf_static_written :
  exists out n f',
    chvprintf true ([] : list Z) (bytes "%f") [VDouble 1.5] 0
      = Ok (out, n, f') /\
    out = bytes "1.50000000" /\ PrimFloat.eqb f' 0 = false.
Proof. do 3 eexists. split; [vm_compute; reflexivity|]. split; reflexivity. Qed.

(** ** Padding *)

Lemma field_bytes_left_align (s : list Z) (i width filler : Z) :
  field_bytes s i width true filler
  = firstn (Z.to_nat i) s ++ repeat filler (Z.to_nat (wrap_s32 (width - i))).
Proof.
  unfold field_bytes. cbn [negb].
  destruct (wrap_s32 (width - i) <? 0) eqn:E.
  - apply Z.ltb_lt in E. cbn. replace (Z.to_nat (wrap_s32 (width - i))) with O by lia.
    reflexivity.
  - rewrite E. reflexivity.
Qed.

Lemma field_bytes_zero_sign (s rest : list Z) (i width : Z) :
  firstn (Z.to_nat i) s = ch "-" :: rest ->
  field_bytes s i width false (ch "0")
  = ch "-" :: repeat (ch "0") (Z.to_nat (wrap_s32 (width - i))) ++ rest.
Proof.
  intros Hs.
  assert (Hi : (0 < Z.to_nat i)%nat) by (destruct (Z.to_nat i); [discriminate | lia]).
  destruct s as [|c s]; [now rewrite firstn_nil in Hs|].
  replace (Z.to_nat i) with (Datatypes.S (Z.to_nat (i - 1))) in Hs by lia.
  cbn [firstn] in Hs. inversion Hs; subst c; clear Hs.
  unfold field_bytes. cbn [negb].
  destruct (wrap_s32 (width - i) <? 0) eqn:E.
  - apply Z.ltb_lt in E. cbn [Z.opp Z.ltb Z.compare].
    replace (Z.to_nat (wrap_s32 (width - i))) with O by lia.
    cbn [repeat app Z.to_nat]. rewrite app_nil_r.
    replace (Z.to_nat i) with (Datatypes.S (Z.to_nat (i - 1))) by lia.
    reflexivity.
  - apply Z.ltb_ge in E.
    destruct (- wrap_s32 (width - i) <? 0) eqn:E2.
    + cbn [hd tl]. rewrite !Z.eqb_refl. cbn [andb app].
      rewrite Z.opp_involutive. change (Z.to_nat 0) with O. cbn [repeat].
      rewrite app_nil_r. reflexivity.
    + apply Z.ltb_ge in E2. replace (wrap_s32 (width - i)) with 0 by lia.
      cbn [Z.opp Z.to_nat repeat app]. rewrite app_nil_r.
      replace (Z.to_nat i) with (Datatypes.S (Z.to_nat (i - 1))) by lia.
      reflexivity.
Qed.

Lemma in_tmpbuf_filler fi ap f r x :
  in_tmpbuf fi ap f r = Ok x -> c_filler x = fi.
Proof.
  unfold in_tmpbuf. intros E. bind_inv E. destruct a as [buf p].
  bind_inv E. inversion E; subst. reflexivity.
Qed.

(** Only the [c] and [s] conversions override the filler. *)
Lemma convert_filler uf d ap tb f r :
  conv d <> ch "c" -> conv d <> ch "s" ->
  convert uf d ap tb f = Ok r -> c_filler r = filler d.
Proof.
  intros Hc Hs. unfold convert, unsigned_common.
  apply Z.eqb_neq in Hc, Hs. rewrite Hc, Hs.
  repeat match goal with
  | |- context [if ?b then _ else _] => destruct b
  end; intros E;
  repeat match goal with
  | H : bind _ _ = Ok _ |- _ => bind_inv H
  | a : (_ * _)%type |- _ => destruct a
  | H : in_tmpbuf _ _ _ _ = Ok _ |- _ => apply in_tmpbuf_filler in H
  end; assumption.
Qed.

(** [C7] (as amended) A right-aligned directive with the zero flag and a
    conversion other than [c] and [s], whose rendered text begins with
    ['-']: the field is the ['-'], then the zero padding ([width] minus the
    length of the text, none when that is not positive), then the rest of
    the text.  [%04d] of -7 gives [-007]; [%08X] of the long 255 gives
    [000000FF]. *)
Theorem zero_fill_keeps_sign_first :
  (forall uf fmt ap tb f d fmt' ap' r rest,
      parse_directive fmt ap = Ok (d, fmt', ap') ->
      left_align d = false -> filler d = ch "0" ->
      conv d <> ch "c" -> conv d <> ch "s" ->
      convert uf d ap' tb f = Ok r ->
      firstn (Z.to_nat (c_len r)) (c_s r) = ch "-" :: rest ->
      run_directive uf fmt ap tb f
      = Ok (ch "-" :: repeat (ch "0") (Z.to_nat (wrap_s32 (width d - c_len r))) ++ rest,
            fmt', c_ap r, c_tmpbuf r, c_f r))
  /\ (forall uf f,
         chvprintf uf ([] : list Z) (bytes "%04d") [VInt (-7)] f = Ok (bytes "-007", 4, f))
  /\ (forall uf f,
         chvprintf uf ([] : list Z) (bytes "%08X") [VLong 255] f
         = Ok (bytes "000000FF", 8, f)).
Proof.
  split; [|split].
  - intros uf fmt ap tb f d fmt' ap' r rest Hp Hl Hz Hc Hs Hr Ht.
    unfold run_directive. rewrite Hp. cbn [bind]. rewrite Hr. cbn [bind].
    rewrite (convert_filler _ _ _ _ _ _ Hc Hs Hr), Hl, Hz.
    now rewrite (field_bytes_zero_sign _ _ _ _ Ht).
  - intros [] f; vm_compute; reflexivity.
  - intros [] f; vm_compute; reflexivity.
Qed.

Lemma zero_fill_keeps_sign_first_witness :
  run_directive false (At (bytes "04d")) [VInt (-7)] (fresh 12) 0
  = Ok (bytes "-007", At [], [], 
        upd (upd (upd (fresh 12) 0 (ch "-")) 11 (ch "7")) 1 (ch "7"), 0%float).
Proof.
  pose proof (proj1 zero_fill_keeps_sign_first false (At (bytes "04d")) [VInt (-7)]
                (fresh 12) 0%float
                {| left_align := false; filler := ch "0"; width := 4; precision := 0;
                   is_long := false; conv := ch "d" |}
                (At []) [VInt (-7)]
                {| c_filler := ch "0"; c_s := bytes "-7"; c_len := 2; c_ap := [];
                   c_tmpbuf := upd (upd (upd (fresh 12) 0 (ch "-")) 11 (ch "7")) 1 (ch "7");
                   c_f := 0%float |}
                [ch "7"]) as H.
  apply H; try reflexivity; vm_compute; congruence.
Defined.

(** [C7] as stated fails for the [s] (and [c]) conversion, which resets the
    filler to a space: [%05s] of ["-ab"] is padded with spaces in front of
    the ['-']. *)
Lemma zero_flag_string_spaces :
  exists out n f,
    chvprintf false ([] : list Z) (bytes "%05s") [VStr (Some (bytes "-ab"))] 0
      = Ok (out, n, f) /\
    out = bytes "  -ab" /\ out <> bytes "-00ab".
Proof.
  do 3 eexists. split; [vm_compute; reflexivity|]. split; [reflexivity|].
  vm_compute. discriminate.
Qed.

(** The [c] and [s] conversions set the filler to a space. *)
Lemma convert_filler_space uf d ap tb f r :
  conv d = ch "c" \/ conv d = ch "s" ->
  convert uf d ap tb f = Ok r -> c_filler r = ch " ".
Proof.
  intros Hcs. unfold convert.
  destruct (conv d =? ch "c") eqn:Ec.
  - intros E. bind_inv E. destruct a as [v ap1]. now apply in_tmpbuf_filler in E.
  - destruct Hcs as [Hcs|Hcs]; [apply Z.eqb_neq in Ec; contradiction|].
    rewrite Hcs. change (ch "s" =? ch "s") with true. cbn iota.
    intros E. bind_inv E. destruct a as [s0 ap1]. inversion E. reflexivity.
Qed.

(** The flags of a directive that starts with ['-']. *)
Lemma parse_flags_left (zero : bool) (rest : list Z) :
  (zero = false -> hd 0 rest <> ch "0") ->
  parse_flags (At (ch "-" :: (if zero then [ch "0"] else []) ++ rest))
  = Ok (true, if zero then ch "0" else ch " ", At rest).
Proof.
  intros Hz. unfold parse_flags. cbn [peek bind].
  change (ch "-" =? ch "-") with true. cbn [advance].
  destruct zero; cbn [app].
  - reflexivity.
  - specialize (Hz eq_refl). destruct rest as [|x rest]; cbn [peek bind hd] in *.
    + reflexivity.
    + apply Z.eqb_neq in Hz. rewrite Hz. reflexivity.
Qed.

(** The flags end up in the directive as they were read. *)
Lemma parse_directive_flags fmt ap d fmt' ap' la fi fmt1 :
  parse_flags fmt = Ok (la, fi, fmt1) ->
  parse_directive fmt ap = Ok (d, fmt', ap') ->
  left_align d = la /\ filler d = fi.
Proof.
  intros Hf E. unfold parse_directive in E. rewrite Hf in E. cbn [bind] in E.
  bind_inv E. destruct a as [[[c fmt2] ap2] w].
  bind_inv E. destruct a as [[[c3 fmt3] ap3] pr].
  bind_inv E. destruct a as [[il c4] fmt4]. inversion E; subst. split; reflexivity.
Qed.

(** [C3] (as amended) [%-05d] of -7 emits the five characters [-7000] and
    returns 5.  With left alignment the zero flag is not ignored: for every
    directive that starts with ['-'], the field is the rendered text
    followed by the padding, and the padding is made of ['0'] when the zero
    flag is given and the conversion is not [c] or [s], of spaces
    otherwise. *)
Theorem left_align_zero_flag :
  (forall uf f,
      chvprintf uf ([] : list Z) (bytes "%-05d") [VInt (-7)] f = Ok (bytes "-7000", 5, f))
  /\ (forall uf (zero : bool) rest ap tb f d fmt' ap' r,
         (zero = false -> hd 0 rest <> ch "0") ->
         parse_directive (At (ch "-" :: (if zero then [ch "0"] else []) ++ rest)) ap
         = Ok (d, fmt', ap') ->
         convert uf d ap' tb f = Ok r ->
         run_directive uf (At (ch "-" :: (if zero then [ch "0"] else []) ++ rest)) ap tb f
         = Ok (firstn (Z.to_nat (c_len r)) (c_s r)
               ++ repeat (if zero && negb ((conv d =? ch "c") || (conv d =? ch "s"))
                          then ch "0" else ch " ")
                    (Z.to_nat (wrap_s32 (width d - c_len r))),
               fmt', c_ap r, c_tmpbuf r, c_f r)).
Proof.
  split; [intros [] f; vm_compute; reflexivity|].
  intros uf zero rest ap tb f d fmt' ap' r Hz Hp Hr.
  destruct (parse_directive_flags _ _ _ _ _ _ _ _ (parse_flags_left zero rest Hz) Hp)
    as [Hl Hfi].
  unfold run_directive. rewrite Hp. cbn [bind]. rewrite Hr. cbn [bind].
  rewrite Hl, field_bytes_left_align.
  assert (Hfill : c_filler r
                  = if zero && negb ((conv d =? ch "c") || (conv d =? ch "s"))
                    then ch "0" else ch " ").
  { destruct (conv d =? ch "c") eqn:Ec.
    - apply Z.eqb_eq in Ec. rewrite andb_false_r.
      eapply convert_filler_space; [left; exact Ec | exact Hr].
    - destruct (conv d =? ch "s") eqn:Es.
      + apply Z.eqb_eq in Es. rewrite andb_false_r.
        eapply convert_filler_space; [right; exact Es | exact Hr].
      + apply Z.eqb_neq in Ec, Es.
        rewrite (convert_filler _ _ _ _ _ _ Ec Es Hr), Hfi.
        destruct zero; reflexivity. }
  rewrite Hfill. reflexivity.
Qed.

Lemma left_align_zero_flag_witness :
  run_directive false (At (ch "-" :: (if true then [ch "0"] else []) ++ bytes "5d"))
    [VInt (-7)] (fresh 12) 0
  = Ok (firstn (Z.to_nat 2) (bytes "-7")
        ++ repeat (if true && negb ((ch "d" =? ch "c") || (ch "d" =? ch "s"))
                   then ch "0" else ch " ")
             (Z.to_nat (wrap_s32 (5 - 2))),
        At [], [], upd (upd (upd (fresh 12) 0 (ch "-")) 11 (ch "7")) 1 (ch "7"), 0%float).
Proof.
  apply (proj2 left_align_zero_flag false true (bytes "5d") [VInt (-7)] (fresh 12) 0%float
           {| left_align := true; filler := ch "0"; width := 5; precision := 0;
              is_long := false; conv := ch "d" |}
           (At []) [VInt (-7)]
           {| c_filler := ch "0"; c_s := bytes "-7"; c_len := 2; c_ap := [];
              c_tmpbuf := upd (upd (upd (fresh 12) 0 (ch "-")) 11 (ch "7")) 1 (ch "7");
              c_f := 0%float |});
    [discriminate | reflexivity | reflexivity].
Defined.

(** [C3] as stated fails: the right-side fill of [%-05d] is not spaces. *)
Lemma left_align_zero_flag_not_spaces :
  chvprintf false ([] : list Z) (bytes "%-05d") [VInt (-7)] 0
  <> Ok (bytes "-7   ", 5, 0%float).
Proof. vm_compute. discriminate. Qed.

(** ** Length modifier *)

(** [C8] as stated fails at the end of the format: in ["%l"] the conversion
    character is not taken from what follows the ['l'] (the terminating
    NUL); the ['l'] itself is converted, and emitted by the default case. *)
Lemma long_modifier_at_end :
  long_modifier (ch "l") (At []) = Ok (true, ch "l", At [])
  /\ peek (At []) = Ok 0
  /\ chvprintf false ([] : list Z) (bytes "%l") [] 0 = Ok (bytes "l", 1, 0%float).
Proof. repeat split. Qed.

(** ** Reading the format *)

(** The directive that starts at the terminating NUL: the NUL is taken as
    the conversion character and the cursor is left beyond it. *)
Lemma run_directive_at_end uf ap (tb : buffer) f :
  (1 <= length tb)%nat ->
  run_directive uf (At []) ap tb f = Ok ([0], Past, ap, upd tb 0 0, f).
Proof.
  intros Hlen. unfold run_directive.
  change (parse_directive (At []) ap)
    with (Ok ({| left_align := false; filler := ch " "; width := 0; precision := 0;
                 is_long := false; conv := 0 |}, Past, ap)).
  cbn [bind].
  assert (Hc : convert uf {| left_align := false; filler := ch " "; width := 0;
                             precision := 0; is_long := false; conv := 0 |} ap tb f
               = in_tmpbuf (ch " ") ap f (buf <- store tb 0 0 ;; Ok (buf, 1%nat)))
    by (destruct uf; reflexivity).
  rewrite Hc. unfold in_tmpbuf. rewrite store_in_bounds by lia.
  cbn [bind load_range]. unfold load. rewrite nth_error_upd_same by lia.
  reflexivity.
Qed.

(** Every format that ends right behind a ['%'] makes the engine read
    beyond the terminating NUL: after the literal text, the directive
    consumes the NUL and the main loop dereferences the cursor again. *)
Lemma chvprintf_loop_trailing_percent uf (pre : list Z) :
  forall (fuel : nat) (log : list Z) ap n (tb : buffer) f,
    Forall (fun c => c <> 0 /\ c <> ch "%") pre ->
    (length pre < fuel)%nat -> (1 <= length tb)%nat ->
    chvprintf_loop uf fuel log (At (pre ++ [ch "%"])) ap n tb f = Fault FmtOverrun.
Proof.
  induction pre as [|c pre IH]; intros fuel log ap n tb f Hpre Hfuel Hlen;
    (destruct fuel as [|fuel]; [simpl in Hfuel; lia|]); rewrite chvprintf_loop_eq.
  - cbn [app next peek advance bind].
    change (ch "%" =? 0) with false. change (negb (ch "%" =? ch "%")) with false.
    cbn iota. rewrite run_directive_at_end by exact Hlen. cbn [bind].
    unfold stream_write. rewrite put_all_log. cbn [bind].
    rewrite chvprintf_loop_eq. reflexivity.
  - inversion Hpre as [|? ? [Hc0 Hcp] Hrest]; subst.
    cbn [app next peek advance bind].
    apply Z.eqb_neq in Hc0, Hcp. rewrite Hc0, Hcp. cbn [negb].
    unfold stream_write. rewrite put_all_log. cbn [bind].
    apply IH; [exact Hrest | simpl in Hfuel; lia | exact Hlen].
Qed.

Lemma chvprintf_trailing_percent uf (pre : list Z) ap f :
  Forall (fun c => c <> 0 /\ c <> ch "%") pre ->
  chvprintf uf ([] : list Z) (pre ++ [ch "%"]) ap f = Fault FmtOverrun.
Proof.
  intros Hpre. unfold chvprintf. apply chvprintf_loop_trailing_percent.
  - exact Hpre.
  - rewrite length_app. simpl. lia.
  - unfold fresh. rewrite repeat_length. destruct uf; simpl; lia.
Qed.

(** [C10] fails on the code: when the format ends inside a directive, the
    width loop has already moved the cursor beyond the terminating NUL, the
    NUL is converted by the default case, and the next round of the main
    loop reads the byte behind the terminator.  (Right after an ['l']
    modifier the code does check for the terminator.) *)
Theorem chvprintf_reads_past_terminator :
  (forall uf f, chvprintf uf ([] : list Z) (bytes "abc%") [] f = Fault FmtOverrun)
  /\ (forall uf f, chvprintf uf ([] : list Z) (bytes "abc%5") [] f = Fault FmtOverrun)
  /\ (forall ap,
         parse_directive (At []) ap
         = Ok ({| left_align := false; filler := ch " "; width := 0; precision := 0;
                  is_long := false; conv := 0 |}, Past, ap))
  /\ next Past = Fault FmtOverrun
  /\ (forall uf f,
         chvprintf uf ([] : list Z) (bytes "abc%l") [] f = Ok (bytes "abcl", 4, f)).
Proof.
  split; [|split; [|split; [|split]]].
  - intros [] f; vm_compute; reflexivity.
  - intros [] f; vm_compute; reflexivity.
  - intros ap. reflexivity.
  - reflexivity.
  - intros [] f; vm_compute; reflexivity.
Qed.

(** ** Float rendering *)

(** [C4] fails on the code for precision 1: the scientific branch indexes
    [pow10] with [precision - 2], which for the [unsigned long] 1 is
    [ULONG_MAX], outside the table, whatever the value rendered; no text is
    produced in the model.  From precision 2 on the index is inside the
    table ([100] with precision 2 renders as [1.0E+2]). *)
Theorem ftoa_precision_1_reads_outside_pow10 :
  (forall buf p num E,
      ftoa_exp buf p num E 1
      = bind (long_to_string_with_divisor buf p (wrap_s32 (trunc num)) 10 0)
          (fun _ => Fault (Pow10OutOfBounds 4294967295)))
  /\ ftoa (fresh 23) 0 100 1 = Fault (Pow10OutOfBounds 4294967295)
  /\ (forall f, chvprintf true ([] : list Z) (bytes "%.1f") [VDouble 100] f
                = Fault (Pow10OutOfBounds 4294967295))
  /\ rendered (ftoa (fresh 23) 0 100 2) = Ok (bytes "1.0E+2").
Proof.
  split; [|split; [|split]].
  - intros buf p num E. unfold ftoa_exp.
    destruct (long_to_string_with_divisor buf p (wrap_s32 (trunc num)) 10 0)
      as [[buf' p']|e]; reflexivity.
  - vm_compute. reflexivity.
  - intros f. vm_compute. reflexivity.
  - vm_compute. reflexivity.
Qed.


(** The plain-notation loop only stores at [p] and behind it. *)
Lemma ftoa_plain_below (k : nat) :
  forall buf p num E buf' p',
    ftoa_plain k buf p num E = Ok (buf', p') ->
    (p <= p')%nat /\ forall j, (j < p)%nat -> load buf' j = load buf j.
Proof.
  induction k as [|k IH]; intros buf p num E buf' p' H; cbn [ftoa_plain] in H.
  - inversion H; subst. auto.
  - bind_inv H. rename a into buf1. rename Ha into Hs1.
    bind_inv H. destruct a as [buf2 p2].
    apply IH in H. destruct H as [Hp Hl].
    assert (H2 : (Datatypes.S p <= p2)%nat /\
                 forall j, (j < Datatypes.S p)%nat -> load buf2 j = load buf1 j).
    { destruct ((E =? 0) && (1 <? Z.of_nat (Datatypes.S k))).
      - bind_inv Ha. inversion Ha; subst. split; [lia|].
        intros j Hj. eapply load_store_other; [eassumption | lia].
      - inversion Ha; subst. auto. }
    destruct H2 as [Hp2 Hl2]. split; [lia|].
    intros j Hj. rewrite Hl by lia. rewrite Hl2 by lia.
    eapply load_store_other; [eassumption | lia].
Qed.

(** ** The working buffer and the integer renderer *)

Lemma wrap_u32_s32 (x : Z) : 0 <= x < 2 ^ 32 -> wrap_u32 (wrap_s32 x) = x.
Proof.
  intros Hx. unfold wrap_u32, wrap_s32.
  rewrite Zminus_mod_idemp_l.
  replace (x + 2 ^ 31 - 2 ^ 31) with x by ring.
  apply Z.mod_small. exact Hx.
Qed.

Lemma wrap_u32_range (x : Z) : 0 <= wrap_u32 x < 2 ^ 32.
Proof. unfold wrap_u32. apply Z.mod_pos_bound. lia. Qed.

(** The digit loop stays inside the buffer when the value has at most [k]
    digits and [k] cells are free below [q]; it stores below [q] only and
    leaves the cells from the returned [q'] up to [q] initialised. *)
Lemma digit_loop_in_bounds (radix : Z) (k : nat) :
  2 <= radix ->
  forall (q : nat) (buf : buffer) (l ll : Z),
    (1 <= k <= q)%nat -> (q <= length buf)%nat ->
    wrap_u32 ll < radix ^ Z.of_nat k ->
    exists buf' q',
      digit_loop q buf l ll radix = Ok (buf', q') /\
      (q - k <= q' < q)%nat /\
      length buf' = length buf /\
      (forall j, (q' <= j < q)%nat -> exists v, load buf' j = Ok v) /\
      (forall j, (q <= j)%nat -> load buf' j = load buf j).
Proof.
  intros Hr. induction k as [|k IH]; intros q buf l ll Hk Hq Hll; [lia|].
  destruct q as [|q]; [lia|]. cbn [digit_loop].
  set (d := if ch "9" <? wrap_u32 l mod radix + ch "0"
            then wrap_u32 l mod radix + ch "0" + (ch "A" - ch "0" - 10)
            else wrap_u32 l mod radix + ch "0").
  rewrite store_in_bounds by lia. cbn [bind].
  set (buf1 := upd buf q (to_char d)).
  assert (Hs : store buf q d = Ok buf1) by (apply store_in_bounds; lia).
  pose proof (wrap_u32_range ll) as Hu.
  assert (Hdiv : 0 <= wrap_u32 ll / radix < 2 ^ 32).
  { split; [apply Z.div_pos; lia|].
    apply Z.div_lt_upper_bound; [lia|]. nia. }
  destruct (wrap_s32 (wrap_u32 ll / radix) =? 0) eqn:Ez.
  - exists buf1, q. split; [reflexivity|]. split; [lia|].
    split; [apply length_upd|]. split.
    + intros j Hj. assert (j = q) by lia. subst j.
      exists (to_char d). eapply load_store_same. exact Hs.
    + intros j Hj. eapply load_store_other; [exact Hs | lia].
  - apply Z.eqb_neq in Ez.
    assert (Hk2 : (1 <= k)%nat).
    { destruct k as [|k]; [|lia]. exfalso. apply Ez.
      change (radix ^ Z.of_nat 1) with (radix ^ 1) in Hll. rewrite Z.pow_1_r in Hll.
      rewrite Z.div_small by lia. reflexivity. }
    destruct (IH q buf1 (wrap_s32 (wrap_u32 l / radix)) (wrap_s32 (wrap_u32 ll / radix)))
      as (buf' & q' & E & Hq' & Hlen & Hinit & Habove).
    + lia.
    + unfold buf1. rewrite length_upd. lia.
    + rewrite wrap_u32_s32 by exact Hdiv.
      apply Z.div_lt_upper_bound; [lia|].
      rewrite <- Z.pow_succ_r by lia. rewrite <- Nat2Z.inj_succ. exact Hll.
    + exists buf', q'. split; [exact E|]. split; [lia|].
      split; [rewrite Hlen; apply length_upd|]. split.
      * intros j Hj. destruct (Nat.eq_dec j q) as [->|Hne].
        -- exists (to_char d). rewrite Habove by lia.
           eapply load_store_same. exact Hs.
        -- apply Hinit. lia.
      * intros j Hj. rewrite Habove by lia.
        eapply load_store_other; [exact Hs | lia].
Qed.

(** The copy loop stays inside the buffer when it copies downwards from
    initialised cells. *)
Lemma copy_loop_in_bounds (i : nat) :
  forall (buf : buffer) (p q : nat),
    (p <= q)%nat -> (q + i < length buf)%nat ->
    (forall j, (q <= j <= q + i)%nat -> exists v, load buf j = Ok v) ->
    exists buf',
      copy_loop i buf p q = Ok (buf', (p + i + 1)%nat) /\ length buf' = length buf.
Proof.
  induction i as [|i IH]; intros buf p q Hpq Hlen Hinit;
    destruct (Hinit q ltac:(lia)) as [v Hv]; cbn [copy_loop]; rewrite Hv; cbn [bind];
    rewrite store_in_bounds by lia; cbn [bind].
  - exists (upd buf p (to_char v)). split; [f_equal; f_equal; lia | apply length_upd].
  - destruct (IH (upd buf p (to_char v)) (Datatypes.S p) (Datatypes.S q))
      as (buf' & E & Hl).
    + lia.
    + rewrite length_upd. lia.
    + intros j Hj. destruct (Hinit j ltac:(lia)) as [w Hw]. exists w.
      rewrite <- Hw. eapply load_store_other; [apply store_in_bounds; lia | lia].
    + exists buf'. split; [|rewrite Hl; apply length_upd].
      rewrite E. f_equal. f_equal. lia.
Qed.

(** With 32-bit [long] and a radix of 8 or more a number has at most
    [MAX_FILLER] digits: the integer renderer writes inside a buffer that
    has [MAX_FILLER] cells from [p] on. *)
Lemma long_to_string_in_bounds (buf : buffer) (p : nat) (num radix divisor : Z) :
  8 <= radix -> (p + MAX_FILLER <= length buf)%nat ->
  exists buf' p',
    long_to_string_with_divisor buf p num radix divisor = Ok (buf', p') /\
    length buf' = length buf /\ (p < p' <= p + MAX_FILLER)%nat.
Proof.
  intros Hr Hlen. unfold long_to_string_with_divisor.
  destruct (digit_loop_in_bounds radix MAX_FILLER ltac:(lia) (p + MAX_FILLER) buf num
              (if divisor =? 0 then num else divisor))
    as (buf1 & q & E & Hq & Hl1 & Hinit & _).
  - unfold MAX_FILLER. lia.
  - exact Hlen.
  - pose proof (wrap_u32_range (if divisor =? 0 then num else divisor)) as Hu.
    assert (H8 : 8 ^ Z.of_nat MAX_FILLER <= radix ^ Z.of_nat MAX_FILLER)
      by (apply Z.pow_le_mono_l; lia).
    change (8 ^ Z.of_nat MAX_FILLER) with 8589934592 in H8.
    change (2 ^ 32) with 4294967296 in Hu. lia.
  - rewrite E. cbn [bind].
    destruct (copy_loop_in_bounds (p + MAX_FILLER - q - 1) buf1 p q) as (buf' & Ec & Hl).
    + lia.
    + lia.
    + intros j Hj. apply Hinit. lia.
    + exists buf', (p + (p + MAX_FILLER - q - 1) + 1)%nat.
      split; [exact Ec|]. split; [congruence | lia].
Qed.

(** [C2] fails on the code in the float build: a negative double rendered
    in scientific notation with nine significant digits places the exponent
    at [tmpbuf + 13], and the integer renderer called there stores its
    first digit at [tmpbuf + 13 + MAX_FILLER - 1], one cell past the 23
    cells of [tmpbuf].  The positive value fits. *)
Theorem ftoa_stores_past_tmpbuf :
  tmpbuf_size true = 23%nat
  /\ (forall f, chvprintf true ([] : list Z) (bytes "%f") [VDouble (-0.5)] f
                = Fault (TmpbufOutOfBounds 23))
  /\ (forall tb, length tb = 23%nat ->
                 exists tb', store tb 0 (ch "-") = Ok tb' /\
                             ftoa tb' 1 0.5 9 = Fault (TmpbufOutOfBounds 23))
  /\ rendered (ftoa (fresh 23) 0 0.5 9) = Ok (bytes "5.00000000E-1").
Proof.
  split; [reflexivity|]. split; [intros f; vm_compute; reflexivity|].
  split; [|vm_compute; reflexivity].
  intros tb Hlen.
  do 23 (destruct tb as [|? tb]; [discriminate|]).
  destruct tb; [|discriminate].
  eexists. split; [reflexivity|]. vm_compute. reflexivity.
Qed.

(** *** The build without float support stays inside [tmpbuf] *)

Lemma load_range_inside (buf : buffer) (count : nat) :
  forall from, (from + count <= length buf)%nat -> inside_tmpbuf (load_range buf from count).
Proof.
  induction count as [|count IH]; intros from Hlen i; cbn [load_range]; [discriminate|].
  unfold load at 1.
  destruct (nth_error buf from) as [[v|]|] eqn:En; cbn [bind]; try discriminate.
  - specialize (IH (Datatypes.S from) ltac:(lia) i).
    destruct (load_range buf (Datatypes.S from) count); cbn [bind]; congruence.
  - apply nth_error_None in En. lia.
Qed.

Lemma in_tmpbuf_inside filler ap f (buf : buffer) (p : nat) :
  (p <= length buf)%nat -> inside_tmpbuf (in_tmpbuf filler ap f (Ok (buf, p))).
Proof.
  intros Hp i. unfold in_tmpbuf. cbn [bind].
  pose proof (load_range_inside buf p 0 ltac:(lia) i) as Hl.
  destruct (load_range buf 0 p); cbn [bind]; congruence.
Qed.

Lemma va_arg_inside {A : Type} (m : res A) :
  (forall e, m = Fault e -> e = VaArgMismatch) ->
  forall (B : Type) (k : A -> res B),
    (forall a, m = Ok a -> inside_tmpbuf (k a)) -> inside_tmpbuf (bind m k).
Proof.
  intros Hm B k Hk i. destruct m as [a|e]; cbn [bind].
  - now apply Hk.
  - rewrite (Hm e eq_refl). discriminate.
Qed.

Lemma ch_ltoa_inside filler ap f (buf : buffer) (p : nat) (l radix : Z) :
  8 <= radix -> (p + MAX_FILLER <= length buf)%nat ->
  inside_tmpbuf (in_tmpbuf filler ap f (ch_ltoa buf p l radix)).
Proof.
  intros Hr Hlen. unfold ch_ltoa.
  destruct (long_to_string_in_bounds buf p l radix 0 Hr Hlen) as (buf' & p' & E & Hl & Hp).
  rewrite E. apply in_tmpbuf_inside. lia.
Qed.

Lemma store_first_inside filler ap f (tb : buffer) (v : Z) :
  (1 <= length tb)%nat ->
  inside_tmpbuf (in_tmpbuf filler ap f (buf <- store tb 0 v ;; Ok (buf, 1%nat))).
Proof.
  intros Hlen. rewrite store_in_bounds by lia. cbn [bind].
  apply in_tmpbuf_inside. rewrite length_upd. lia.
Qed.

(** Without float support every conversion stores inside the
    [MAX_FILLER + 1] cells of [tmpbuf], whatever the directive and the
    arguments. *)
Lemma convert_inside_tmpbuf (d : directive) (ap : va_list) (tb : buffer) (f : float) :
  length tb = tmpbuf_size false -> inside_tmpbuf (convert false d ap tb f).
Proof.
  intros Hlen. change (tmpbuf_size false) with 12%nat in Hlen.
  assert (Hint : forall e, va_arg_int ap = Fault e -> e = VaArgMismatch)
    by (destruct ap as [|[] ?]; cbn; congruence).
  assert (Hlong : forall e, va_arg_long ap = Fault e -> e = VaArgMismatch)
    by (destruct ap as [|[] ?]; cbn; congruence).
  assert (Huint : forall e, va_arg_unsigned_int ap = Fault e -> e = VaArgMismatch)
    by (destruct ap as [|[] ?]; cbn; congruence).
  assert (Hulong : forall e, va_arg_unsigned_long ap = Fault e -> e = VaArgMismatch)
    by (destruct ap as [|[] ?]; cbn; congruence).
  assert (Hptr : forall e, va_arg_char_ptr ap = Fault e -> e = VaArgMismatch)
    by (destruct ap as [|[] ?]; cbn; congruence).
  assert (Hsigned : forall e, (if is_long d then va_arg_long ap else va_arg_int ap) = Fault e ->
                              e = VaArgMismatch) by (destruct (is_long d); assumption).
  assert (Hunsigned : forall e,
             (if is_long d then va_arg_unsigned_long ap else va_arg_unsigned_int ap) = Fault e ->
             e = VaArgMismatch) by (destruct (is_long d); assumption).
  assert (Hu : forall radix, 8 <= radix -> inside_tmpbuf (unsigned_common d radix ap tb f)).
  { intros radix Hr. unfold unsigned_common. apply va_arg_inside; [exact Hunsigned|].
    intros [l ap'] _. apply ch_ltoa_inside; [exact Hr | unfold MAX_FILLER; lia]. }
  unfold convert. cbn [andb].
  destruct (conv d =? ch "c").
  { apply va_arg_inside; [exact Hint|]. intros [v ap'] _. apply store_first_inside. lia. }
  destruct (conv d =? ch "s").
  { apply va_arg_inside; [exact Hptr|]. intros [s ap'] _ i. discriminate. }
  destruct ((conv d =? ch "D") || (conv d =? ch "d") || (conv d =? ch "I") || (conv d =? ch "i")).
  { apply va_arg_inside; [exact Hsigned|]. intros [l ap'] _.
    destruct (l <? 0).
    - rewrite store_in_bounds by lia. cbn [bind]. unfold negate.
      destruct (l =? - 2 ^ 31); [intros i; discriminate|]. cbn [bind].
      apply ch_ltoa_inside; [lia | rewrite length_upd; unfold MAX_FILLER; lia].
    - cbn [bind]. apply ch_ltoa_inside; [lia | unfold MAX_FILLER; lia]. }
  destruct ((conv d =? ch "X") || (conv d =? ch "x")); [apply Hu; lia|].
  destruct ((conv d =? ch "U") || (conv d =? ch "u")); [apply Hu; lia|].
  destruct ((conv d =? ch "O") || (conv d =? ch "o")); [apply Hu; lia|].
  apply store_first_inside. lia.
Qed.

Lemma in_tmpbuf_tmpbuf filler ap f r x :
  in_tmpbuf filler ap f r = Ok x -> exists p, r = Ok (c_tmpbuf x, p).
Proof.
  unfold in_tmpbuf. intros E. bind_inv E. destruct a as [buf p].
  bind_inv E. inversion E; subst. exists p. reflexivity.
Qed.

Lemma ch_ltoa_length (buf buf' : buffer) (p p' : nat) (l radix : Z) :
  8 <= radix -> (p + MAX_FILLER <= length buf)%nat ->
  ch_ltoa buf p l radix = Ok (buf', p') -> length buf' = length buf.
Proof.
  intros Hr Hlen E. unfold ch_ltoa in E.
  destruct (long_to_string_in_bounds buf p l radix 0 Hr Hlen) as (b & q & E' & Hl & _).
  congruence.
Qed.

Lemma convert_length (d : directive) (ap : va_list) (tb : buffer) (f : float) r :
  length tb = tmpbuf_size false ->
  convert false d ap tb f = Ok r -> length (c_tmpbuf r) = length tb.
Proof.
  intros Hlen. change (tmpbuf_size false) with 12%nat in Hlen.
  assert (Hu : forall radix, 8 <= radix ->
                             unsigned_common d radix ap tb f = Ok r ->
                             length (c_tmpbuf r) = length tb).
  { intros radix Hr E. unfold unsigned_common in E. bind_inv E. destruct a as [l ap'].
    apply in_tmpbuf_tmpbuf in E. destruct E as [p E].
    eapply ch_ltoa_length; [exact Hr | | exact E]. unfold MAX_FILLER. lia. }
  assert (Hst : forall fi ap' v,
             in_tmpbuf fi ap' f (buf <- store tb 0 v ;; Ok (buf, 1%nat)) = Ok r ->
             length (c_tmpbuf r) = length tb).
  { intros fi ap' v E. apply in_tmpbuf_tmpbuf in E. destruct E as [p E].
    rewrite store_in_bounds in E by lia. inversion E. apply length_upd. }
  unfold convert. cbn [andb].
  destruct (conv d =? ch "c").
  { intros E. bind_inv E. destruct a as [v ap']. eapply Hst. exact E. }
  destruct (conv d =? ch "s").
  { intros E. bind_inv E. destruct a as [s ap']. inversion E. reflexivity. }
  destruct ((conv d =? ch "D") || (conv d =? ch "d") || (conv d =? ch "I") || (conv d =? ch "i")).
  { intros E. bind_inv E. destruct a as [l ap'].
    apply in_tmpbuf_tmpbuf in E. destruct E as [p E].
    destruct (l <? 0).
    - rewrite store_in_bounds in E by lia. cbn [bind] in E. unfold negate in E.
      destruct (l =? - 2 ^ 31); [discriminate|]. cbn [bind] in E.
      apply ch_ltoa_length in E; [|lia | rewrite length_upd; unfold MAX_FILLER; lia].
      rewrite E. apply length_upd.
    - cbn [bind] in E.
      eapply ch_ltoa_length; [| | exact E]; [lia | unfold MAX_FILLER; lia]. }
  destruct ((conv d =? ch "X") || (conv d =? ch "x")); [apply Hu; lia|].
  destruct ((conv d =? ch "U") || (conv d =? ch "u")); [apply Hu; lia|].
  destruct ((conv d =? ch "O") || (conv d =? ch "o")); [apply Hu; lia|].
  apply Hst.
Qed.

(** The parser does not touch the working buffer. *)
Lemma number_loop_inside (rest : list Z) :
  forall ap acc, inside_tmpbuf (number_loop rest ap acc).
Proof.
  induction rest as [|c rest IH]; intros ap acc i; cbn [number_loop]; [discriminate|].
  destruct ((ch "0" <=? c) && (c <=? ch "9")); [apply IH|].
  destruct (c =? ch "*"); [|discriminate].
  destruct ap as [|[v| | |] ap]; cbn; try discriminate. apply IH.
Qed.

Lemma parse_number_inside fmt ap : inside_tmpbuf (parse_number fmt ap).
Proof.
  destruct fmt as [rest|]; cbn [parse_number]; [apply number_loop_inside|].
  intros i. discriminate.
Qed.

Lemma parse_flags_inside fmt : inside_tmpbuf (parse_flags fmt).
Proof.
  intros i. unfold parse_flags.
  destruct fmt as [[|x r]|]; [vm_compute; discriminate | | cbn; discriminate].
  cbn [peek bind].
  destruct (x =? ch "-"); cbn [advance]; [destruct r as [|y r]|]; cbn [peek bind];
    match goal with
    | |- context [if ?b then _ else _] => destruct b
    end; discriminate.
Qed.

Lemma parse_directive_inside fmt ap : inside_tmpbuf (parse_directive fmt ap).
Proof.
  intros i. unfold parse_directive.
  pose proof (parse_flags_inside fmt i) as Hf.
  destruct (parse_flags fmt) as [[[la fi] fmt1]|e]; cbn [bind]; [|congruence].
  pose proof (parse_number_inside fmt1 ap i) as Hw.
  destruct (parse_number fmt1 ap) as [[[[c fmt2] ap2] w]|e]; cbn [bind]; [|congruence].
  assert (Hp : inside_tmpbuf (if c =? ch "." then parse_number fmt2 ap2
                              else Ok (c, fmt2, ap2, 0)))
    by (destruct (c =? ch "."); [apply parse_number_inside | intros j; discriminate]).
  specialize (Hp i).
  destruct (if c =? ch "." then parse_number fmt2 ap2 else Ok (c, fmt2, ap2, 0))
    as [[[[c3 fmt3] ap3] pr]|e]; cbn [bind]; [|congruence].
  unfold long_modifier, next.
  destruct ((c3 =? ch "l") || (c3 =? ch "L")); [|discriminate].
  destruct fmt3 as [[|x rest]|]; cbn; try discriminate.
  destruct (x =? 0); discriminate.
Qed.

(** The whole engine, built without float support, never stores outside
    its working buffer. *)
Lemma chvprintf_loop_inside_tmpbuf (fuel : nat) :
  forall (log : list Z) fmt ap n tb f,
    length tb = tmpbuf_size false ->
    inside_tmpbuf (chvprintf_loop false fuel log fmt ap n tb f).
Proof.
  induction fuel as [|fuel IH]; intros log fmt ap n tb f Hlen i;
    rewrite chvprintf_loop_eq; unfold next;
    destruct fmt as [[|c rest]|]; cbn [peek bind advance]; try discriminate;
    destruct (c =? 0); try discriminate.
  destruct (negb (c =? ch "%")).
  - unfold stream_write. rewrite put_all_log. cbn [bind]. now apply IH.
  - unfold run_directive.
    pose proof (parse_directive_inside (At rest) ap i) as Hp.
    destruct (parse_directive (At rest) ap) as [[[d fmt1] ap1]|e] eqn:Ep; cbn [bind];
      [|congruence].
    pose proof (convert_inside_tmpbuf d ap1 tb f Hlen i) as Hc.
    destruct (convert false d ap1 tb f) as [r|e] eqn:Ec; cbn [bind]; [|congruence].
    unfold stream_write. rewrite put_all_log. cbn [bind].
    apply IH. rewrite (convert_length _ _ _ _ _ Hlen Ec). exact Hlen.
Qed.

Lemma chvprintf_inside_tmpbuf (fmt : list Z) (ap : va_list) (f : float) :
  inside_tmpbuf (chvprintf false ([] : list Z) fmt ap f).
Proof.
  unfold chvprintf. apply chvprintf_loop_inside_tmpbuf.
  unfold fresh. apply repeat_length.
Qed.

(** * Further properties of the renderers and of the engine *)

(** ** Ranges of the working buffer *)

Lemma load_range_snoc (buf : buffer) (n : nat) :
  forall from,
    load_range buf from (Datatypes.S n)
    = (text <- load_range buf from n ;; v <- load buf (from + n) ;; Ok (text ++ [v])).
Proof.
  induction n as [|n IH]; intros from.
  - cbn [load_range bind]. rewrite Nat.add_0_r.
    destruct (load buf from); reflexivity.
  - change (load_range buf from (Datatypes.S (Datatypes.S n)))
      with (v <- load buf from ;;
            rest <- load_range buf (Datatypes.S from) (Datatypes.S n) ;; Ok (v :: rest)).
    rewrite IH. cbn [load_range].
    destruct (load buf from) as [v|e]; cbn [bind]; [|reflexivity].
    destruct (load_range buf (Datatypes.S from) n) as [t|e]; cbn [bind]; [|reflexivity].
    replace (Datatypes.S from + n)%nat with (from + Datatypes.S n)%nat by lia.
    destruct (load buf (from + Datatypes.S n)); reflexivity.
Qed.

Lemma load_range_ext (buf buf' : buffer) (n : nat) :
  forall from,
    (forall j, (from <= j < from + n)%nat -> load buf' j = load buf j) ->
    load_range buf' from n = load_range buf from n.
Proof.
  induction n as [|n IH]; intros from H; cbn [load_range]; [reflexivity|].
  rewrite H by lia. rewrite IH; [reflexivity|].
  intros j Hj. apply H. lia.
Qed.

Lemma load_range_length (buf : buffer) (n : nat) :
  forall from text, load_range buf from n = Ok text -> length text = n.
Proof.
  induction n as [|n IH]; intros from text E; cbn [load_range] in E.
  - inversion E. reflexivity.
  - bind_inv E. bind_inv E. inversion E; subst. simpl. f_equal. eapply IH. eassumption.
Qed.

(** ** What the integer renderer writes *)

Lemma digit_char_code (d : Z) :
  (if ch "9" <? d + ch "0" then d + ch "0" + (ch "A" - ch "0" - 10) else d + ch "0")
  = digit_char d.
Proof.
  unfold digit_char. change (ch "9") with 57. change (ch "0") with 48. change (ch "A") with 65.
  destruct (57 <? d + 48) eqn:E1; destruct (9 <? d) eqn:E2;
    rewrite ?Z.ltb_lt, ?Z.ltb_ge in E1, E2; lia.
Qed.

Lemma digit_char_byte (d : Z) : 0 <= d < 36 -> to_char (digit_char d) = digit_char d.
Proof.
  intros Hd. unfold to_char, digit_char. change (ch "0") with 48. change (ch "A") with 65.
  destruct (9 <? d); apply Z.mod_small; lia.
Qed.

Lemma digit_value_char (d : Z) : 0 <= d < 36 -> digit_value (digit_char d) = d.
Proof.
  intros Hd. unfold digit_value, digit_char.
  change (ch "9") with 57. change (ch "0") with 48. change (ch "A") with 65.
  destruct (9 <? d) eqn:E; [apply Z.ltb_lt in E | apply Z.ltb_ge in E].
  - replace (d - 10 + 65 <=? 57) with false by (symmetry; apply Z.leb_gt; lia). lia.
  - replace (d + 48 <=? 57) with true by (symmetry; apply Z.leb_le; lia). lia.
Qed.

(** The digit loop, exactly: when [ll] has [k] digits, the loop stores the
    [k] low digits of [l] in the [k] cells below [q] and touches no other
    cell. *)
Lemma digit_loop_digits (radix : Z) (k : nat) :
  2 <= radix <= 36 ->
  forall (q : nat) (buf : buffer) (l ll : Z),
    (1 <= k <= q)%nat -> (q <= length buf)%nat ->
    wrap_u32 ll < radix ^ Z.of_nat k ->
    (k = 1%nat \/ radix ^ (Z.of_nat k - 1) <= wrap_u32 ll) ->
    exists buf',
      digit_loop q buf l ll radix = Ok (buf', (q - k)%nat) /\
      length buf' = length buf /\
      load_range buf' (q - k) k = Ok (digits_msb radix k (wrap_u32 l)) /\
      (forall j, (q <= j \/ j < q - k)%nat -> load buf' j = load buf j).
Proof.
  intros Hr. induction k as [|k IH]; intros q buf l ll Hk Hq Hll Hlow; [lia|].
  destruct q as [|q]; [lia|]. cbn [digit_loop].
  rewrite digit_char_code.
  pose proof (wrap_u32_range l) as Hl. pose proof (wrap_u32_range ll) as Hu.
  assert (Hd : 0 <= wrap_u32 l mod radix < 36)
    by (pose proof (Z.mod_pos_bound (wrap_u32 l) radix ltac:(lia)); lia).
  set (d := digit_char (wrap_u32 l mod radix)).
  assert (Hs : store buf q d = Ok (upd buf q d)).
  { rewrite store_in_bounds by lia. unfold d. now rewrite digit_char_byte. }
  rewrite Hs. cbn [bind]. set (buf1 := upd buf q d) in *.
  assert (Hcell : load buf1 q = Ok d).
  { rewrite (load_store_same _ _ _ _ Hs). unfold d. now rewrite digit_char_byte. }
  assert (Hdiv : forall x, 0 <= wrap_u32 x / radix < 2 ^ 32).
  { intros x. pose proof (wrap_u32_range x). split; [apply Z.div_pos; lia|].
    apply Z.div_lt_upper_bound; [lia|]. nia. }
  destruct (wrap_s32 (wrap_u32 ll / radix) =? 0) eqn:Ez.
  - apply Z.eqb_eq in Ez.
    assert (Hq0 : wrap_u32 ll / radix = 0)
      by (rewrite <- (wrap_u32_s32 _ (Hdiv ll)), Ez; reflexivity).
    assert (Hlt : wrap_u32 ll < radix).
    { apply Z.div_small_iff in Hq0; [|lia]. lia. }
    assert (k = O).
    { destruct Hlow as [Hk1|Hlow]; [lia|]. destruct k as [|k]; [reflexivity|].
      exfalso.
      assert (radix ^ 1 <= radix ^ (Z.of_nat (Datatypes.S (Datatypes.S k)) - 1))
        by (apply Z.pow_le_mono_r; lia).
      rewrite Z.pow_1_r in H. lia. }
    subst k. exists buf1. replace (Datatypes.S q - 1)%nat with q by lia.
    split; [reflexivity|]. split; [apply length_upd|]. split.
    + cbn [load_range digits_msb app]. rewrite Hcell. reflexivity.
    + intros j Hj. apply (load_store_other _ _ _ _ _ Hs). lia.
  - apply Z.eqb_neq in Ez.
    assert (Hge : radix <= wrap_u32 ll).
    { destruct (Z_lt_le_dec (wrap_u32 ll) radix) as [Hlt|]; [|assumption].
      exfalso. apply Ez. rewrite Z.div_small by lia. reflexivity. }
    assert (Hk2 : (1 <= k)%nat).
    { destruct k as [|k]; [|lia]. exfalso.
      change (radix ^ Z.of_nat 1) with (radix ^ 1) in Hll. rewrite Z.pow_1_r in Hll. lia. }
    assert (Hpow : radix ^ Z.of_nat (Datatypes.S k) = radix * radix ^ Z.of_nat k)
      by (rewrite Nat2Z.inj_succ, Z.pow_succ_r by lia; reflexivity).
    destruct (IH q buf1 (wrap_s32 (wrap_u32 l / radix)) (wrap_s32 (wrap_u32 ll / radix)))
      as (buf' & E & Hlen & Htext & Hframe).
    + lia.
    + unfold buf1. rewrite length_upd. lia.
    + rewrite wrap_u32_s32 by apply Hdiv.
      apply Z.div_lt_upper_bound; [lia|]. rewrite <- Hpow. exact Hll.
    + right. rewrite wrap_u32_s32 by apply Hdiv.
      destruct Hlow as [Hk1|Hlow]; [lia|].
      apply Z.div_le_lower_bound; [lia|].
      replace (Z.of_nat (Datatypes.S k) - 1) with (Z.succ (Z.of_nat k - 1)) in Hlow by lia.
      rewrite Z.pow_succ_r in Hlow by lia. exact Hlow.
    + exists buf'. replace (Datatypes.S q - Datatypes.S k)%nat with (q - k)%nat by lia.
      split; [exact E|]. split; [rewrite Hlen; apply length_upd|]. split.
      * rewrite load_range_snoc, Htext. cbn [bind].
        replace (q - k + k)%nat with q by lia.
        rewrite Hframe by lia. rewrite Hcell. cbn [bind digits_msb].
        rewrite wrap_u32_s32 by apply Hdiv. reflexivity.
      * intros j Hj. rewrite Hframe by lia.
        apply (load_store_other _ _ _ _ _ Hs). lia.
Qed.

(** The copy loop, exactly: the [S i] cells from [q] on are copied (as
    bytes) to the cells from [p <= q] on, and no cell below [p] changes. *)
Lemma copy_loop_text (i : nat) :
  forall (buf : buffer) (p q : nat) (text : list Z),
    (p <= q)%nat -> (q + i < length buf)%nat ->
    load_range buf q (Datatypes.S i) = Ok text ->
    exists buf',
      copy_loop i buf p q = Ok (buf', (p + Datatypes.S i)%nat) /\
      length buf' = length buf /\
      load_range buf' p (Datatypes.S i) = Ok (map to_char text) /\
      (forall j, (j < p)%nat -> load buf' j = load buf j).
Proof.
  induction i as [|i IH]; intros buf p q text Hpq Hlen Htext;
    match type of Htext with
    | load_range _ _ (Datatypes.S ?n) = _ =>
        change (load_range buf q (Datatypes.S n))
          with (v <- load buf q ;; rest <- load_range buf (Datatypes.S q) n ;; Ok (v :: rest))
          in Htext
    end;
    bind_inv Htext; rename a into v; rename Ha into Hv;
    bind_inv Htext; rename a into rest; rename Ha into Hrest; inversion Htext; subst text;
    cbn [copy_loop]; rewrite Hv; cbn [bind];
    assert (Hs : store buf p v = Ok (upd buf p (to_char v))) by (apply store_in_bounds; lia);
    rewrite Hs; cbn [bind].
  - inversion Hrest; subst rest. exists (upd buf p (to_char v)).
    split; [f_equal; f_equal; lia|]. split; [apply length_upd|]. split.
    + cbn [load_range map]. rewrite (load_store_same _ _ _ _ Hs). reflexivity.
    + intros j Hj. apply (load_store_other _ _ _ _ _ Hs). lia.
  - assert (Hrest1 : load_range (upd buf p (to_char v)) (Datatypes.S q) (Datatypes.S i)
                     = Ok rest).
    { rewrite <- Hrest. apply load_range_ext. intros j Hj.
      apply (load_store_other _ _ _ _ _ Hs). lia. }
    destruct (IH (upd buf p (to_char v)) (Datatypes.S p) (Datatypes.S q) rest)
      as (buf' & E & Hl & Ht & Hf); [lia | rewrite length_upd; lia | exact Hrest1 |].
    exists buf'. split; [rewrite E; f_equal; f_equal; lia|].
    split; [rewrite Hl; apply length_upd|]. split.
    + change (load_range buf' p (Datatypes.S (Datatypes.S i)))
        with (w <- load buf' p ;;
              r <- load_range buf' (Datatypes.S p) (Datatypes.S i) ;; Ok (w :: r)).
      rewrite Hf by lia. rewrite (load_store_same _ _ _ _ Hs). cbn [bind].
      rewrite Ht. reflexivity.
    + intros j Hj. rewrite Hf by lia. apply (load_store_other _ _ _ _ _ Hs). lia.
Qed.

Lemma digits_msb_bytes (radix : Z) (k : nat) :
  2 <= radix <= 36 ->
  forall n, map to_char (digits_msb radix k n) = digits_msb radix k n.
Proof.
  intros Hr. induction k as [|k IH]; intros n; cbn [digits_msb]; [reflexivity|].
  rewrite map_app, IH. cbn [map]. rewrite digit_char_byte; [reflexivity|].
  pose proof (Z.mod_pos_bound n radix ltac:(lia)). lia.
Qed.

Lemma length_digits_msb (radix : Z) (k : nat) :
  forall n, length (digits_msb radix k n) = k.
Proof.
  induction k as [|k IH]; intros n; cbn [digits_msb]; [reflexivity|].
  rewrite length_app, IH. simpl. lia.
Qed.

(** [long_to_string_with_divisor], exactly: when the number that fixes the
    digit count ([num], or [divisor] when that is not 0) has [k <=
    MAX_FILLER] digits, the [k] low digits of [num] are written from [p]
    on, most significant first, [p + k] is returned and no cell below [p]
    changes. *)
Lemma long_to_string_digits (buf : buffer) (p : nat) (num radix divisor : Z) (k : nat) :
  2 <= radix <= 36 -> (1 <= k <= MAX_FILLER)%nat -> (p + MAX_FILLER <= length buf)%nat ->
  wrap_u32 (if divisor =? 0 then num else divisor) < radix ^ Z.of_nat k ->
  (k = 1%nat \/ radix ^ (Z.of_nat k - 1) <= wrap_u32 (if divisor =? 0 then num else divisor)) ->
  exists buf',
    long_to_string_with_divisor buf p num radix divisor = Ok (buf', (p + k)%nat) /\
    length buf' = length buf /\
    load_range buf' p k = Ok (digits_msb radix k (wrap_u32 num)) /\
    (forall j, (j < p)%nat -> load buf' j = load buf j).
Proof.
  intros Hr Hk Hlen Hll Hlow. unfold long_to_string_with_divisor.
  destruct (digit_loop_digits radix k Hr (p + MAX_FILLER) buf num
              (if divisor =? 0 then num else divisor))
    as (buf1 & E & Hl1 & Ht1 & Hf1); [lia | exact Hlen | exact Hll | exact Hlow |].
  rewrite E. cbn [bind].
  destruct k as [|k]; [lia|].
  replace (p + MAX_FILLER - (p + MAX_FILLER - Datatypes.S k) - 1)%nat with k by lia.
  destruct (copy_loop_text k buf1 p (p + MAX_FILLER - Datatypes.S k)
              (digits_msb radix (Datatypes.S k) (wrap_u32 num)))
    as (buf' & Ec & Hl & Ht & Hf); [lia | lia | exact Ht1 |].
  exists buf'. split; [exact Ec|]. split; [congruence|]. split.
  - rewrite Ht. now rewrite digits_msb_bytes.
  - intros j Hj. rewrite Hf by exact Hj. apply Hf1. lia.
Qed.

(** Every number below [radix ^ m] has a digit count between 1 and [m]. *)
Lemma digit_count (radix : Z) (m : nat) :
  2 <= radix -> (1 <= m)%nat ->
  forall n, 0 <= n < radix ^ Z.of_nat m ->
  exists k, (1 <= k <= m)%nat /\ n < radix ^ Z.of_nat k /\
            (k = 1%nat \/ radix ^ (Z.of_nat k - 1) <= n).
Proof.
  intros Hr. induction m as [|m IH]; intros Hm n Hn; [lia|].
  destruct m as [|m].
  - exists 1%nat. split; [lia|]. split; [exact (proj2 Hn) | left; reflexivity].
  - destruct (Z_lt_le_dec n (radix ^ Z.of_nat (Datatypes.S m))) as [Hlt|Hge].
    + destruct (IH ltac:(lia) n ltac:(lia)) as (k & Hk & Hlt' & Hlow).
      exists k. split; [lia | auto].
    + exists (Datatypes.S (Datatypes.S m)). split; [lia|]. split; [exact (proj2 Hn)|].
      right. replace (Z.of_nat (Datatypes.S (Datatypes.S m)) - 1)
        with (Z.of_nat (Datatypes.S m)) by lia. exact Hge.
Qed.

Lemma parse_digits_app (radix : Z) (a : list Z) (c : Z) :
  parse_digits radix (a ++ [c]) = parse_digits radix a * radix + digit_value c.
Proof. unfold parse_digits. rewrite fold_left_app. reflexivity. Qed.

(** Reading back the [k] low digits of [n] gives [n] modulo [radix ^ k]. *)
Lemma parse_digits_msb (radix : Z) (k : nat) :
  2 <= radix <= 36 ->
  forall n, 0 <= n -> parse_digits radix (digits_msb radix k n) = n mod radix ^ Z.of_nat k.
Proof.
  intros Hr. induction k as [|k IH]; intros n Hn.
  - cbn. now rewrite Z.mod_1_r.
  - cbn [digits_msb]. rewrite parse_digits_app, IH by (apply Z.div_pos; lia).
    rewrite digit_value_char by (pose proof (Z.mod_pos_bound n radix ltac:(lia)); lia).
    rewrite Nat2Z.inj_succ, Z.pow_succ_r by lia.
    rewrite Z.rem_mul_r by (try apply Z.pow_pos_nonneg; lia). ring.
Qed.

Lemma hd_digits_msb (radix : Z) (k : nat) :
  2 <= radix ->
  forall n, 0 <= n ->
    hd 0 (digits_msb radix (Datatypes.S k) n)
    = digit_char ((n / radix ^ Z.of_nat k) mod radix).
Proof.
  intros Hr. induction k as [|k IH]; intros n Hn.
  - cbn. now rewrite Z.div_1_r.
  - change (digits_msb radix (Datatypes.S (Datatypes.S k)) n)
      with (digits_msb radix (Datatypes.S k) (n / radix) ++ [digit_char (n mod radix)]).
    assert (Hne : digits_msb radix (Datatypes.S k) (n / radix) <> []).
    { intros E. apply (f_equal (@length Z)) in E.
      rewrite length_digits_msb in E. discriminate. }
    destruct (digits_msb radix (Datatypes.S k) (n / radix)) as [|c t] eqn:Ed;
      [contradiction|].
    cbn [app hd]. change c with (hd 0 (c :: t)). rewrite <- Ed.
    rewrite IH by (apply Z.div_pos; lia).
    rewrite Z.div_div by (try apply Z.pow_pos_nonneg; lia).
    rewrite Nat2Z.inj_succ, Z.pow_succ_r by lia. reflexivity.
Qed.

Lemma digit_char_not_zero (d : Z) : 1 <= d < 36 -> digit_char d <> ch "0".
Proof.
  intros Hd. unfold digit_char. change (ch "0") with 48. change (ch "A") with 65.
  destruct (9 <? d); lia.
Qed.

(** [ch_ltoa], exactly: for a radix from 8 to 36 the text written from
    [p] on is the digits of the unsigned value, as many as the value has. *)
Lemma ch_ltoa_text (buf : buffer) (p : nat) (num radix : Z) :
  8 <= radix <= 36 -> (p + MAX_FILLER <= length buf)%nat ->
  exists buf' k,
    (1 <= k <= MAX_FILLER)%nat /\
    ch_ltoa buf p num radix = Ok (buf', (p + k)%nat) /\
    length buf' = length buf /\
    load_range buf' p k = Ok (digits_msb radix k (wrap_u32 num)) /\
    wrap_u32 num < radix ^ Z.of_nat k /\
    (k = 1%nat \/ radix ^ (Z.of_nat k - 1) <= wrap_u32 num) /\
    (forall j, (j < p)%nat -> load buf' j = load buf j).
Proof.
  intros Hr Hlen.
  pose proof (wrap_u32_range num) as Hu.
  destruct (digit_count radix MAX_FILLER ltac:(lia) ltac:(unfold MAX_FILLER; lia)
              (wrap_u32 num)) as (k & Hk & Hlt & Hlow).
  { split; [lia|].
    assert (H8 : 8 ^ Z.of_nat MAX_FILLER <= radix ^ Z.of_nat MAX_FILLER)
      by (apply Z.pow_le_mono_l; lia).
    change (8 ^ Z.of_nat MAX_FILLER) with 8589934592 in H8.
    change (2 ^ 32) with 4294967296 in Hu. lia. }
  destruct (long_to_string_digits buf p num radix 0 k) as (buf' & E & Hl & Ht & Hf);
    [lia | exact Hk | exact Hlen | exact Hlt | exact Hlow |].
  exists buf', k. auto 10.
Qed.

(** The first digit of a number written on exactly its digit count is not
    ['0']. *)
Lemma digits_msb_leading (radix : Z) (k : nat) (n : Z) :
  2 <= radix <= 36 -> 0 <= n < radix ^ Z.of_nat k ->
  (k = 1%nat \/ radix ^ (Z.of_nat k - 1) <= n) ->
  length (digits_msb radix k n) = 1%nat \/ hd 0 (digits_msb radix k n) <> ch "0".
Proof.
  intros Hr Hn Hlow. rewrite length_digits_msb.
  destruct Hlow as [Hk1|Hlow]; [left; exact Hk1 | right].
  destruct k as [|k]; [cbn; discriminate|].
  rewrite hd_digits_msb by lia.
  replace (Z.of_nat (Datatypes.S k) - 1) with (Z.of_nat k) in Hlow by lia.
  assert (Hpos : 0 < radix ^ Z.of_nat k) by (apply Z.pow_pos_nonneg; lia).
  assert (Hq : 1 <= n / radix ^ Z.of_nat k < radix).
  { split.
    - apply Z.div_le_lower_bound; lia.
    - apply Z.div_lt_upper_bound; [lia|].
      rewrite Nat2Z.inj_succ, Z.pow_succ_r in Hn by lia. lia. }
  rewrite Z.mod_small by lia. apply digit_char_not_zero. lia.
Qed.



(** [X2] The divisor variant has a fixed width: with the divisor
    [radix ^ (k - 1)] the renderer writes exactly [k] digits, whatever the
    number: they are the [k] low digits of the number (taken as an unsigned
    32-bit value), leading zeros kept, so they read back as the number
    modulo [radix ^ k], and as the number itself when it is below
    [radix ^ k]. *)
Theorem long_to_string_fixed_width (buf : buffer) (p : nat) (num radix : Z) (k : nat) :
  2 <= radix <= 36 -> (1 <= k <= MAX_FILLER)%nat -> (p + MAX_FILLER <= length buf)%nat ->
  radix ^ (Z.of_nat k - 1) < 2 ^ 32 ->
  exists buf',
    long_to_string_with_divisor buf p num radix (radix ^ (Z.of_nat k - 1))
    = Ok (buf', (p + k)%nat) /\
    load_range buf' p k = Ok (digits_msb radix k (wrap_u32 num)) /\
    parse_digits radix (digits_msb radix k (wrap_u32 num))
    = wrap_u32 num mod radix ^ Z.of_nat k /\
    (wrap_u32 num < radix ^ Z.of_nat k ->
     parse_digits radix (digits_msb radix k (wrap_u32 num)) = wrap_u32 num) /\
    (forall j, (j < p)%nat -> load buf' j = load buf j).
Proof.
  intros Hr Hk Hlen Hdiv.
  pose proof (wrap_u32_range num) as Hu.
  assert (Hpos : 0 < radix ^ (Z.of_nat k - 1)) by (apply Z.pow_pos_nonneg; lia).
  assert (Hne : (radix ^ (Z.of_nat k - 1) =? 0) = false) by (apply Z.eqb_neq; lia).
  assert (Hw : wrap_u32 (radix ^ (Z.of_nat k - 1)) = radix ^ (Z.of_nat k - 1))
    by (unfold wrap_u32; apply Z.mod_small; lia).
  assert (Hpow : radix ^ Z.of_nat k = radix * radix ^ (Z.of_nat k - 1)).
  { replace (Z.of_nat k) with (Z.succ (Z.of_nat k - 1)) at 1 by lia.
    apply Z.pow_succ_r. lia. }
  destruct (long_to_string_digits buf p num radix (radix ^ (Z.of_nat k - 1)) k)
    as (buf' & E & Hl & Ht & Hf); try assumption.
  - rewrite Hne, Hw, Hpow. nia.
  - right. rewrite Hne, Hw. lia.
  - exists buf'. split; [exact E|]. split; [exact Ht|].
    assert (Hpd : parse_digits radix (digits_msb radix k (wrap_u32 num))
                  = wrap_u32 num mod radix ^ Z.of_nat k)
      by (apply parse_digits_msb; lia).
    split; [exact Hpd|]. split; [|exact Hf].
    intros Hsmall. rewrite Hpd. apply Z.mod_small. lia.
Qed.

Lemma long_to_string_fixed_width_witness :
  exists buf',
    long_to_string_with_divisor (fresh 23) 3 1234567 10 (10 ^ (Z.of_nat 4 - 1))
    = Ok (buf', (3 + 4)%nat) /\
    load_range buf' 3 4 = Ok (digits_msb 10 4 (wrap_u32 1234567)) /\
    parse_digits 10 (digits_msb 10 4 (wrap_u32 1234567))
    = wrap_u32 1234567 mod 10 ^ Z.of_nat 4 /\
    (wrap_u32 1234567 < 10 ^ Z.of_nat 4 ->
     parse_digits 10 (digits_msb 10 4 (wrap_u32 1234567)) = wrap_u32 1234567) /\
    (forall j, (j < 3)%nat -> load buf' j = load (fresh 23) j).
Proof.
  apply (long_to_string_fixed_width (fresh 23) 3 1234567 10 4);
    try (simpl; lia); unfold MAX_FILLER; simpl; lia.
Defined.

(** [X3] Zero is rendered as the single digit ['0'] in every radix from 2
    to 36 (the digit loop runs at least once). *)
Theorem ch_ltoa_zero (buf : buffer) (p : nat) (radix : Z) :
  2 <= radix <= 36 -> (p + MAX_FILLER <= length buf)%nat ->
  exists buf',
    ch_ltoa buf p 0 radix = Ok (buf', Datatypes.S p) /\
    load buf' p = Ok (ch "0") /\
    (forall j, (j < p)%nat -> load buf' j = load buf j).
Proof.
  intros Hr Hlen.
  destruct (long_to_string_digits buf p 0 radix 0 1) as (buf' & E & Hl & Ht & Hf);
    [exact Hr | unfold MAX_FILLER; lia | exact Hlen | | left; reflexivity |].
  - change (wrap_u32 (if 0 =? 0 then 0 else 0)) with 0.
    change (Z.of_nat 1) with 1. rewrite Z.pow_1_r. lia.
  - exists buf'. unfold ch_ltoa. rewrite E.
    split; [f_equal; f_equal; lia|]. split; [|exact Hf].
    cbn [load_range] in Ht. bind_inv Ht. inversion Ht. subst a. exact Ha.
Qed.

Lemma ch_ltoa_zero_witness :
  exists buf',
    ch_ltoa (fresh 12) 0 0 2 = Ok (buf', 1%nat) /\
    load buf' 0 = Ok (ch "0") /\
    (forall j, (j < 0)%nat -> load buf' j = load (fresh 12) j).
Proof.
  apply (ch_ltoa_zero (fresh 12) 0 2); [lia | unfold MAX_FILLER; simpl; lia].
Defined.

(** ** What the integer conversions render *)

Lemma wrap_u32_of_s32 (x : Z) : wrap_u32 (wrap_s32 x) = wrap_u32 x.
Proof.
  unfold wrap_u32, wrap_s32. rewrite Zminus_mod_idemp_l. f_equal. ring.
Qed.

Lemma in_tmpbuf_Ok filler ap f (buf : buffer) (p : nat) (text : list Z) :
  load_range buf 0 p = Ok text ->
  in_tmpbuf filler ap f (Ok (buf, p))
  = Ok {| c_filler := filler; c_s := text; c_len := Z.of_nat p;
          c_ap := ap; c_tmpbuf := buf; c_f := f |}.
Proof. intros E. unfold in_tmpbuf. cbn [bind]. rewrite E. reflexivity. Qed.

(** The signed case of the switch. *)
Lemma convert_signed_eq uf (d : directive) (ap0 : va_list) (tb : buffer) (f : float) :
  is_signed_conv (conv d) = true ->
  convert uf d ap0 tb f
  = ('(l, ap1) <- (if is_long d then va_arg_long ap0 else va_arg_int ap0) ;;
     in_tmpbuf (filler d) ap1 f
       ('(buf, p, l) <- (if l <? 0
                         then buf <- store tb 0 (ch "-") ;; negate buf l
                         else Ok (tb, 0%nat, l)) ;;
        ch_ltoa buf p l 10)).
Proof.
  intros Hc. unfold convert. unfold is_signed_conv in Hc.
  destruct (conv d =? ch "c") eqn:E1.
  { apply Z.eqb_eq in E1. rewrite E1 in Hc. discriminate. }
  destruct (conv d =? ch "s") eqn:E2.
  { apply Z.eqb_eq in E2. rewrite E2 in Hc. discriminate. }
  rewrite Hc. reflexivity.
Qed.


(** The signed conversions, exactly: a ['-'] for a negative operand, then
    the decimal digits of its magnitude. *)
Lemma convert_signed_text uf (d : directive) (v : Z) (ap : va_list) (tb : buffer) (f : float) :
  is_signed_conv (conv d) = true ->
  - 2 ^ 31 < v < 2 ^ 31 -> (MAX_FILLER + 1 <= length tb)%nat ->
  exists r k,
    convert uf d (int_arg (is_long d) v :: ap) tb f = Ok r /\
    c_ap r = ap /\ c_filler r = filler d /\ c_f r = f /\
    length (c_tmpbuf r) = length tb /\
    c_len r = Z.of_nat (length (c_s r)) /\
    c_s r = (if v <? 0 then [ch "-"] else []) ++ digits_msb 10 k (Z.abs v) /\
    (1 <= k <= MAX_FILLER)%nat /\ Z.abs v < 10 ^ Z.of_nat k /\
    (k = 1%nat \/ 10 ^ (Z.of_nat k - 1) <= Z.abs v).
Proof.
  intros Hc Hv Hlen.
  rewrite (convert_signed_eq uf d _ tb f Hc).
  assert (Harg : (if is_long d then va_arg_long (int_arg (is_long d) v :: ap)
                  else va_arg_int (int_arg (is_long d) v :: ap)) = Ok (v, ap)).
  { unfold int_arg. destruct (is_long d); cbn; rewrite wrap_s32_small by lia; reflexivity. }
  rewrite Harg. cbn [bind].
  destruct (v <? 0) eqn:Eneg; [apply Z.ltb_lt in Eneg | apply Z.ltb_ge in Eneg].
  - rewrite store_in_bounds by lia. cbn [bind]. unfold negate.
    replace (v =? - 2 ^ 31) with false by (symmetry; apply Z.eqb_neq; lia).
    cbn [bind].
    set (tb1 := upd tb 0 (to_char (ch "-"))).
    destruct (ch_ltoa_text tb1 1 (- v) 10 ltac:(lia))
      as (buf' & k & Hk & E & Hl & Ht & Hlt & Hlow & Hf).
    { unfold tb1. rewrite length_upd. unfold MAX_FILLER in *. lia. }
    assert (Hmag : wrap_u32 (- v) = Z.abs v).
    { unfold wrap_u32. rewrite Z.mod_small; lia. }
    rewrite Hmag in Ht, Hlt, Hlow.
    assert (Hsign : load buf' 0 = Ok (ch "-")).
    { rewrite Hf by lia. unfold tb1, load. rewrite nth_error_upd_same by lia. reflexivity. }
    assert (Htext : load_range buf' 0 (1 + k) = Ok (ch "-" :: digits_msb 10 k (Z.abs v))).
    { change (load_range buf' 0 (1 + k))
        with (c <- load buf' 0 ;; rest <- load_range buf' 1 k ;; Ok (c :: rest)).
      rewrite Hsign. cbn [bind]. rewrite Ht. reflexivity. }
    rewrite E, (in_tmpbuf_Ok _ _ _ _ _ _ Htext).
    eexists. exists k. split; [reflexivity|]. cbn [c_ap c_filler c_f c_tmpbuf c_len c_s].
    repeat split; try assumption; try lia.
    + unfold tb1 in Hl. rewrite Hl. apply length_upd.
    + cbn [length]. rewrite length_digits_msb. reflexivity.
  - cbn [bind].
    destruct (ch_ltoa_text tb 0 v 10 ltac:(lia))
      as (buf' & k & Hk & E & Hl & Ht & Hlt & Hlow & Hf).
    { unfold MAX_FILLER in *. lia. }
    assert (Hmag : wrap_u32 v = Z.abs v).
    { unfold wrap_u32. rewrite Z.mod_small; lia. }
    rewrite Hmag in Ht, Hlt, Hlow.
    cbn [Nat.add] in E. rewrite E, (in_tmpbuf_Ok _ _ _ _ _ _ Ht).
    eexists. exists k. split; [reflexivity|]. cbn [c_ap c_filler c_f c_tmpbuf c_len c_s app].
    repeat split; try assumption; try lia.
    rewrite length_digits_msb. reflexivity.
Qed.





(** The unsigned conversions, exactly: the digits of the operand, read as
    an unsigned 32-bit number, in the radix of the conversion. *)
Lemma convert_unsigned_text uf (d : directive) (radix v : Z) (ap : va_list)
    (tb : buffer) (f : float) :
  unsigned_radix (conv d) = Some radix -> (MAX_FILLER <= length tb)%nat ->
  exists r k,
    convert uf d (int_arg (is_long d) v :: ap) tb f = Ok r /\
    c_ap r = ap /\ c_filler r = filler d /\ c_f r = f /\
    length (c_tmpbuf r) = length tb /\
    c_len r = Z.of_nat (length (c_s r)) /\
    c_s r = digits_msb radix k (wrap_u32 v) /\
    8 <= radix <= 16 /\
    (1 <= k <= MAX_FILLER)%nat /\ wrap_u32 v < radix ^ Z.of_nat k /\
    (k = 1%nat \/ radix ^ (Z.of_nat k - 1) <= wrap_u32 v).
Proof.
  intros Hc Hlen.
  assert (Hconv : convert uf d (int_arg (is_long d) v :: ap) tb f
                  = unsigned_common d radix (int_arg (is_long d) v :: ap) tb f
                  /\ 8 <= radix <= 16).
  { unfold unsigned_radix in Hc. unfold convert.
    destruct ((conv d =? ch "X") || (conv d =? ch "x")) eqn:EX.
    { inversion Hc; subst radix. split; [|lia].
      apply orb_true_iff in EX. rewrite !Z.eqb_eq in EX.
      destruct EX as [H|H]; rewrite H; destruct uf; reflexivity. }
    destruct ((conv d =? ch "U") || (conv d =? ch "u")) eqn:EU.
    { inversion Hc; subst radix. split; [|lia].
      apply orb_true_iff in EU. rewrite !Z.eqb_eq in EU.
      destruct EU as [H|H]; rewrite H; destruct uf; reflexivity. }
    destruct ((conv d =? ch "O") || (conv d =? ch "o")) eqn:EO; [|discriminate].
    inversion Hc; subst radix. split; [|lia].
    apply orb_true_iff in EO. rewrite !Z.eqb_eq in EO.
    destruct EO as [H|H]; rewrite H; destruct uf; reflexivity. }
  destruct Hconv as [Hconv Hr]. rewrite Hconv. unfold unsigned_common.
  assert (Harg : (if is_long d then va_arg_unsigned_long (int_arg (is_long d) v :: ap)
                  else va_arg_unsigned_int (int_arg (is_long d) v :: ap))
                 = Ok (wrap_u32 v, ap)).
  { unfold int_arg. destruct (is_long d); reflexivity. }
  rewrite Harg. cbn [bind].
  destruct (ch_ltoa_text tb 0 (wrap_s32 (wrap_u32 v)) radix ltac:(lia))
    as (buf' & k & Hk & E & Hl & Ht & Hlt & Hlow & Hf).
  { unfold MAX_FILLER in *. lia. }
  rewrite wrap_u32_s32 in Ht, Hlt, Hlow by apply wrap_u32_range.
  cbn [Nat.add] in E. rewrite E, (in_tmpbuf_Ok _ _ _ _ _ _ Ht).
  eexists. exists k. split; [reflexivity|]. cbn [c_ap c_filler c_f c_tmpbuf c_len c_s].
  repeat split; try assumption; try lia.
  rewrite length_digits_msb. reflexivity.
Qed.

(** [X5] The unsigned conversions round-trip: for every directive with
    conversion [x]/[X] (radix 16, digits ['0'..'9'] and ['A'..'F'] for both
    letters), [u]/[U] (radix 10) or [o]/[O] (radix 8), the rendered text has
    1 to [MAX_FILLER] digits, no leading zero unless it is the single
    digit ['0'], and reads back as the operand taken as an unsigned 32-bit
    number. *)
Theorem convert_unsigned_round_trip uf (d : directive) (radix v : Z) (ap : va_list)
    (tb : buffer) (f : float) :
  unsigned_radix (conv d) = Some radix -> (MAX_FILLER <= length tb)%nat ->
  exists r,
    convert uf d (int_arg (is_long d) v :: ap) tb f = Ok r /\
    c_ap r = ap /\ c_filler r = filler d /\
    c_len r = Z.of_nat (length (c_s r)) /\
    (1 <= length (c_s r) <= MAX_FILLER)%nat /\
    (length (c_s r) = 1%nat \/ hd 0 (c_s r) <> ch "0") /\
    Forall (fun c => ch "0" <= c <= ch "9" \/ ch "A" <= c <= ch "F") (c_s r) /\
    parse_digits radix (c_s r) = wrap_u32 v.
Proof.
  intros Hc Hlen.
  destruct (convert_unsigned_text uf d radix v ap tb f Hc Hlen)
    as (r & k & E & Hap & Hfi & Hf & Hl & Hcl & Hs & Hr & Hk & Hlt & Hlow).
  pose proof (wrap_u32_range v) as Hu.
  exists r. split; [exact E|]. split; [exact Hap|]. split; [exact Hfi|].
  split; [exact Hcl|]. rewrite Hs. split; [rewrite length_digits_msb; exact Hk|].
  split; [apply digits_msb_leading; [lia | lia | exact Hlow]|]. split.
  - clear Hlt Hlow Hs. generalize (wrap_u32 v) as n.
    clear E Hk. induction k as [|k IH]; intros n; cbn [digits_msb]; [constructor|].
    apply Forall_app. split; [apply IH|]. constructor; [|constructor].
    pose proof (Z.mod_pos_bound n radix ltac:(lia)) as Hm.
    unfold digit_char. change (ch "0") with 48. change (ch "9") with 57.
    change (ch "A") with 65. change (ch "F") with 70.
    destruct (9 <? n mod radix) eqn:E9;
      [apply Z.ltb_lt in E9 | apply Z.ltb_ge in E9]; lia.
  - rewrite parse_digits_msb by lia. apply Z.mod_small. lia.
Qed.

Lemma convert_unsigned_round_trip_witness :
  exists r,
    convert false {| left_align := false; filler := ch " "; width := 0; precision := 0;
                     is_long := false; conv := ch "x" |}
      (int_arg false (- 1) :: []) (fresh 12) 0 = Ok r /\
    c_ap r = [] /\ c_filler r = ch " " /\
    c_len r = Z.of_nat (length (c_s r)) /\
    (1 <= length (c_s r) <= MAX_FILLER)%nat /\
    (length (c_s r) = 1%nat \/ hd 0 (c_s r) <> ch "0") /\
    Forall (fun c => ch "0" <= c <= ch "9" \/ ch "A" <= c <= ch "F") (c_s r) /\
    parse_digits 16 (c_s r) = wrap_u32 (- 1).
Proof.
  apply (convert_unsigned_round_trip false
           {| left_align := false; filler := ch " "; width := 0; precision := 0;
              is_long := false; conv := ch "x" |} 16 (- 1) [] (fresh 12) 0%float);
    [reflexivity | unfold MAX_FILLER; simpl; lia].
Defined.

(** ** The engine on whole formats *)

(** A format made of one directive: the output is the field of that
    directive. *)
Lemma chvprintf_one_directive uf (spec : list Z) (ap ap' : va_list) (f : float)
    (d : directive) (r : converted) :
  parse_directive (At spec) ap = Ok (d, At [], ap') ->
  convert uf d ap' (fresh (tmpbuf_size uf)) f = Ok r ->
  chvprintf uf ([] : list Z) (ch "%" :: spec) ap f
  = Ok (map to_char (field_bytes (c_s r) (c_len r) (width d) (left_align d) (c_filler r)),
        wrap_s32 (Z.of_nat (length (field_bytes (c_s r) (c_len r) (width d)
                                                 (left_align d) (c_filler r)))),
        c_f r).
Proof.
  intros Hp Hc. unfold chvprintf. cbn [length]. rewrite chvprintf_loop_eq.
  cbn [next peek advance bind].
  change (ch "%" =? 0) with false. change (negb (ch "%" =? ch "%")) with false.
  cbn iota. unfold run_directive. rewrite Hp. cbn [bind]. rewrite Hc. cbn [bind].
  unfold stream_write. rewrite put_all_log. cbn [bind app].
  rewrite chvprintf_loop_eq. reflexivity.
Qed.


Lemma firstn_length_all {A : Type} (l : list A) : firstn (length l) l = l.
Proof. apply firstn_all. Qed.

(** Without a width the field is the rendered text. *)
Lemma field_bytes_no_width (s : list Z) (left : bool) (fill : Z) :
  Z.of_nat (length s) < 2 ^ 31 ->
  field_bytes s (Z.of_nat (length s)) 0 left fill = s.
Proof.
  intros Hlen. unfold field_bytes.
  assert (Hw : wrap_s32 (0 - Z.of_nat (length s)) <= 0).
  { rewrite wrap_s32_small by lia. lia. }
  destruct (wrap_s32 (0 - Z.of_nat (length s)) <? 0) eqn:E.
  - replace (if negb left then - 0 else 0) with 0 by (destruct left; reflexivity).
    cbn [Z.ltb Z.compare Z.to_nat repeat app]. rewrite Nat2Z.id, firstn_all, app_nil_r.
    reflexivity.
  - apply Z.ltb_ge in E. replace (wrap_s32 (0 - Z.of_nat (length s))) with 0 by lia.
    replace (if negb left then - 0 else 0) with 0 by (destruct left; reflexivity).
    cbn [Z.ltb Z.compare Z.to_nat repeat app]. rewrite Nat2Z.id, firstn_all, app_nil_r.
    reflexivity.
Qed.




(** [X7] Literal text is copied: a format without ['%'] (and without NUL)
    is handed to the sink byte for byte, the return value is its length,
    and no argument is read (any argument list will do). *)
Theorem chvprintf_literal uf (fmt : list Z) (ap : va_list) (f : float) :
  Forall (fun c => 0 < c < 256 /\ c <> ch "%") fmt ->
  Z.of_nat (length fmt) < 2 ^ 31 ->
  chvprintf uf ([] : list Z) fmt ap f = Ok (fmt, Z.of_nat (length fmt), f).
Proof.
  intros Hfmt Hlen. unfold chvprintf.
  generalize (fresh (tmpbuf_size uf)) as tb.
  assert (H : forall (log : list Z) (n : Z) (tb : buffer),
             - 2 ^ 31 <= n -> n + Z.of_nat (length fmt) < 2 ^ 31 ->
             chvprintf_loop uf (length fmt) log (At fmt) ap n tb f
             = Ok (log ++ fmt, n + Z.of_nat (length fmt), f)).
  { induction fmt as [|c fmt IH]; intros log n tb Hn Hn'; rewrite chvprintf_loop_eq.
    - cbn. rewrite app_nil_r, Z.add_0_r. reflexivity.
    - inversion Hfmt as [|? ? [Hc Hp] Hrest]; subst.
      cbn [next peek advance bind length].
      replace (c =? 0) with false by (symmetry; apply Z.eqb_neq; lia).
      replace (c =? ch "%") with false by (symmetry; apply Z.eqb_neq; exact Hp).
      cbn [negb]. unfold stream_write. rewrite put_all_log. cbn [bind map].
      replace (to_char c) with c by (unfold to_char; rewrite Z.mod_small; lia).
      cbn [length] in Hn', Hlen.
      rewrite IH; [| exact Hrest | lia | | ].
      + rewrite <- app_assoc. cbn [app]. rewrite wrap_s32_small by lia.
        f_equal. f_equal. f_equal. lia.
      + pose proof (wrap_s32_range (n + 1)). lia.
      + rewrite wrap_s32_small by lia. lia. }
  intros tb. rewrite H by lia. reflexivity.
Qed.

Lemma chvprintf_literal_witness :
  chvprintf false ([] : list Z) (bytes "hello, world") [VInt 1] 0
  = Ok (bytes "hello, world", Z.of_nat (length (bytes "hello, world")), 0%float).
Proof.
  apply (chvprintf_literal false (bytes "hello, world") [VInt 1] 0%float).
  - repeat constructor; vm_compute; congruence.
  - vm_compute. reflexivity.
Defined.

Ltac eqb_false c :=
  repeat match goal with
  | |- context [c =? ?k] =>
      let k' := eval vm_compute in k in
      replace (c =? k) with false
        by (symmetry; apply Z.eqb_neq; change k with k'; lia)
  end.

(** [X8] An unrecognised conversion character is emitted as it is: behind a
    ['%'], a byte that is no flag, digit, ['*'], ['.'], length modifier or
    known conversion goes to the sink unchanged, the call returns 1, and no
    argument is read (["%%"] prints one ['%']). *)
Theorem chvprintf_unknown_conversion uf (c : Z) (ap : va_list) (f : float) :
  0 < c < 256 -> existsb (Z.eqb c) (directive_chars uf) = false ->
  chvprintf uf ([] : list Z) [ch "%"; c] ap f = Ok ([c], 1, f).
Proof.
  intros Hc Hspecial.
  assert (Hne : forall k, In k (directive_chars uf) -> c <> k).
  { intros k Hk E. subst k.
    assert (existsb (Z.eqb c) (directive_chars uf) = true)
      by (apply existsb_exists; exists c; split; [exact Hk | apply Z.eqb_refl]).
    congruence. }
  assert (Hcommon : forall k, In k (bytes "-0123456789*.lLcsDdIiXxUuOo") -> c <> k).
  { intros k Hk. apply Hne. unfold directive_chars. apply in_or_app. left. exact Hk. }
  assert (Hnum : forall k, 45 <= k <= 57 -> k <> 47 -> c <> k).
  { intros k Hk H47. apply Hcommon.
    assert (Hcases : k = 45 \/ k = 46 \/ k = 48 \/ k = 49 \/ k = 50 \/ k = 51 \/ k = 52 \/
                     k = 53 \/ k = 54 \/ k = 55 \/ k = 56 \/ k = 57) by lia.
    vm_compute. intuition lia. }
  assert (Hlet : forall k, In k (bytes "*lLcsDdIiXxUuOo") -> c <> k).
  { intros k Hk. apply Hcommon. vm_compute in Hk |- *. intuition lia. }
  assert (Hdigit : (ch "0" <=? c) && (c <=? ch "9") = false).
  { change (ch "0") with 48. change (ch "9") with 57.
    destruct (48 <=? c) eqn:E1; [|reflexivity].
    destruct (c <=? 57) eqn:E2; [|reflexivity].
    apply Z.leb_le in E1, E2. exfalso. apply (Hnum c); lia. }
  assert (Hminus := Hnum 45 ltac:(lia) ltac:(lia)).
  assert (Hzero := Hnum 48 ltac:(lia) ltac:(lia)).
  assert (Hdot := Hnum 46 ltac:(lia) ltac:(lia)).
  assert (Hstar : c <> 42) by (apply Hlet; vm_compute; intuition lia).
  assert (Hl : c <> 108) by (apply Hlet; vm_compute; intuition lia).
  assert (HL : c <> 76) by (apply Hlet; vm_compute; intuition lia).
  assert (Hcc : c <> 99) by (apply Hlet; vm_compute; intuition lia).
  assert (Hs : c <> 115) by (apply Hlet; vm_compute; intuition lia).
  assert (HD : c <> 68) by (apply Hlet; vm_compute; intuition lia).
  assert (Hd : c <> 100) by (apply Hlet; vm_compute; intuition lia).
  assert (HI : c <> 73) by (apply Hlet; vm_compute; intuition lia).
  assert (Hi : c <> 105) by (apply Hlet; vm_compute; intuition lia).
  assert (HX : c <> 88) by (apply Hlet; vm_compute; intuition lia).
  assert (Hx : c <> 120) by (apply Hlet; vm_compute; intuition lia).
  assert (HU : c <> 85) by (apply Hlet; vm_compute; intuition lia).
  assert (Hu : c <> 117) by (apply Hlet; vm_compute; intuition lia).
  assert (HO : c <> 79) by (apply Hlet; vm_compute; intuition lia).
  assert (Ho : c <> 111) by (apply Hlet; vm_compute; intuition lia).
  assert (Hf : uf && (c =? ch "f") = false).
  { destruct uf; [|reflexivity]. cbn [andb]. apply Z.eqb_neq. apply Hne.
    vm_compute. intuition lia. }
  set (d := {| left_align := false; filler := ch " "; width := 0; precision := 0;
               is_long := (ch "A" <=? c) && (c <=? ch "Z"); conv := c |}).
  assert (Hp : parse_directive (At [c]) ap = Ok (d, At [], ap)).
  { unfold parse_directive, parse_flags. cbn [peek bind]. eqb_false c.
    cbn [peek bind advance]. eqb_false c. cbn [bind parse_number number_loop].
    rewrite Hdigit. eqb_false c. cbn [bind]. eqb_false c. cbn [bind].
    unfold long_modifier. eqb_false c. reflexivity. }
  assert (Hlen : (1 <= length (fresh (tmpbuf_size uf)))%nat).
  { unfold fresh. rewrite repeat_length. destruct uf; simpl; lia. }
  assert (Hconv : convert uf d ap (fresh (tmpbuf_size uf)) f
                  = Ok {| c_filler := ch " "; c_s := [c]; c_len := 1; c_ap := ap;
                          c_tmpbuf := upd (fresh (tmpbuf_size uf)) 0 c; c_f := f |}).
  { unfold convert, d. cbn [conv filler]. rewrite Hf. eqb_false c. cbn [orb].
    rewrite store_in_bounds by exact Hlen. cbn [bind].
    replace (to_char c) with c by (unfold to_char; rewrite Z.mod_small; lia).
    apply in_tmpbuf_Ok. cbn [load_range]. unfold load.
    rewrite nth_error_upd_same by exact Hlen. reflexivity. }
  rewrite (chvprintf_one_directive uf [c] ap ap f d _ Hp Hconv).
  cbn [c_s c_len c_filler c_f width left_align d].
  change 1 with (Z.of_nat (length [c])). rewrite field_bytes_no_width by (simpl; lia).
  cbn [map length]. replace (to_char c) with c by (unfold to_char; rewrite Z.mod_small; lia).
  reflexivity.
Qed.

Lemma chvprintf_unknown_conversion_witness :
  chvprintf true ([] : list Z) [ch "%"; ch "%"] [VInt 7] 0 = Ok ([ch "%"], 1, 0%float).
Proof.
  apply (chvprintf_unknown_conversion true (ch "%") [VInt 7] 0%float).
  - vm_compute. split; reflexivity.
  - vm_compute. reflexivity.
Defined.

(** [X9] The bounded form always terminates the destination inside its
    capacity: for a capacity [N >= 1] the destination receives the first
    [min (length out) (N - 1)] bytes of the output and a NUL right behind
    them, nothing from index [N] on changes, and the return value is that
    of the unbounded form. *)
Theorem chvsnprintf_terminated uf (str : list Z) (N : Z) fmt ap f out L f' :
  chvprintf uf ([] : list Z) fmt ap f = Ok (out, L, f') ->
  1 <= N <= Z.of_nat (length str) ->
  let k := Nat.min (length out) (Z.to_nat (N - 1)) in
  exists str',
    chvsnprintf uf str N fmt ap f = Ok (str', L, f') /\
    str' = firstn k out ++ 0 :: skipn (Datatypes.S k) str /\
    length str' = length str /\
    skipn (Z.to_nat N) str' = skipn (Z.to_nat N) str.
Proof.
  intros E HN k.
  destruct (chvprintf_log _ _ _ _ _ _ _ E) as [_ Hs].
  assert (Hk : (k <= length out)%nat /\ (k < Z.to_nat N)%nat /\ (k < length str)%nat)
    by (unfold k; lia).
  assert (Hf : length (firstn k out) = k) by (apply firstn_length_le; lia).
  exists (firstn k out ++ 0 :: skipn (Datatypes.S k) str).
  split; [|split; [reflexivity|split]].
  - unfold chvsnprintf. rewrite Hs.
    replace (0 <? N) with true by (symmetry; apply Z.ltb_lt; lia).
    unfold msObjectInit.
    pose proof (put_all_memory out [] str (N - 1) 0) as Hm.
    cbn [app length] in Hm. change (Z.of_nat 0) with 0 in Hm.
    rewrite Hm by lia. clear Hm.
    rewrite Z.sub_0_r, Z.add_0_l. fold k. cbn [bind ms_eos ms_buffer].
    replace (Z.of_nat k <? N) with true by (symmetry; apply Z.ltb_lt; lia).
    destruct (skipn_cons_tl k str ltac:(lia)) as [x Hx].
    rewrite Hx.
    replace (Z.of_nat k) with (Z.of_nat (length (firstn k out)))
      by (rewrite Hf; reflexivity).
    rewrite dest_store_app. reflexivity.
  - rewrite length_app, Hf. cbn [length]. rewrite length_skipn. lia.
  - rewrite skipn_app, Hf.
    rewrite skipn_all2 by lia. cbn [app].
    replace (Z.to_nat N - k)%nat with (Datatypes.S (Z.to_nat N - k - 1)) by lia.
    rewrite skipn_cons, skipn_skipn. f_equal. lia.
Qed.

Lemma chvsnprintf_terminated_witness :
  exists str',
    chvsnprintf false [1; 2; 3; 4; 5; 6; 7; 8] 6 (bytes "%d") [VInt 42] 0
    = Ok (str', 2, 0%float) /\
    str' = firstn (Nat.min (length (bytes "42")) (Z.to_nat (6 - 1))) (bytes "42") ++
           0 :: skipn (Datatypes.S (Nat.min (length (bytes "42")) (Z.to_nat (6 - 1))))
                  [1; 2; 3; 4; 5; 6; 7; 8] /\
    length str' = length [1; 2; 3; 4; 5; 6; 7; 8] /\
    skipn (Z.to_nat 6) str' = skipn (Z.to_nat 6) [1; 2; 3; 4; 5; 6; 7; 8].
Proof.
  apply (chvsnprintf_terminated false [1; 2; 3; 4; 5; 6; 7; 8] 6 (bytes "%d") [VInt 42]
           0%float (bytes "42") 2 0%float).
  - vm_compute. reflexivity.
  - simpl. lia.
Defined.

(** [X10] The return value counts the bytes handed to the sink: it is their
    number, as a 32-bit [int] (the number itself below 2^31). *)
Theorem chvprintf_counts_bytes uf fmt ap f (out : list Z) L f' :
  chvprintf uf ([] : list Z) fmt ap f = Ok (out, L, f') ->
  L = wrap_s32 (Z.of_nat (length out)) /\
  (Z.of_nat (length out) < 2 ^ 31 -> L = Z.of_nat (length out)).
Proof.
  intros E. destruct (chvprintf_log _ _ _ _ _ _ _ E) as [HL _].
  split; [exact HL|]. intros Hlen. rewrite HL. apply wrap_s32_small. lia.
Qed.

Lemma chvprintf_counts_bytes_witness :
  12 = wrap_s32 (Z.of_nat (length (bytes "Value:    42"))) /\
  (Z.of_nat (length (bytes "Value:    42")) < 2 ^ 31 ->
   12 = Z.of_nat (length (bytes "Value:    42"))).
Proof.
  apply (chvprintf_counts_bytes false (bytes "Value: %5d") [VInt 42] 0%float
           (bytes "Value:    42") 12 0%float).
  vm_compute. reflexivity.
Defined.

(** [X11] The engine never looks at its sink: whatever the sink does with
    the bytes (store them, refuse them, fail), it is handed the bytes of
    the unbounded run in the same order, and the return value and the
    function-static [f] are those of the unbounded run. *)
Theorem chvprintf_any_sink uf fmt ap f (out : list Z) L f' :
  chvprintf uf ([] : list Z) fmt ap f = Ok (out, L, f') ->
  forall (S : Type) (H : BaseSequentialStream S) (chp : S),
    chvprintf uf chp fmt ap f = (chp' <- put_all chp out ;; Ok (chp', L, f')).
Proof.
  intros E. destruct (chvprintf_log _ _ _ _ _ _ _ E) as [_ Hs]. exact Hs.
Qed.

Lemma chvprintf_any_sink_witness :
  chvprintf false (msObjectInit [9; 9; 9] 2 0) (bytes "%d") [VInt 12345] 0
  = (chp' <- put_all (msObjectInit [9; 9; 9] 2 0) (bytes "12345") ;; Ok (chp', 5, 0%float)).
Proof.
  apply (chvprintf_any_sink false (bytes "%d") [VInt 12345] 0%float (bytes "12345") 5 0%float).
  vm_compute. reflexivity.
Defined.

(** ** Strings, widths and fields *)

Lemma str_count_min (s : list Z) :
  forall precision, 0 <= precision < 2 ^ 31 ->
    str_count s precision = Z.of_nat (Nat.min (strlen s) (Z.to_nat precision)).
Proof.
  induction s as [|c s IH]; intros precision Hp; cbn [str_count strlen]; [reflexivity|].
  destruct (c =? 0); [reflexivity|].
  destruct (Z.eq_dec precision 0) as [->|Hnz].
  - reflexivity.
  - rewrite wrap_s32_small by lia.
    replace (0 <=? precision - 1) with true by (symmetry; apply Z.leb_le; lia).
    rewrite IH by lia.
    replace (Z.to_nat precision) with (Datatypes.S (Z.to_nat (precision - 1))) by lia.
    cbn [Nat.min]. lia.
Qed.

(** [X14] The string conversion prints the string up to its NUL and at most
    [precision] bytes of it (at most 32767 when the precision is 0 or
    absent), always with the space filler, and leaves the working buffer
    alone; a null pointer is printed as the string ["(null)"]. *)
Theorem convert_string_length uf (d : directive) (s : list Z) (ap : va_list)
    (tb : buffer) (f : float) :
  conv d = ch "s" -> 0 <= precision d < 2 ^ 31 ->
  convert uf d (VStr (Some s) :: ap) tb f
  = Ok {| c_filler := ch " "; c_s := s;
          c_len := Z.of_nat (Nat.min (strlen s)
                     (Z.to_nat (if precision d =? 0 then 32767 else precision d)));
          c_ap := ap; c_tmpbuf := tb; c_f := f |}
  /\ convert uf d (VStr None :: ap) tb f
     = convert uf d (VStr (Some (bytes "(null)")) :: ap) tb f.
Proof.
  intros Hc Hp. unfold convert. rewrite Hc.
  change (ch "s" =? ch "c") with false. change (ch "s" =? ch "s") with true.
  cbn [va_arg_char_ptr bind]. split; [|reflexivity].
  rewrite str_count_min; [reflexivity|].
  destruct (precision d =? 0); lia.
Qed.

Lemma convert_string_length_witness :
  convert false {| left_align := false; filler := ch "0"; width := 0; precision := 3;
                   is_long := false; conv := ch "s" |}
    (VStr (Some (bytes "hello")) :: []) (fresh 12) 0
  = Ok {| c_filler := ch " "; c_s := bytes "hello";
          c_len := Z.of_nat (Nat.min (strlen (bytes "hello"))
                     (Z.to_nat (if 3 =? 0 then 32767 else 3)));
          c_ap := []; c_tmpbuf := fresh 12; c_f := 0%float |}
  /\ convert false {| left_align := false; filler := ch "0"; width := 0; precision := 3;
                      is_long := false; conv := ch "s" |}
       (VStr None :: []) (fresh 12) 0
     = convert false {| left_align := false; filler := ch "0"; width := 0; precision := 3;
                        is_long := false; conv := ch "s" |}
         (VStr (Some (bytes "(null)")) :: []) (fresh 12) 0.
Proof.
  apply (convert_string_length false
           {| left_align := false; filler := ch "0"; width := 0; precision := 3;
              is_long := false; conv := ch "s" |} (bytes "hello") [] (fresh 12) 0%float);
    [reflexivity | simpl; lia].
Defined.

Lemma wrap_s32_mul_add (a b c : Z) : wrap_s32 (wrap_s32 a * b + c) = wrap_s32 (a * b + c).
Proof.
  unfold wrap_s32. f_equal.
  replace (((a + 2 ^ 31) mod 2 ^ 32 - 2 ^ 31) * b + c + 2 ^ 31)
    with ((a + 2 ^ 31) mod 2 ^ 32 * b + (c + 2 ^ 31 - 2 ^ 31 * b)) by ring.
  rewrite Zplus_mod, Zmult_mod_idemp_l, <- Zplus_mod. f_equal. ring.
Qed.

Lemma parse_digits_from (radix : Z) (ds : list Z) :
  forall a,
    fold_left (fun acc c => acc * radix + digit_value c) ds a
    = a * radix ^ Z.of_nat (length ds) + parse_digits radix ds.
Proof.
  unfold parse_digits. induction ds as [|x ds IH]; intros a.
  - cbn. ring.
  - cbn [fold_left length]. rewrite IH, (IH (0 * radix + digit_value x)).
    rewrite Nat2Z.inj_succ, Z.pow_succ_r by lia. ring.
Qed.

(** The width and precision loop over a run of decimal digits. *)
Lemma number_loop_run (ds : list Z) :
  forall (tail : list Z) ap acc,
    Forall (fun x => ch "0" <= x <= ch "9") ds ->
    - 2 ^ 31 <= acc < 2 ^ 31 ->
    exists acc',
      number_loop (ds ++ tail) ap acc = number_loop tail ap acc' /\
      acc' = wrap_s32 (acc * 10 ^ Z.of_nat (length ds) + parse_digits 10 ds).
Proof.
  induction ds as [|x ds IH]; intros tail ap acc Hds Hacc.
  - exists acc. split; [reflexivity|]. cbn. rewrite Z.mul_1_r, Z.add_0_r.
    now rewrite wrap_s32_small.
  - inversion Hds as [|? ? Hx Hrest]; subst. cbn [app number_loop].
    replace ((ch "0" <=? x) && (x <=? ch "9")) with true
      by (symmetry; apply andb_true_iff; split; apply Z.leb_le; lia).
    destruct (IH tail ap (wrap_s32 (acc * 10 + (x - ch "0"))) Hrest (wrap_s32_range _))
      as (acc' & E & Hacc').
    exists acc'. split; [exact E|]. rewrite Hacc'.
    rewrite wrap_s32_mul_add. f_equal.
    unfold parse_digits at 2. cbn [fold_left]. rewrite parse_digits_from.
    assert (Hdv : digit_value x = x - ch "0").
    { unfold digit_value. replace (x <=? ch "9") with true
        by (symmetry; apply Z.leb_le; lia). reflexivity. }
    rewrite Hdv. cbn [length]. rewrite Nat2Z.inj_succ, Z.pow_succ_r by lia. ring.
Qed.

(** [X15] A width or precision written in digits is read as its decimal
    value (as a 32-bit [int]) and the loop stops at the first byte that is
    no digit and no ['*'], which it hands on as the next character; when
    the digits run up to the end of the format, the loop consumes the
    terminating NUL and leaves the cursor beyond it. *)
Theorem parse_number_decimal (ds rest : list Z) (c : Z) (ap : va_list) :
  Forall (fun x => ch "0" <= x <= ch "9") ds ->
  (c < ch "0" \/ ch "9" < c) -> c <> ch "*" ->
  parse_number (At (ds ++ c :: rest)) ap
  = Ok (c, At rest, ap, wrap_s32 (parse_digits 10 ds))
  /\ parse_number (At ds) ap = Ok (0, Past, ap, wrap_s32 (parse_digits 10 ds)).
Proof.
  intros Hds Hc Hstar. unfold parse_number. split.
  - destruct (number_loop_run ds (c :: rest) ap 0 Hds ltac:(lia)) as (acc' & E & Hacc).
    rewrite E, Hacc. cbn [number_loop Z.mul Z.add].
    replace ((ch "0" <=? c) && (c <=? ch "9")) with false.
    + replace (c =? ch "*") with false by (symmetry; apply Z.eqb_neq; exact Hstar).
      reflexivity.
    + symmetry. apply andb_false_iff.
      destruct Hc as [Hc|Hc]; [left; apply Z.leb_gt | right; apply Z.leb_gt]; exact Hc.
  - destruct (number_loop_run ds [] ap 0 Hds ltac:(lia)) as (acc' & E & Hacc).
    rewrite app_nil_r in E. rewrite E, Hacc. reflexivity.
Qed.

Lemma parse_number_decimal_witness :
  parse_number (At (bytes "120" ++ ch "d" :: bytes "!")) [VInt 7]
  = Ok (ch "d", At (bytes "!"), [VInt 7], wrap_s32 (parse_digits 10 (bytes "120")))
  /\ parse_number (At (bytes "120")) [VInt 7]
     = Ok (0, Past, [VInt 7], wrap_s32 (parse_digits 10 (bytes "120"))).
Proof.
  apply (parse_number_decimal (bytes "120") (bytes "!") (ch "d") [VInt 7]).
  - repeat constructor; vm_compute; congruence.
  - right. vm_compute. reflexivity.
  - vm_compute. congruence.
Defined.

(** [X16] A field is never shorter than the width and never cuts the text:
    it is [max i width] bytes long, [i] being the length of the rendered
    text; by default (right-aligned, space filler) it is the padding
    followed by the whole text. *)
Theorem field_bytes_length (s : list Z) (i width : Z) (left : bool) (fill : Z) :
  0 <= i <= Z.of_nat (length s) -> i < 2 ^ 31 -> 0 <= width < 2 ^ 31 ->
  (1 <= i \/ fill <> ch "0") ->
  length (field_bytes s i width left fill) = Z.to_nat (Z.max i width)
  /\ field_bytes s i width false (ch " ")
     = repeat (ch " ") (Z.to_nat (width - i)) ++ firstn (Z.to_nat i) s.
Proof.
  intros Hi Hi31 Hw Hsign.
  assert (Hfirst : length (firstn (Z.to_nat i) s) = Z.to_nat i)
    by (apply firstn_length_le; lia).
  unfold field_bytes. rewrite wrap_s32_small by lia. split.
  - destruct (width - i <? 0) eqn:E; [apply Z.ltb_lt in E | apply Z.ltb_ge in E].
    + replace (if negb left then - 0 else 0) with 0 by (destruct left; reflexivity).
      cbn [Z.ltb Z.compare Z.to_nat repeat app]. rewrite app_nil_r, Hfirst. lia.
    + destruct left; cbn [negb].
      * replace (width - i <? 0) with false by (symmetry; apply Z.ltb_ge; lia).
        cbn [app]. rewrite length_app, repeat_length, Hfirst. lia.
      * destruct (- (width - i) <? 0) eqn:E2;
          [apply Z.ltb_lt in E2 | apply Z.ltb_ge in E2].
        -- destruct ((hd 0 s =? ch "-") && (fill =? ch "0")) eqn:Es.
           ++ apply andb_true_iff in Es. destruct Es as [_ Ef]. apply Z.eqb_eq in Ef.
              destruct Hsign as [Hi1|Hf]; [|contradiction].
              change (Z.to_nat 0) with O. cbn [repeat]. rewrite app_nil_r.
              rewrite !length_app, repeat_length. cbn [length].
              rewrite firstn_length_le.
              ** lia.
              ** destruct s as [|c s]; cbn [tl length] in *; lia.
           ++ change (Z.to_nat 0) with O. cbn [repeat app]. rewrite app_nil_r.
              rewrite length_app, repeat_length, Hfirst. lia.
        -- assert (width - i = 0) by lia.
           replace (- (width - i)) with 0 by lia.
           change (Z.to_nat 0) with O. cbn [repeat app]. rewrite app_nil_r, Hfirst. lia.
  - cbn [negb]. change (ch " " =? ch "0") with false. rewrite andb_false_r.
    destruct (width - i <? 0) eqn:E; [apply Z.ltb_lt in E | apply Z.ltb_ge in E].
    + cbn [Z.opp Z.ltb Z.compare Z.to_nat repeat app].
      replace (Z.to_nat (width - i)) with O by lia. cbn [repeat app].
      now rewrite app_nil_r.
    + destruct (- (width - i) <? 0) eqn:E2;
        [apply Z.ltb_lt in E2 | apply Z.ltb_ge in E2].
      * rewrite Z.opp_involutive. change (Z.to_nat 0) with O. cbn [repeat app].
        now rewrite app_nil_r.
      * replace (width - i) with 0 by lia. cbn [Z.opp Z.to_nat repeat app].
        now rewrite app_nil_r.
Qed.

Lemma field_bytes_length_witness :
  length (field_bytes (bytes "-42") 3 6 false (ch "0")) = Z.to_nat (Z.max 3 6)
  /\ field_bytes (bytes "-42") 3 6 false (ch " ")
     = repeat (ch " ") (Z.to_nat (6 - 3)) ++ firstn (Z.to_nat 3) (bytes "-42").
Proof.
  apply (field_bytes_length (bytes "-42") 3 6 false (ch "0")); simpl; lia.
Defined.

(** ** What can go wrong without float support *)

Lemma load_range_app (buf : buffer) (n m : nat) :
  forall from ta tb,
    load_range buf from n = Ok ta -> load_range buf (from + n) m = Ok tb ->
    load_range buf from (n + m) = Ok (ta ++ tb).
Proof.
  induction n as [|n IH]; intros from ta tb Ha Hb.
  - cbn in Ha. inversion Ha; subst. rewrite Nat.add_0_r in Hb. exact Hb.
  - change (load_range buf from (Datatypes.S n + m))
      with (v <- load buf from ;;
            rest <- load_range buf (Datatypes.S from) (n + m) ;; Ok (v :: rest)).
    cbn [load_range] in Ha.
    destruct (load buf from) as [v|e]; cbn [bind] in *; [|discriminate].
    destruct (load_range buf (Datatypes.S from) n) as [t|e] eqn:Et; cbn [bind] in *;
      [|discriminate].
    inversion Ha; subst. rewrite (IH (Datatypes.S from) t tb Et).
    + reflexivity.
    + replace (Datatypes.S from + n)%nat with (from + Datatypes.S n)%nat by lia. exact Hb.
Qed.

(** The integer renderer behind an initialised prefix of the buffer: the
    whole text can be read back. *)
Lemma in_tmpbuf_ch_ltoa_Ok filler ap f (buf : buffer) (p : nat) (l radix : Z)
    (pre : list Z) :
  8 <= radix <= 36 -> (p + MAX_FILLER <= length buf)%nat ->
  load_range buf 0 p = Ok pre ->
  exists r, in_tmpbuf filler ap f (ch_ltoa buf p l radix) = Ok r
            /\ length (c_tmpbuf r) = length buf /\ c_ap r = ap.
Proof.
  intros Hr Hlen Hpre.
  destruct (ch_ltoa_text buf p l radix Hr Hlen)
    as (buf' & k & Hk & E & Hl & Ht & _ & _ & Hf).
  assert (Hpre' : load_range buf' 0 p = Ok pre).
  { rewrite <- Hpre. apply load_range_ext. intros j Hj. apply Hf. lia. }
  rewrite E, (in_tmpbuf_Ok _ _ _ _ _ _ (load_range_app buf' p k 0%nat _ _ Hpre' Ht)).
  eexists. split; [reflexivity|]. split; [exact Hl | reflexivity].
Qed.

Lemma in_tmpbuf_store_first_Ok filler ap f (tb : buffer) (v : Z) :
  (1 <= length tb)%nat ->
  exists r, in_tmpbuf filler ap f (buf <- store tb 0 v ;; Ok (buf, 1%nat)) = Ok r
            /\ length (c_tmpbuf r) = length tb /\ c_ap r = ap.
Proof.
  intros Hlen. rewrite store_in_bounds by lia. cbn [bind].
  assert (Ht : load_range (upd tb 0 (to_char v)) 0 1 = Ok [to_char v]).
  { cbn [load_range]. unfold load. rewrite nth_error_upd_same by lia. reflexivity. }
  rewrite (in_tmpbuf_Ok _ _ _ _ _ _ Ht). eexists.
  split; [reflexivity|]. split; [apply length_upd | reflexivity].
Qed.

(** Without float support a conversion has three outcomes: it succeeds,
    having consumed arguments from the front of the list and kept the size
    of the working buffer; it fails on the type of its argument; or it is
    a signed conversion whose argument is [LONG_MIN]. *)
Lemma convert_outcome (d : directive) (ap : va_list) (tb : buffer) (f : float) :
  length tb = tmpbuf_size false ->
  (exists r pre, convert false d ap tb f = Ok r /\ length (c_tmpbuf r) = length tb /\
                 ap = pre ++ c_ap r)
  \/ convert false d ap tb f = Fault VaArgMismatch
  \/ (convert false d ap tb f = Fault SignedOverflow /\
      exists a rest, ap = a :: rest /\ is_long_min a).
Proof.
  intros Hlen. change (tmpbuf_size false) with 12%nat in Hlen.
  assert (Hpop : forall (a : va_value) (rest : va_list) (m : res converted),
             (exists r, m = Ok r /\ length (c_tmpbuf r) = length tb /\ c_ap r = rest) ->
             exists r pre, m = Ok r /\ length (c_tmpbuf r) = length tb /\
                           a :: rest = pre ++ c_ap r).
  { intros a rest m (r & E & Hl & Hap). exists r, [a]. rewrite Hap. auto. }
  assert (Hu : forall radix, 8 <= radix <= 36 ->
             (exists r pre, unsigned_common d radix ap tb f = Ok r /\
                            length (c_tmpbuf r) = length tb /\ ap = pre ++ c_ap r)
             \/ unsigned_common d radix ap tb f = Fault VaArgMismatch).
  { intros radix Hr. unfold unsigned_common.
    destruct (is_long d); destruct ap as [|[v|v|x|s] ap']; cbn [va_arg_unsigned_long
      va_arg_unsigned_int bind]; try (right; reflexivity); left; apply Hpop;
      apply (in_tmpbuf_ch_ltoa_Ok _ _ _ tb 0 _ radix []); try exact Hr;
      try reflexivity; unfold MAX_FILLER; lia. }
  assert (Hs : forall l ap',
             - 2 ^ 31 < l ->
             exists r,
               in_tmpbuf (filler d) ap' f
                 ('(buf, p, l) <- (if l <? 0
                                   then buf <- store tb 0 (ch "-") ;; negate buf l
                                   else Ok (tb, 0%nat, l)) ;;
                  ch_ltoa buf p l 10) = Ok r
               /\ length (c_tmpbuf r) = length tb /\ c_ap r = ap').
  { intros l ap' Hlmin. destruct (l <? 0).
    - rewrite store_in_bounds by lia. cbn [bind]. unfold negate.
      replace (l =? - 2 ^ 31) with false by (symmetry; apply Z.eqb_neq; lia).
      cbn [bind].
      destruct (in_tmpbuf_ch_ltoa_Ok (filler d) ap' f (upd tb 0 (to_char (ch "-"))) 1
                  (- l) 10 [to_char (ch "-")]) as (r & E & Hl & Hap).
      + lia.
      + rewrite length_upd. unfold MAX_FILLER. lia.
      + cbn [load_range]. unfold load. rewrite nth_error_upd_same by lia. reflexivity.
      + exists r. split; [exact E|]. split; [|exact Hap]. rewrite Hl. apply length_upd.
    - cbn [bind]. apply (in_tmpbuf_ch_ltoa_Ok _ _ _ tb 0 _ 10 []);
        [lia | unfold MAX_FILLER; lia | reflexivity]. }
  assert (Hmin : forall ap',
             in_tmpbuf (filler d) ap' f
               ('(buf, p, l) <- (if - 2 ^ 31 <? 0
                                 then buf <- store tb 0 (ch "-") ;; negate buf (- 2 ^ 31)
                                 else Ok (tb, 0%nat, - 2 ^ 31)) ;;
                ch_ltoa buf p l 10) = Fault SignedOverflow).
  { intros ap'. change (- 2 ^ 31 <? 0) with true. cbn iota.
    rewrite store_in_bounds by lia. reflexivity. }
  assert (Hsigned : forall v ap',
             let l := wrap_s32 v in
             (exists r,
                 in_tmpbuf (filler d) ap' f
                   ('(buf, p, l) <- (if l <? 0
                                     then buf <- store tb 0 (ch "-") ;; negate buf l
                                     else Ok (tb, 0%nat, l)) ;;
                    ch_ltoa buf p l 10) = Ok r
                 /\ length (c_tmpbuf r) = length tb /\ c_ap r = ap')
             \/ (in_tmpbuf (filler d) ap' f
                   ('(buf, p, l) <- (if l <? 0
                                     then buf <- store tb 0 (ch "-") ;; negate buf l
                                     else Ok (tb, 0%nat, l)) ;;
                    ch_ltoa buf p l 10) = Fault SignedOverflow
                 /\ l = - 2 ^ 31)).
  { intros v ap' l. pose proof (wrap_s32_range v) as Hr. fold l in Hr.
    destruct (Z.eq_dec l (- 2 ^ 31)) as [E|E].
    - right. split; [|exact E]. rewrite E. apply Hmin.
    - left. apply Hs. lia. }
  unfold convert. cbn [andb].
  destruct (conv d =? ch "c").
  { destruct ap as [|[v|v|x|s] ap']; cbn [va_arg_int bind];
      try (right; left; reflexivity).
    left. apply Hpop. apply in_tmpbuf_store_first_Ok. lia. }
  destruct (conv d =? ch "s").
  { destruct ap as [|[v|v|x|s] ap']; cbn [va_arg_char_ptr bind];
      try (right; left; reflexivity).
    left. eexists. exists [VStr s]. repeat split. }
  destruct ((conv d =? ch "D") || (conv d =? ch "d") || (conv d =? ch "I") || (conv d =? ch "i")).
  { destruct (is_long d); destruct ap as [|[v|v|x|s] ap']; cbn [va_arg_long va_arg_int bind];
      try (right; left; reflexivity);
      (destruct (Hsigned v ap') as [Hok|[Hf Hv]];
       [left; apply Hpop; exact Hok
       |right; right; split; [exact Hf|]; eexists; eexists; split; [reflexivity | exact Hv]]). }
  destruct ((conv d =? ch "X") || (conv d =? ch "x"));
    [destruct (Hu 16 ltac:(lia)) as [H|H]; [left; exact H | right; left; exact H]|].
  destruct ((conv d =? ch "U") || (conv d =? ch "u"));
    [destruct (Hu 10 ltac:(lia)) as [H|H]; [left; exact H | right; left; exact H]|].
  destruct ((conv d =? ch "O") || (conv d =? ch "o"));
    [destruct (Hu 8 ltac:(lia)) as [H|H]; [left; exact H | right; left; exact H]|].
  left. destruct (in_tmpbuf_store_first_Ok (filler d) ap f tb (conv d) ltac:(lia))
    as (r & E & Hl & Hap).
  exists r, []. rewrite Hap. auto.
Qed.

Lemma next_faults (fmt : cursor) (e : fault) : next fmt = Fault e -> e = FmtOverrun.
Proof.
  destruct fmt as [[|x r]|]; cbn; intros E; try discriminate. now inversion E.
Qed.

Lemma number_loop_faults (rest : list Z) :
  forall ap acc e, number_loop rest ap acc = Fault e -> e = VaArgMismatch.
Proof.
  induction rest as [|c rest IH]; intros ap acc e; cbn [number_loop]; [discriminate|].
  destruct ((ch "0" <=? c) && (c <=? ch "9")); [apply IH|].
  destruct (c =? ch "*"); [|discriminate].
  destruct ap as [|[v| | |] ap]; cbn [va_arg_int bind]; try (intros E; now inversion E).
  apply IH.
Qed.

Lemma parse_number_faults fmt ap e : parse_number fmt ap = Fault e -> caller_fault e.
Proof.
  destruct fmt as [rest|]; cbn [parse_number]; intros E.
  - right. eapply number_loop_faults. exact E.
  - left. now inversion E.
Qed.

Lemma parse_flags_faults fmt e : parse_flags fmt = Fault e -> caller_fault e.
Proof.
  intros E. unfold parse_flags in E.
  destruct fmt as [[|x r]|];
    [vm_compute in E; discriminate | | cbn in E; left; now inversion E].
  cbn [peek bind] in E.
  destruct (x =? ch "-"); cbn [advance] in E; [destruct r as [|y r]|]; cbn [peek bind] in E;
    match type of E with
    | context [if ?b then _ else _] => destruct b
    end; discriminate.
Qed.

Lemma parse_directive_faults fmt ap e : parse_directive fmt ap = Fault e -> caller_fault e.
Proof.
  unfold parse_directive. intros E.
  destruct (parse_flags fmt) as [[[la fi] fmt1]|e1] eqn:Ef; cbn [bind] in E;
    [|inversion E; subst; eapply parse_flags_faults; exact Ef].
  destruct (parse_number fmt1 ap) as [[[[c fmt2] ap2] w]|e1] eqn:Ew; cbn [bind] in E;
    [|inversion E; subst; eapply parse_number_faults; exact Ew].
  destruct (if c =? ch "." then parse_number fmt2 ap2 else Ok (c, fmt2, ap2, 0))
    as [[[[c3 fmt3] ap3] pr]|e1] eqn:Epr; cbn [bind] in E.
  - unfold long_modifier, next in E.
    destruct ((c3 =? ch "l") || (c3 =? ch "L")); [|discriminate].
    destruct fmt3 as [[|x rest]|]; cbn in E; try discriminate.
    + destruct (x =? 0); discriminate.
    + left. now inversion E.
  - inversion E; subst. destruct (c =? ch "."); [|discriminate].
    eapply parse_number_faults. exact Epr.
Qed.

(** The parser takes its arguments from the front of the list. *)
Lemma number_loop_suffix (rest : list Z) :
  forall ap acc c fmt' ap' w,
    number_loop rest ap acc = Ok (c, fmt', ap', w) -> exists pre, ap = pre ++ ap'.
Proof.
  induction rest as [|x rest IH]; intros ap acc c fmt' ap' w; cbn [number_loop].
  - intros E. inversion E; subst. exists []. reflexivity.
  - destruct ((ch "0" <=? x) && (x <=? ch "9")); [apply IH|].
    destruct (x =? ch "*").
    + destruct ap as [|[v| | |] ap]; cbn [va_arg_int bind]; try discriminate.
      intros E. apply IH in E. destruct E as [pre ->]. exists (VInt v :: pre). reflexivity.
    + intros E. inversion E; subst. exists []. reflexivity.
Qed.

Lemma parse_number_suffix fmt ap c fmt' ap' w :
  parse_number fmt ap = Ok (c, fmt', ap', w) -> exists pre, ap = pre ++ ap'.
Proof.
  destruct fmt as [rest|]; cbn [parse_number]; [apply number_loop_suffix | discriminate].
Qed.

Lemma parse_directive_suffix fmt ap d fmt' ap' :
  parse_directive fmt ap = Ok (d, fmt', ap') -> exists pre, ap = pre ++ ap'.
Proof.
  unfold parse_directive. intros E.
  bind_inv E. destruct a as [[la fi] fmt1].
  bind_inv E. destruct a as [[[c fmt2] ap2] w].
  bind_inv E. destruct a as [[[c3 fmt3] ap3] pr].
  bind_inv E. destruct a as [[il c4] fmt4]. inversion E; subst.
  apply parse_number_suffix in Ha0. destruct Ha0 as [pre1 ->].
  destruct (c =? ch ".").
  - apply parse_number_suffix in Ha1. destruct Ha1 as [pre2 ->].
    exists (pre1 ++ pre2). now rewrite app_assoc.
  - inversion Ha1; subst. exists pre1. reflexivity.
Qed.

Lemma chvprintf_loop_faults (fuel : nat) :
  forall (log : list Z) fmt ap n tb f e,
    (room fmt <= fuel)%nat -> length tb = tmpbuf_size false ->
    chvprintf_loop false fuel log fmt ap n tb f = Fault e ->
    caller_fault e \/ (e = SignedOverflow /\ Exists is_long_min ap).
Proof.
  induction fuel as [|fuel IH]; intros log fmt ap n tb f e Hroom Hlen E;
    rewrite chvprintf_loop_eq in E;
    (destruct (next fmt) as [[c fmt1]|e1] eqn:En; cbn [bind] in E;
     [|inversion E; subst; left; left; eapply next_faults; exact En]);
    (destruct (c =? 0) eqn:Ec; [discriminate|]);
    pose proof (room_next_nonzero _ _ _ En Ec) as Hr; [lia|].
  destruct (negb (c =? ch "%")).
  - unfold stream_write in E. rewrite put_all_log in E. cbn [bind] in E.
    eapply IH; [| exact Hlen | exact E]. lia.
  - unfold run_directive in E.
    destruct (parse_directive fmt1 ap) as [[[d fmt2] ap2]|e1] eqn:Ep; cbn [bind] in E;
      [|inversion E; subst; left; eapply parse_directive_faults; exact Ep].
    pose proof (parse_directive_suffix _ _ _ _ _ Ep) as [pre1 Hpre1].
    apply room_parse_directive in Ep.
    destruct (convert_outcome d ap2 tb f Hlen)
      as [(r & pre2 & Ecv & Hl & Hpre2)|[Ecv|[Ecv (a & rest & Hap & Ha)]]];
      rewrite Ecv in E; cbn [bind] in E.
    + unfold stream_write in E. rewrite put_all_log in E. cbn [bind] in E.
      apply IH in E; [| lia | congruence].
      destruct E as [E|[E Hex]]; [left; exact E | right; split; [exact E|]].
      rewrite Hpre1, Hpre2. apply Exists_app. right. apply Exists_app. right. exact Hex.
    + inversion E. left. right. reflexivity.
    + inversion E. right. split; [reflexivity|].
      rewrite Hpre1, Hap. apply Exists_app. right. apply Exists_cons_hd. exact Ha.
Qed.

(** [X12] Built without float support, the engine fails only on its
    caller's input: whatever the format and the arguments, a call either
    returns, or fails because the format ends inside a directive or because
    an argument is missing or of another type, or else it has run into the
    overflowing negation of line 335, and then [LONG_MIN] is among the
    arguments.  It never stores or loads outside the [MAX_FILLER + 1] cells
    of [tmpbuf] and never reads a cell of it that was not written. *)
Theorem chvprintf_fails_by_caller (fmt : list Z) (ap : va_list) (f : float) (e : fault) :
  chvprintf false ([] : list Z) fmt ap f = Fault e ->
  caller_fault e \/ (e = SignedOverflow /\ Exists is_long_min ap).
Proof.
  unfold chvprintf. apply chvprintf_loop_faults.
  - cbn [room]. lia.
  - unfold fresh. apply repeat_length.
Qed.

Lemma chvprintf_fails_by_caller_witness :
  caller_fault VaArgMismatch \/
  (VaArgMismatch = SignedOverflow /\ Exists is_long_min [VStr None]).
Proof.
  apply (chvprintf_fails_by_caller (bytes "%5d") [VStr None] 0%float VaArgMismatch).
  reflexivity.
Defined.

(** ** Formats that end inside a directive *)

Lemma run_directive_unfinished uf (ds : list Z) ap (tb : buffer) f :
  Forall (fun x => ch "0" <= x <= ch "9") ds -> (1 <= length tb)%nat ->
  exists out, run_directive uf (At ds) ap tb f = Ok (out, Past, ap, upd tb 0 0, f).
Proof.
  intros Hds Hlen.
  assert (Hp : exists la fi w,
             parse_directive (At ds) ap
             = Ok ({| left_align := la; filler := fi; width := w; precision := 0;
                      is_long := false; conv := 0 |}, Past, ap)).
  { destruct ds as [|x ds'].
    - exists false, (ch " "), 0. reflexivity.
    - inversion Hds as [|? ? Hx Hrest]; subst.
      unfold parse_directive, parse_flags. cbn [peek bind].
      replace (x =? ch "-") with false
        by (symmetry; apply Z.eqb_neq; change (ch "-") with 45;
            change (ch "0") with 48 in Hx; lia).
      cbn [peek bind].
      destruct (x =? ch "0"); cbn [advance bind]; unfold parse_number.
      + destruct (number_loop_run ds' [] ap 0 Hrest ltac:(lia)) as (acc & E & _).
        rewrite app_nil_r in E. rewrite E. cbn [number_loop bind].
        eexists. eexists. eexists. reflexivity.
      + destruct (number_loop_run (x :: ds') [] ap 0 Hds ltac:(lia)) as (acc & E & _).
        rewrite app_nil_r in E. rewrite E. cbn [number_loop bind].
        eexists. eexists. eexists. reflexivity. }
  destruct Hp as (la & fi & w & Hp). unfold run_directive. rewrite Hp. cbn [bind].
  assert (Hc : convert uf {| left_align := la; filler := fi; width := w; precision := 0;
                             is_long := false; conv := 0 |} ap tb f
               = in_tmpbuf fi ap f (buf <- store tb 0 0 ;; Ok (buf, 1%nat)))
    by (destruct uf; reflexivity).
  rewrite Hc. unfold in_tmpbuf. rewrite store_in_bounds by lia.
  cbn [bind load_range]. unfold load. rewrite nth_error_upd_same by lia.
  cbn [bind c_s c_len c_ap c_tmpbuf c_f c_filler width left_align].
  eexists. reflexivity.
Qed.

Lemma chvprintf_loop_unfinished uf (pre ds : list Z) :
  forall (fuel : nat) (log : list Z) ap n (tb : buffer) f,
    Forall (fun c => c <> 0 /\ c <> ch "%") pre ->
    Forall (fun x => ch "0" <= x <= ch "9") ds ->
    (length pre < fuel)%nat -> (1 <= length tb)%nat ->
    chvprintf_loop uf fuel log (At (pre ++ ch "%" :: ds)) ap n tb f = Fault FmtOverrun.
Proof.
  induction pre as [|c pre IH]; intros fuel log ap n tb f Hpre Hds Hfuel Hlen;
    (destruct fuel as [|fuel]; [simpl in Hfuel; lia|]); rewrite chvprintf_loop_eq.
  - cbn [app next peek advance bind].
    change (ch "%" =? 0) with false. change (negb (ch "%" =? ch "%")) with false.
    cbn iota.
    destruct (run_directive_unfinished uf ds ap tb f Hds Hlen) as [out E].
    rewrite E. cbn [bind].
    unfold stream_write. rewrite put_all_log. cbn [bind].
    rewrite chvprintf_loop_eq. reflexivity.
  - inversion Hpre as [|? ? [Hc0 Hcp] Hrest]; subst.
    cbn [app next peek advance bind].
    apply Z.eqb_neq in Hc0, Hcp. rewrite Hc0, Hcp. cbn [negb].
    unfold stream_write. rewrite put_all_log. cbn [bind].
    apply IH; [exact Hrest | exact Hds | simpl in Hfuel; lia | exact Hlen].
Qed.

(** [X13] A format that ends inside a directive makes the engine read
    beyond the terminating NUL: when, after any literal text, the format
    stops behind a ['%'] or behind the digits that follow it (a ['0'] flag,
    a width), the width loop consumes the NUL as the conversion character
    and the main loop dereferences the format pointer again.  This holds in
    both builds, whatever the arguments. *)
Theorem chvprintf_unfinished_directive uf (pre ds : list Z) (ap : va_list) (f : float) :
  Forall (fun c => c <> 0 /\ c <> ch "%") pre ->
  Forall (fun x => ch "0" <= x <= ch "9") ds ->
  chvprintf uf ([] : list Z) (pre ++ ch "%" :: ds) ap f = Fault FmtOverrun.
Proof.
  intros Hpre Hds. unfold chvprintf. apply chvprintf_loop_unfinished.
  - exact Hpre.
  - exact Hds.
  - rewrite length_app. simpl. lia.
  - unfold fresh. rewrite repeat_length. destruct uf; simpl; lia.
Qed.

Lemma chvprintf_unfinished_directive_witness :
  chvprintf true ([] : list Z) (bytes "abc" ++ ch "%" :: bytes "08") [VInt 1] 0
  = Fault FmtOverrun.
Proof.
  apply (chvprintf_unfinished_directive true (bytes "abc") (bytes "08") [VInt 1] 0%float).
  - repeat constructor; vm_compute; congruence.
  - repeat constructor; vm_compute; congruence.
Defined.

(** ** Characters and widths taken from the arguments *)

Lemma to_char_wrap_s32 (v : Z) : to_char (wrap_s32 v) = v mod 256.
Proof.
  unfold to_char, wrap_s32.
  rewrite Zminus_mod, Z.mod_mod_divide by (exists (2 ^ 24); reflexivity).
  rewrite <- Zminus_mod. f_equal. ring.
Qed.

(** [X19] The character conversion emits the low byte of its [int]
    argument, NUL included, always with the space filler (a ['0'] flag is
    ignored), whatever the width and the precision of the directive. *)
Theorem convert_char uf (d : directive) (v : Z) (ap : va_list) (tb : buffer) (f : float) :
  conv d = ch "c" -> (1 <= length tb)%nat ->
  convert uf d (VInt v :: ap) tb f
  = Ok {| c_filler := ch " "; c_s := [v mod 256]; c_len := 1; c_ap := ap;
          c_tmpbuf := upd tb 0 (v mod 256); c_f := f |}.
Proof.
  intros Hc Hlen. unfold convert. rewrite Hc. change (ch "c" =? ch "c") with true.
  cbn [va_arg_int bind]. rewrite store_in_bounds by lia. cbn [bind].
  rewrite to_char_wrap_s32.
  assert (Ht : load_range (upd tb 0 (v mod 256)) 0 1 = Ok [v mod 256]).
  { cbn [load_range]. unfold load. rewrite nth_error_upd_same by lia. reflexivity. }
  rewrite (in_tmpbuf_Ok _ _ _ _ _ _ Ht). reflexivity.
Qed.

Lemma convert_char_witness :
  convert true {| left_align := false; filler := ch "0"; width := 4; precision := 0;
                  is_long := false; conv := ch "c" |} (VInt 321 :: []) (fresh 23) 0
  = Ok {| c_filler := ch " "; c_s := [321 mod 256]; c_len := 1; c_ap := [];
          c_tmpbuf := upd (fresh 23) 0 (321 mod 256); c_f := 0%float |}.
Proof.
  apply (convert_char true
           {| left_align := false; filler := ch "0"; width := 4; precision := 0;
              is_long := false; conv := ch "c" |} 321 [] (fresh 23) 0%float);
    [reflexivity | simpl; lia].
Defined.

(** [X20] A ['*'] in a width or precision takes the next [int] argument,
    keeps only its low byte (the code assigns it to a [char]) and uses it
    as one more "digit": digits written before the ['*'] count ten times
    ([%2*d] with the argument 5 asks for the width 25), and an argument of
    300 gives the width 44. *)
Theorem parse_number_star (ds rest : list Z) (c v : Z) (ap : va_list) :
  Forall (fun x => ch "0" <= x <= ch "9") ds ->
  (c < ch "0" \/ ch "9" < c) -> c <> ch "*" ->
  parse_number (At (ds ++ ch "*" :: c :: rest)) (VInt v :: ap)
  = Ok (c, At rest, ap, wrap_s32 (parse_digits 10 ds * 10 + v mod 256)).
Proof.
  intros Hds Hc Hstar. unfold parse_number.
  destruct (number_loop_run ds (ch "*" :: c :: rest) (VInt v :: ap) 0 Hds ltac:(lia))
    as (acc & E & Hacc).
  rewrite E, Hacc. cbn [Z.mul Z.add].
  change (number_loop (ch "*" :: c :: rest) (VInt v :: ap) (wrap_s32 (parse_digits 10 ds)))
    with (number_loop (c :: rest) ap
            (wrap_s32 (wrap_s32 (parse_digits 10 ds) * 10 + to_char (wrap_s32 v)))).
  rewrite wrap_s32_mul_add, to_char_wrap_s32. cbn [number_loop].
  replace ((ch "0" <=? c) && (c <=? ch "9")) with false.
  - replace (c =? ch "*") with false by (symmetry; apply Z.eqb_neq; exact Hstar).
    reflexivity.
  - symmetry. apply andb_false_iff.
    destruct Hc as [Hc|Hc]; [left; apply Z.leb_gt | right; apply Z.leb_gt]; exact Hc.
Qed.

Lemma parse_number_star_witness :
  parse_number (At (bytes "2" ++ ch "*" :: ch "d" :: [])) (VInt 5 :: [])
  = Ok (ch "d", At [], [], wrap_s32 (parse_digits 10 (bytes "2") * 10 + 5 mod 256)).
Proof.
  apply (parse_number_star (bytes "2") [] (ch "d") 5 []).
  - repeat constructor; vm_compute; congruence.
  - right. vm_compute. reflexivity.
  - vm_compute. congruence.
Defined.

(** ** Layout of the float notations *)

Lemma load_range_store_snoc (buf buf' : buffer) (from n : nat) (text : list Z) (v : Z) :
  load_range buf from n = Ok text -> store buf (from + n) v = Ok buf' ->
  load_range buf' from (n + 1) = Ok (text ++ [to_char v]).
Proof.
  intros Ht Hs. apply load_range_app.
  - rewrite <- Ht. apply load_range_ext. intros j Hj.
    eapply load_store_other; [exact Hs | lia].
  - cbn [load_range]. rewrite (load_store_same _ _ _ _ Hs). reflexivity.
Qed.

Lemma load_range_extend (buf buf' : buffer) (from n k : nat) (text more : list Z) :
  load_range buf from n = Ok text ->
  load_range buf' (from + n) k = Ok more ->
  (forall j, (j < from + n)%nat -> load buf' j = load buf j) ->
  load_range buf' from (n + k) = Ok (text ++ more).
Proof.
  intros Ht Hm Hf. apply load_range_app; [|exact Hm].
  rewrite <- Ht. apply load_range_ext. intros j Hj. apply Hf. lia.
Qed.

Lemma has_point_0 (E : Z) : has_point E 0 = false.
Proof. unfold has_point. destruct (0 <=? E) eqn:E1; [|reflexivity]. cbn. lia. Qed.

(** [X17] Layout of the plain notation: the loop writes exactly
    [precision] digit cells and at most one ['.'], which stands behind the
    first [E + 1] digits and is left out when no digit would follow it (and
    when [E] is negative); it needs [precision] cells, one more with the
    point, and stores nowhere else. *)
Theorem ftoa_plain_layout (k : nat) :
  forall (buf : buffer) (p : nat) (num : float) (E : Z),
    - 2 ^ 31 + Z.of_nat k <= E < 2 ^ 31 ->
    (p + k + (if has_point E k then 1 else 0) <= length buf)%nat ->
    exists buf' text,
      ftoa_plain k buf p num E = Ok (buf', (p + length text)%nat) /\
      load_range buf' p (length text) = Ok text /\
      length text = (k + (if has_point E k then 1 else 0))%nat /\
      (has_point E k = true -> nth_error text (Z.to_nat E + 1) = Some (ch ".")) /\
      length buf' = length buf /\
      (forall j, (j < p)%nat -> load buf' j = load buf j).
Proof.
  induction k as [|k IH]; intros buf p num E HE Hroom.
  - exists buf, []. rewrite has_point_0. cbn [ftoa_plain length load_range].
    rewrite Nat.add_0_r. repeat split; try reflexivity. discriminate.
  - cbn [ftoa_plain].
    assert (Hp : (p < length buf)%nat) by lia.
    rewrite (store_in_bounds buf p _ Hp). cbn [bind].
    set (d0 := to_char (ch "0" + trunc num)).
    set (num' := PrimFloat.mul (PrimFloat.sub num (to_double (trunc num))) 10).
    assert (Hw : wrap_s32 (E - 1) = E - 1) by (apply wrap_s32_small; lia).
    rewrite Hw.
    destruct ((E =? 0) && (1 <? Z.of_nat (Datatypes.S k))) eqn:Edot.
    + apply andb_true_iff in Edot. destruct Edot as [E0 Hk].
      apply Z.eqb_eq in E0. apply Z.ltb_lt in Hk. subst E.
      assert (Hpt : has_point 0 (Datatypes.S k) = true).
      { unfold has_point. apply andb_true_iff. split; [reflexivity | apply Z.ltb_lt; lia]. }
      rewrite Hpt in Hroom |- *.
      assert (Hpt' : has_point (0 - 1) k = false) by reflexivity.
      rewrite store_in_bounds by (rewrite length_upd; lia). cbn [bind].
      set (buf2 := upd (upd buf p d0) (Datatypes.S p) (to_char (ch "."))).
      destruct (IH buf2 (Datatypes.S (Datatypes.S p)) num' (0 - 1)) as
        (buf' & text & Ef & Ht & Hl & _ & Hlen & Hfr).
      { lia. }
      { rewrite Hpt'. unfold buf2. rewrite !length_upd. lia. }
      rewrite Hpt' in Hl.
      exists buf', (d0 :: ch "." :: text). rewrite Ef. cbn [length].
      split; [f_equal; f_equal; lia|]. split; [|split; [lia|split; [|split]]].
      * cbn [load_range].
        rewrite (Hfr p) by lia. rewrite (Hfr (Datatypes.S p)) by lia.
        unfold buf2, load.
        rewrite nth_error_upd_other by lia. rewrite nth_error_upd_same by lia.
        rewrite nth_error_upd_same by (rewrite length_upd; lia).
        cbn [bind]. rewrite Ht. reflexivity.
      * intros _. reflexivity.
      * rewrite Hlen. unfold buf2. now rewrite !length_upd.
      * intros j Hj. rewrite Hfr by lia. unfold buf2, load.
        rewrite !nth_error_upd_other by lia. reflexivity.
    + assert (Hpt : has_point (E - 1) k = has_point E (Datatypes.S k)).
      { unfold has_point. apply andb_false_iff in Edot.
        destruct (0 <=? E - 1) eqn:A1; destruct (E - 1 <? Z.of_nat k - 1) eqn:A2;
          destruct (0 <=? E) eqn:B1; destruct (E <? Z.of_nat (Datatypes.S k) - 1) eqn:B2;
          try reflexivity; exfalso;
          rewrite ?Z.leb_le, ?Z.leb_gt, ?Z.ltb_lt, ?Z.ltb_ge in *;
          destruct Edot as [Edot|Edot];
          rewrite ?Z.eqb_neq, ?Z.ltb_ge in Edot; lia. }
      cbn [bind].
      destruct (IH (upd buf p d0) (Datatypes.S p) num' (E - 1)) as
        (buf' & text & Ef & Ht & Hl & Hdot & Hlen & Hfr).
      { lia. }
      { rewrite Hpt, length_upd. lia. }
      rewrite Hpt in Hl, Hdot.
      exists buf', (d0 :: text). rewrite Ef. cbn [length].
      split; [f_equal; f_equal; lia|]. split; [|split; [lia|split; [|split]]].
      * cbn [load_range]. rewrite (Hfr p) by lia. unfold load.
        rewrite nth_error_upd_same by lia. cbn [bind]. rewrite Ht. reflexivity.
      * intros Hh. specialize (Hdot Hh).
        assert (HE1 : 1 <= E).
        { unfold has_point in Hh. apply andb_true_iff in Hh. destruct Hh as [H0 H1].
          apply Z.leb_le in H0. apply Z.ltb_lt in H1.
          apply andb_false_iff in Edot. destruct Edot as [Edot|Edot];
            rewrite ?Z.eqb_neq, ?Z.ltb_ge in Edot; lia. }
        replace (Z.to_nat E + 1)%nat with (Datatypes.S (Z.to_nat (E - 1) + 1)) by lia.
        exact Hdot.
      * rewrite Hlen. apply length_upd.
      * intros j Hj. rewrite Hfr by lia. unfold load.
        rewrite nth_error_upd_other by lia. reflexivity.
Qed.

Lemma ftoa_plain_layout_witness :
  exists buf' text,
    ftoa_plain 5 (fresh 23) 1 0x1.8p+3 2 = Ok (buf', (1 + length text)%nat) /\
    load_range buf' 1 (length text) = Ok text /\
    length text = (5 + (if has_point 2 5 then 1 else 0))%nat /\
    (has_point 2 5 = true -> nth_error text (Z.to_nat 2 + 1) = Some (ch ".")) /\
    length buf' = length (fresh 23) /\
    (forall j, (j < 1)%nat -> load buf' j = load (fresh 23) j).
Proof.
  apply (ftoa_plain_layout 5 (fresh 23) 1 0x1.8p+3%float 2); [lia | simpl; lia].
Defined.

Lemma pow10_at_precision (precision : Z) :
  2 <= precision <= 9 ->
  pow10_at (wrap_u32 (precision - 2)) = Ok (10 ^ (precision - 1)).
Proof.
  intros H.
  assert (Hc : precision = 2 \/ precision = 3 \/ precision = 4 \/ precision = 5 \/
               precision = 6 \/ precision = 7 \/ precision = 8 \/ precision = 9) by lia.
  repeat (destruct Hc as [->|Hc]; [reflexivity|]). subst. reflexivity.
Qed.

Lemma pow10_divisor (precision : Z) :
  2 <= precision <= 9 ->
  10 ^ (precision - 1) / 10 = 10 ^ (precision - 2) /\
  0 < 10 ^ (precision - 2) < 2 ^ 31.
Proof.
  intros H.
  assert (Hc : precision = 2 \/ precision = 3 \/ precision = 4 \/ precision = 5 \/
               precision = 6 \/ precision = 7 \/ precision = 8 \/ precision = 9) by lia.
  repeat (destruct Hc as [->|Hc]; [split; [reflexivity | cbn; lia]|]).
  subst. split; [reflexivity | cbn; lia].
Qed.

(** The scientific notation of a normalised number, cell by cell. *)
Lemma ftoa_exp_text (buf : buffer) (p : nat) (num : float) (E precision : Z) :
  2 <= precision <= 9 -> 0 <= trunc num < 10 -> - 2 ^ 31 < E < 2 ^ 31 ->
  (p + Z.to_nat precision + MAX_FILLER + 3 <= length buf)%nat ->
  exists buf' k,
    ftoa_exp buf p num E precision
    = Ok (buf', (p + length (exp_text (trunc num) (frac_part num precision)
                               (Z.to_nat (precision - 1)) E k))%nat) /\
    load_range buf' p (length (exp_text (trunc num) (frac_part num precision)
                                 (Z.to_nat (precision - 1)) E k))
    = Ok (exp_text (trunc num) (frac_part num precision) (Z.to_nat (precision - 1)) E k) /\
    (1 <= k <= MAX_FILLER)%nat /\ Z.abs E < 10 ^ Z.of_nat k /\
    (k = 1%nat \/ 10 ^ (Z.of_nat k - 1) <= Z.abs E) /\
    length buf' = length buf /\
    (forall j, (j < p)%nat -> load buf' j = load buf j).
Proof.
  intros Hprec Hlead HE Hroom. unfold MAX_FILLER in Hroom.
  destruct (pow10_divisor precision Hprec) as [Hdiv Hdivr].
  set (k2 := Z.to_nat (precision - 1)).
  assert (Hk2 : Z.of_nat k2 = precision - 1) by (unfold k2; lia).
  unfold ftoa_exp. rewrite (wrap_s32_small (trunc num)) by lia.
  (* the leading digit *)
  destruct (long_to_string_digits buf p (trunc num) 10 0 1)
    as (buf1 & E1 & Hl1 & Ht1 & Hf1);
    [lia | unfold MAX_FILLER; lia | unfold MAX_FILLER; lia | | left; reflexivity |].
  { change (wrap_u32 (if 0 =? 0 then trunc num else 0)) with (wrap_u32 (trunc num)).
    unfold wrap_u32. rewrite Z.mod_small by lia. change (10 ^ Z.of_nat 1) with 10. lia. }
  rewrite E1. cbn [bind].
  assert (Hd : digits_msb 10 1 (wrap_u32 (trunc num)) = [ch "0" + trunc num]).
  { unfold wrap_u32. rewrite Z.mod_small by lia. cbn [digits_msb app].
    rewrite Z.mod_small by lia. unfold digit_char.
    replace (9 <? trunc num) with false by (symmetry; apply Z.ltb_ge; lia).
    f_equal. lia. }
  rewrite Hd in Ht1.
  (* the point and the fraction *)
  replace (1 <=? precision) with true by (symmetry; apply Z.leb_le; lia).
  rewrite (pow10_at_precision precision Hprec). cbn [bind].
  destruct (store buf1 (p + 1) (ch ".")) as [buf2|e] eqn:Es2;
    [|rewrite store_in_bounds in Es2 by lia; discriminate].
  pose proof (load_range_store_snoc _ _ _ _ _ _ Ht1 Es2) as Ht2.
  pose proof (store_Ok _ _ _ _ Es2) as [_ Hb2].
  assert (Hl2 : length buf2 = length buf) by (rewrite Hb2, length_upd; exact Hl1).
  assert (Hf2 : forall j, (j < p)%nat -> load buf2 j = load buf j).
  { intros j Hj. rewrite (load_store_other _ _ _ _ _ Es2) by lia. apply Hf1. exact Hj. }
  cbn [bind]. rewrite Hdiv, (wrap_s32_small (10 ^ (precision - 2))) by lia.
  fold (frac_part num precision).
  destruct (long_to_string_digits buf2 (Datatypes.S (p + 1)) (frac_part num precision) 10
              (10 ^ (precision - 2)) k2)
    as (buf3 & E3 & Hl3 & Ht3 & Hf3).
  { lia. }
  { unfold MAX_FILLER. lia. }
  { unfold MAX_FILLER. lia. }
  { replace (10 ^ (precision - 2) =? 0) with false by (symmetry; apply Z.eqb_neq; lia).
    unfold wrap_u32. rewrite Z.mod_small by lia. rewrite Hk2.
    apply Z.pow_lt_mono_r; lia. }
  { right. replace (10 ^ (precision - 2) =? 0) with false by (symmetry; apply Z.eqb_neq; lia).
    unfold wrap_u32. rewrite Z.mod_small by lia. rewrite Hk2.
    replace (precision - 1 - 1) with (precision - 2) by lia. lia. }
  rewrite E3. cbn [bind].
  replace (Datatypes.S (p + 1)) with (p + (1 + 1))%nat in * by lia.
  pose proof (load_range_extend _ _ _ _ _ _ _ Ht2 Ht3 ltac:(intros j Hj; apply Hf3; lia))
    as Ht3'.
  (* the exponent *)
  destruct (store buf3 (p + (1 + 1) + k2) (ch "E")) as [buf4|e] eqn:Es4;
    [|rewrite store_in_bounds in Es4 by lia; discriminate].
  replace (p + (1 + 1) + k2)%nat with (p + (1 + 1 + k2))%nat in * by lia.
  pose proof (load_range_store_snoc _ _ _ _ _ _ Ht3' Es4) as Ht4.
  pose proof (store_Ok _ _ _ _ Es4) as [_ Hb4].
  assert (Hl4 : length buf4 = length buf) by (rewrite Hb4, length_upd; lia).
  assert (Hf4 : forall j, (j < p)%nat -> load buf4 j = load buf j).
  { intros j Hj. rewrite (load_store_other _ _ _ _ _ Es4) by lia.
    rewrite Hf3 by lia. apply Hf2. exact Hj. }
  cbn [bind].
  set (sign := if 0 <=? E then ch "+" else ch "-").
  set (mag := if 0 <=? E then E else wrap_s32 (- E)).
  assert (Hrest : (if 0 <=? E
                   then buf0 <- store buf4 (Datatypes.S (p + (1 + 1 + k2))) (ch "+") ;;
                        long_to_string_with_divisor buf0
                          (Datatypes.S (Datatypes.S (p + (1 + 1 + k2)))) E 10 0
                   else buf0 <- store buf4 (Datatypes.S (p + (1 + 1 + k2))) (ch "-") ;;
                        long_to_string_with_divisor buf0
                          (Datatypes.S (Datatypes.S (p + (1 + 1 + k2)))) (wrap_s32 (- E)) 10 0)
                  = (buf0 <- store buf4 (p + (1 + 1 + k2 + 1)) sign ;;
                     ch_ltoa buf0 (p + (1 + 1 + k2 + 1 + 1)) mag 10)).
  { replace (Datatypes.S (Datatypes.S (p + (1 + 1 + k2))))
      with (p + (1 + 1 + k2 + 1 + 1))%nat by lia.
    replace (Datatypes.S (p + (1 + 1 + k2))) with (p + (1 + 1 + k2 + 1))%nat by lia.
    unfold sign, mag, ch_ltoa. destruct (0 <=? E); reflexivity. }
  rewrite Hrest. clear Hrest.
  assert (Hmag : wrap_u32 mag = Z.abs E).
  { unfold mag. destruct (0 <=? E) eqn:Es; [apply Z.leb_le in Es | apply Z.leb_gt in Es].
    - unfold wrap_u32. rewrite Z.mod_small; lia.
    - rewrite wrap_u32_of_s32. unfold wrap_u32. rewrite Z.mod_small; lia. }
  destruct (store buf4 (p + (1 + 1 + k2 + 1)) sign) as [buf5|e] eqn:Es5;
    [|rewrite store_in_bounds in Es5 by lia; discriminate].
  pose proof (load_range_store_snoc _ _ _ _ _ _ Ht4 Es5) as Ht5.
  pose proof (store_Ok _ _ _ _ Es5) as [_ Hb5].
  assert (Hl5 : length buf5 = length buf) by (rewrite Hb5, length_upd; lia).
  assert (Hf5 : forall j, (j < p)%nat -> load buf5 j = load buf j).
  { intros j Hj. rewrite (load_store_other _ _ _ _ _ Es5) by lia. apply Hf4. exact Hj. }
  cbn [bind].
  destruct (ch_ltoa_text buf5 (p + (1 + 1 + k2 + 1 + 1)) mag 10)
    as (buf6 & k & Hk & E6 & Hl6 & Ht6 & Hlt & Hlow & Hf6);
    [lia | unfold MAX_FILLER; lia |].
  rewrite Hmag in Ht6, Hlt, Hlow.
  pose proof (load_range_extend _ _ _ _ _ _ _ Ht5 Ht6 ltac:(intros j Hj; apply Hf6; lia))
    as Ht6'.
  rewrite E6.
  assert (Hsign : to_char sign = sign) by (unfold sign; destruct (0 <=? E); reflexivity).
  rewrite Hsign in Ht6'. change (to_char (ch ".")) with (ch ".") in Ht6'.
  change (to_char (ch "E")) with (ch "E") in Ht6'.
  assert (Htext : (((([ch "0" + trunc num] ++ [ch "."])
                      ++ digits_msb 10 k2 (wrap_u32 (frac_part num precision)))
                     ++ [ch "E"]) ++ [sign]) ++ digits_msb 10 k (Z.abs E)
                  = exp_text (trunc num) (frac_part num precision) k2 E k).
  { unfold exp_text. rewrite <- !app_assoc. reflexivity. }
  rewrite Htext in Ht6'.
  assert (Hlen : length (exp_text (trunc num) (frac_part num precision) k2 E k)
                 = (1 + 1 + k2 + 1 + 1 + k)%nat).
  { unfold exp_text. rewrite !length_app, !length_digits_msb. cbn [length]. lia. }
  exists buf6, k. rewrite Hlen.
  split; [f_equal; f_equal; lia|]. split; [exact Ht6'|].
  split; [exact Hk|]. split; [exact Hlt|]. split; [exact Hlow|].
  split; [lia|].
  intros j Hj. rewrite Hf6 by lia. apply Hf5. exact Hj.
Qed.

(** [X18] Layout of the scientific notation, for a precision from 2 to 9
    and a number normalised to one digit before the point: the text is
    that digit, ['.'], exactly [precision - 1] fraction digits (leading
    zeros kept), ['E'], the sign of the exponent (['+'] for zero) and the
    exponent without leading zeros.  The renderer needs
    [precision + MAX_FILLER + 3] cells for it, more than the text is long,
    because every integer is first rendered [MAX_FILLER] cells further up:
    with nine digits, the [2 * MAX_FILLER + 1] cells of [tmpbuf] are just
    enough when the text starts at the first cell. *)
Theorem ftoa_exp_layout (buf : buffer) (p : nat) (num : float) (E precision : Z) :
  2 <= precision <= 9 -> 0 <= trunc num < 10 -> - 2 ^ 31 < E < 2 ^ 31 ->
  (p + Z.to_nat precision + MAX_FILLER + 3 <= length buf)%nat ->
  exists buf' k,
    ftoa_exp buf p num E precision
    = Ok (buf', (p + length (exp_text (trunc num) (frac_part num precision)
                               (Z.to_nat (precision - 1)) E k))%nat) /\
    load_range buf' p (length (exp_text (trunc num) (frac_part num precision)
                                 (Z.to_nat (precision - 1)) E k))
    = Ok (exp_text (trunc num) (frac_part num precision) (Z.to_nat (precision - 1)) E k) /\
    (1 <= k <= MAX_FILLER)%nat /\ Z.abs E < 10 ^ Z.of_nat k /\
    (k = 1%nat \/ 10 ^ (Z.of_nat k - 1) <= Z.abs E) /\
    length buf' = length buf /\
    (forall j, (j < p)%nat -> load buf' j = load buf j).
Proof.
  intros Hprec Hlead HE Hroom.
  destruct (ftoa_exp_text buf p num E precision Hprec Hlead HE Hroom)
    as (buf' & k & Ef & Ht & Hk & Hlt & Hlow & Hl & Hf).
  exists buf', k. repeat split; try assumption; lia.
Qed.

Lemma ftoa_exp_layout_witness :
  exists buf' k,
    ftoa_exp (fresh 23) 0 0x1.8p+0 (- 12) 9
    = Ok (buf', (0 + length (exp_text (trunc 0x1.8p+0) (frac_part 0x1.8p+0 9)
                               (Z.to_nat (9 - 1)) (- 12) k))%nat) /\
    load_range buf' 0 (length (exp_text (trunc 0x1.8p+0) (frac_part 0x1.8p+0 9)
                                 (Z.to_nat (9 - 1)) (- 12) k))
    = Ok (exp_text (trunc 0x1.8p+0) (frac_part 0x1.8p+0 9) (Z.to_nat (9 - 1)) (- 12) k) /\
    (1 <= k <= MAX_FILLER)%nat /\ Z.abs (- 12) < 10 ^ Z.of_nat k /\
    (k = 1%nat \/ 10 ^ (Z.of_nat k - 1) <= Z.abs (- 12)) /\
    length buf' = length (fresh 23) /\
    (forall j, (j < 0)%nat -> load buf' j = load (fresh 23) j).
Proof.
  apply (ftoa_exp_layout (fresh 23) 0 0x1.8p+0%float (- 12) 9);
    [lia | vm_compute; split; congruence | lia | unfold MAX_FILLER; simpl; lia].
Defined.

(** ** A width, end to end *)






(** ** The length modifier, from the format to the operand *)

(** The flags in front of a directive body that does not start with
    ['-']. *)
Lemma parse_flags_body (left : bool) (body : list Z) :
  hd 0 body <> ch "-" ->
  parse_flags (At ((if left then [ch "-"] else []) ++ body))
  = Ok (left, (if hd 0 body =? ch "0" then ch "0" else ch " "),
        At (if hd 0 body =? ch "0" then tl body else body)).
Proof.
  intros Hhd. apply Z.eqb_neq in Hhd. unfold parse_flags.
  destruct left; cbn [app peek bind].
  - change (ch "-" =? ch "-") with true. cbn [advance].
    destruct body as [|x body]; cbn [peek bind hd tl advance] in *; [reflexivity|].
    destruct (x =? ch "0"); reflexivity.
  - destruct body as [|x body]; cbn [peek bind hd tl advance] in *; [reflexivity|].
    rewrite Hhd. cbn [peek bind]. destruct (x =? ch "0"); reflexivity.
Qed.

(** Up to the character the length-modifier test looks at, a directive
    consumes its prefix and no argument. *)
Lemma parse_directive_reaches (left : bool) (ws : list Z) (ps : option (list Z))
    (c : Z) (rest : list Z) (ap : va_list) :
  Forall (fun x => ch "0" <= x <= ch "9") ws ->
  Forall (fun x => ch "0" <= x <= ch "9") (match ps with Some ds => ds | None => [] end) ->
  (c < ch "0" \/ ch "9" < c) -> c <> ch "*" -> c <> ch "-" ->
  (ps = None -> c <> ch ".") ->
  exists la fi w pr,
    parse_directive (At (directive_prefix left ws ps ++ c :: rest)) ap
    = ('(il, c', fmt') <- long_modifier c (At rest) ;;
       Ok ({| left_align := la; filler := fi; width := w; precision := pr;
              is_long := il; conv := c' |}, fmt', ap)).
Proof.
  intros Hws Hps Hc Hstar Hminus Hdot.
  change (ch "0") with 48 in *. change (ch "9") with 57 in *.
  set (tail := match ps with Some ds => ch "." :: ds | None => [] end).
  assert (Hshape : directive_prefix left ws ps ++ c :: rest
                   = (if left then [ch "-"] else []) ++ (ws ++ tail ++ c :: rest)).
  { unfold directive_prefix. fold tail. now rewrite <- !app_assoc. }
  rewrite Hshape.
  assert (Hnd : ((48 <=? c) && (c <=? 57)) = false).
  { apply andb_false_iff. destruct Hc; [left; apply Z.leb_gt | right; apply Z.leb_gt]; lia. }
  assert (Hns : (c =? ch "*") = false) by (apply Z.eqb_neq; exact Hstar).
  assert (Hstop : forall acc, number_loop (c :: rest) ap acc = Ok (c, At rest, ap, acc)).
  { intros acc. cbn [number_loop]. change (ch "0") with 48. change (ch "9") with 57.
    rewrite Hnd, Hns. reflexivity. }
  (* the flags *)
  assert (Hhd : hd 0 (ws ++ tail ++ c :: rest) <> ch "-").
  { change (ch "-") with 45. destruct ws as [|x ws'].
    - unfold tail. destruct ps; cbn; [discriminate | exact Hminus].
    - inversion Hws; subst. cbn. lia. }
  unfold parse_directive. rewrite (parse_flags_body left _ Hhd). cbn [bind].
  assert (Hbody : exists ws',
             Forall (fun x => 48 <= x <= 57) ws' /\
             (if hd 0 (ws ++ tail ++ c :: rest) =? ch "0"
              then tl (ws ++ tail ++ c :: rest) else ws ++ tail ++ c :: rest)
             = ws' ++ tail ++ c :: rest).
  { destruct ws as [|x ws'].
    - exists []. split; [constructor|]. cbn [app].
      replace (hd 0 (tail ++ c :: rest) =? ch "0") with false; [reflexivity|].
      symmetry. apply Z.eqb_neq. change (ch "0") with 48.
      unfold tail. destruct ps; cbn; [discriminate | lia].
    - inversion Hws; subst. cbn [app hd tl].
      destruct (x =? ch "0"); [exists ws' | exists (x :: ws')]; split; auto. }
  destruct Hbody as (ws' & Hws' & ->).
  (* the width *)
  unfold parse_number at 1.
  destruct (number_loop_run ws' (tail ++ c :: rest) ap 0 Hws' ltac:(lia)) as (w & Ew & _).
  rewrite Ew. unfold tail. destruct ps as [ds|]; cbn [app].
  - (* a precision *)
    assert (Hpoint : number_loop (ch "." :: ds ++ c :: rest) ap w
                     = Ok (ch ".", At (ds ++ c :: rest), ap, w)) by reflexivity.
    rewrite Hpoint. cbn [bind]. change (ch "." =? ch ".") with true. cbn iota.
    unfold parse_number.
    destruct (number_loop_run ds (c :: rest) ap 0 Hps ltac:(lia)) as (pr & Epr & _).
    rewrite Epr, Hstop. cbn [bind].
    exists left. eexists. exists w, pr. reflexivity.
  - rewrite Hstop. cbn [bind].
    replace (c =? ch ".") with false
      by (symmetry; apply Z.eqb_neq; apply Hdot; reflexivity).
    cbn [bind]. exists left. eexists. exists w, 0. reflexivity.
Qed.

Lemma integer_conv_cases (c : Z) :
  is_integer_conv c = true ->
  is_signed_conv c = true \/ exists radix, unsigned_radix c = Some radix.
Proof.
  unfold is_integer_conv. cbn [existsb bytes map list_ascii_of_string].
  intros H.
  repeat (apply orb_true_iff in H; destruct H as [H|H]); try discriminate;
    apply Z.eqb_eq in H; subst c;
    first [left; reflexivity | right; eexists; reflexivity].
Qed.

(** [C8] (as amended) For every directive, whatever its flags, width and
    precision: when the character reached behind them is ['l'] or ['L'],
    the operand is wide and the conversion character is the following one,
    if there is one; at the end of the format the modifier itself stays
    the conversion character.  Any other character is the conversion
    character, and the operand is wide exactly when that character lies in
    ['A'..'Z'].  An integer conversion then fetches its operand as a
    [long] when the directive is wide and as an [int] when it is narrow. *)
Theorem long_modifier_rule :
  (forall left ws ps c nxt rest ap,
      Forall (fun x => ch "0" <= x <= ch "9") ws ->
      Forall (fun x => ch "0" <= x <= ch "9")
        (match ps with Some ds => ds | None => [] end) ->
      c = ch "l" \/ c = ch "L" -> nxt <> 0 ->
      exists la fi w pr,
        parse_directive (At (directive_prefix left ws ps ++ c :: nxt :: rest)) ap
        = Ok ({| left_align := la; filler := fi; width := w; precision := pr;
                 is_long := true; conv := nxt |}, At rest, ap))
  /\ (forall left ws ps c ap,
         Forall (fun x => ch "0" <= x <= ch "9") ws ->
         Forall (fun x => ch "0" <= x <= ch "9")
           (match ps with Some ds => ds | None => [] end) ->
         c = ch "l" \/ c = ch "L" ->
         exists la fi w pr,
           parse_directive (At (directive_prefix left ws ps ++ [c])) ap
           = Ok ({| left_align := la; filler := fi; width := w; precision := pr;
                    is_long := true; conv := c |}, At [], ap))
  /\ (forall left ws ps c rest ap,
         Forall (fun x => ch "0" <= x <= ch "9") ws ->
         Forall (fun x => ch "0" <= x <= ch "9")
           (match ps with Some ds => ds | None => [] end) ->
         (c < ch "0" \/ ch "9" < c) -> c <> ch "*" -> c <> ch "-" ->
         (ps = None -> c <> ch ".") -> c <> ch "l" -> c <> ch "L" ->
         exists la fi w pr,
           parse_directive (At (directive_prefix left ws ps ++ c :: rest)) ap
           = Ok ({| left_align := la; filler := fi; width := w; precision := pr;
                    is_long := (ch "A" <=? c) && (c <=? ch "Z"); conv := c |},
                 At rest, ap))
  /\ (forall uf d v ap tb f,
         is_integer_conv (conv d) = true -> - 2 ^ 31 < v < 2 ^ 31 ->
         (MAX_FILLER + 1 <= length tb)%nat ->
         exists r, convert uf d (int_arg (is_long d) v :: ap) tb f = Ok r /\ c_ap r = ap).
Proof.
  assert (Hmod : forall c, c = ch "l" \/ c = ch "L" ->
             (c < ch "0" \/ ch "9" < c) /\ c <> ch "*" /\ c <> ch "-" /\ c <> ch "." /\
             (c =? ch "l") || (c =? ch "L") = true).
  { intros c [->| ->]; repeat split; try (right; reflexivity); discriminate. }
  split; [|split; [|split]].
  - intros left ws ps c nxt rest ap Hws Hps Hc Hn.
    destruct (Hmod c Hc) as (H1 & H2 & H3 & H4 & H5).
    destruct (parse_directive_reaches left ws ps c (nxt :: rest) ap Hws Hps H1 H2 H3
                ltac:(intros _; exact H4)) as (la & fi & w & pr & E).
    exists la, fi, w, pr. rewrite E. unfold long_modifier, next. rewrite H5.
    cbn [peek bind advance]. apply Z.eqb_neq in Hn. rewrite Hn. reflexivity.
  - intros left ws ps c ap Hws Hps Hc.
    destruct (Hmod c Hc) as (H1 & H2 & H3 & H4 & H5).
    destruct (parse_directive_reaches left ws ps c [] ap Hws Hps H1 H2 H3
                ltac:(intros _; exact H4)) as (la & fi & w & pr & E).
    exists la, fi, w, pr. rewrite E. unfold long_modifier. rewrite H5. reflexivity.
  - intros left ws ps c rest ap Hws Hps H1 H2 H3 H4 Hl HL.
    destruct (parse_directive_reaches left ws ps c rest ap Hws Hps H1 H2 H3 H4)
      as (la & fi & w & pr & E).
    exists la, fi, w, pr. rewrite E. unfold long_modifier.
    apply Z.eqb_neq in Hl, HL. rewrite Hl, HL. reflexivity.
  - intros uf d v ap tb f Hi Hv Hlen.
    destruct (integer_conv_cases _ Hi) as [Hs|[radix Hu]].
    + destruct (convert_signed_text uf d v ap tb f Hs Hv Hlen) as (r & k & E & Hap & _).
      exists r. split; assumption.
    + destruct (convert_unsigned_text uf d radix v ap tb f Hu ltac:(lia))
        as (r & k & E & Hap & _).
      exists r. split; assumption.
Qed.

Lemma long_modifier_rule_witness :
  (exists la fi w pr,
      parse_directive
        (At (directive_prefix true (bytes "08") (Some (bytes "3")) ++ ch "l" :: ch "x" :: []))
        [] = Ok ({| left_align := la; filler := fi; width := w; precision := pr;
                    is_long := true; conv := ch "x" |}, At [], []))
  /\ (exists la fi w pr,
         parse_directive (At (directive_prefix false [] None ++ [ch "L"])) []
         = Ok ({| left_align := la; filler := fi; width := w; precision := pr;
                  is_long := true; conv := ch "L" |}, At [], []))
  /\ (exists la fi w pr,
         parse_directive (At (directive_prefix false (bytes "4") None ++ ch "X" :: [])) []
         = Ok ({| left_align := la; filler := fi; width := w; precision := pr;
                  is_long := (ch "A" <=? ch "X") && (ch "X" <=? ch "Z"); conv := ch "X" |},
               At [], []))
  /\ (exists r,
         convert false {| left_align := false; filler := ch " "; width := 0; precision := 0;
                          is_long := true; conv := ch "d" |}
           (int_arg true 5 :: []) (fresh 12) 0 = Ok r /\ c_ap r = []).
Proof.
  destruct long_modifier_rule as (H1 & H2 & H3 & H4).
  split; [|split; [|split]].
  - apply (H1 true (bytes "08") (Some (bytes "3")) (ch "l") (ch "x") [] []).
    + repeat constructor; vm_compute; congruence.
    + repeat constructor; vm_compute; congruence.
    + left. reflexivity.
    + vm_compute. discriminate.
  - apply (H2 false [] None (ch "L") []); [constructor | constructor | right; reflexivity].
  - apply (H3 false (bytes "4") None (ch "X") [] []).
    + repeat constructor; vm_compute; congruence.
    + constructor.
    + right. vm_compute. reflexivity.
    + vm_compute. discriminate.
    + vm_compute. discriminate.
    + intros _. vm_compute. discriminate.
    + vm_compute. discriminate.
    + vm_compute. discriminate.
  - apply (H4 false {| left_align := false; filler := ch " "; width := 0; precision := 0;
                       is_long := true; conv := ch "d" |} 5 [] (fresh 12) 0%float);
      [reflexivity | lia | unfold MAX_FILLER; simpl; lia].
Defined.

(** ** Float rendering truncates *)






